(** * HPCC_FPGA: host harnesses, channel files and reference routines

    A shallow embedding of the host-side code of the HPCC FPGA benchmark
    suite that the system description talks about:

    - [ChannelFile]: the binary channel files of the LINPACK communication
      tests ([setupExternalChannelFiles], [getDataFromExternalChannel]);
    - [TopRole]: the fixture of the Top-row tests ([setupInputChannels],
      [executeKernel]) and the value streams of a Top node;
    - [Linpack]: the LINPACK execution harness [bm_execution::calculate];
    - [Transpose]: the CPU harness [transpose::fpga_execution::cpu::calculate]
      together with [transposeReference], [generateInputData], [printResults]
      and [printCalculationError];
    - [FFT]: the device code around the FFT engine ([bit_reversed], [fetch],
      [fft1d], [store]), with the channels as queues.

    Conventions.  A value of HOST_DATA_TYPE is handled through its object
    representation where the code only moves it around (a [w]-byte word, as
    a [Z]); where the code computes with it, the arithmetic is either a
    parameter of the section or, for the transpose routines, an interface
    of operations with two instances: IEEE 754 binary32 for HOST_DATA_TYPE
    and binary64 for [double], each operation rounding to nearest, which is
    what the benchmark runs with, and exact rational arithmetic.  Arrays
    are lists: an access outside an array, which is
    undefined in C++, reads a default value and writes nothing, and the
    theorems assume arrays of the size their callers allocate.  Repetition
    loops run on an [int] counter compared with the configured count; the
    models iterate on [nat].  Time is counted in ticks of the clock: a
    blocking operation takes the number of ticks that the environment
    gives it, and reading the clock takes none. *)

From Stdlib Require Import ZArith QArith Qabs Lia Lqa SpecFloat.
From stdpp Require Import gmap strings pretty list.
From Equations Require Import Equations.


(* ===================================================================== *)
(** * Channel files *)
(* ===================================================================== *)

Module ChannelFile.

(** A file is its sequence of bytes, a byte is a [Z] in [0, 256). *)

(** The object representation of a [w]-byte value [v], lowest byte first:
    what [reinterpret_cast<const char*>(&v)] exposes to [fs.write]. *)
Fixpoint value_bytes (w : nat) (v : Z) : list Z :=
  match w with
  | O => []
  | S w' => Z.land v 255 :: value_bytes w' (Z.shiftr v 8)
  end.

(** The value whose object representation is [bs]: what [fs.read] leaves
    in [value] after filling its bytes. *)
Fixpoint bytes_value (bs : list Z) : Z :=
  match bs with
  | [] => 0%Z
  | b :: bs' => Z.lor b (Z.shiftl (bytes_value bs') 8)
  end.

(** A well-formed [w]-byte value. *)
Definition value_ok (w : nat) (v : Z) : Prop :=
  (0 <= v < 2 ^ (8 * Z.of_nat w))%Z.

Section Files.

(** [sizeof(HOST_DATA_TYPE)] is [S w']: at least one byte. *)
Variable w' : nat.
Let w : nat := S w'.

(** [while (fs.read(reinterpret_cast<char*>(&value), sizeof(HOST_DATA_TYPE)))
      values.push_back(value);]
    A read of a full value succeeds; a read that meets the end of the file
    fails, ends the loop, and its partial value is not pushed. *)
Equations? read_values (bytes : list Z) : list Z by wf (length bytes) lt :=
  read_values bytes with decide (w <= length bytes) => {
    | left _ => bytes_value (take w bytes) :: read_values (drop w bytes)
    | right _ => []
  }.
Proof. rewrite length_drop. subst w. lia. Qed.

(** Successive [fs.write(reinterpret_cast<const char*>(&v), sizeof(HOST_DATA_TYPE))]
    on a stream append the representation of each value. *)
Definition fs_write (stream : list Z) (v : Z) : list Z :=
  stream ++ value_bytes w v.

Definition write_values (stream : list Z) (vs : list Z) : list Z :=
  fold_left fs_write vs stream.

Definition channelOutName : string := "kernel_output_ch".
Definition channelInName : string := "kernel_input_ch".
Definition numberOfChannels : nat := 4.

(** [name + std::to_string(channel_id)] *)
Definition channel_file (name : string) (channel_id : N) : string :=
  name +:+ pretty channel_id.

(** [std::remove(fname); fs.open(fname, out | trunc); ...; fs.close()]:
    afterwards the file exists and holds what was written. *)
Definition write_file (fs : gmap string (list Z)) (fname : string)
    (vs : list Z) : gmap string (list Z) :=
  <[fname := write_values [] vs]> (delete fname fs).

Definition setupExternalChannelFiles (fs : gmap string (list Z))
    : gmap string (list Z) :=
  fold_left
    (fun fs i => write_file fs (channel_file channelOutName (N.of_nat i)) [])
    (seq 0 numberOfChannels) fs.

Definition getDataFromExternalChannel (fs : gmap string (list Z))
    (channel_id : N) (output_channel : bool) : list Z :=
  let fname :=
    channel_file (if output_channel then channelOutName else channelInName)
                 channel_id in
  match fs !! fname with
  | Some bytes => read_values bytes
  | None => []
  end.

(** ** Round trip of a channel file *)

Lemma length_value_bytes (n : nat) (v : Z) : length (value_bytes n v) = n.
Proof. revert v. induction n as [|n IH]; intros v; simpl; [done | by rewrite IH]. Qed.

Lemma low_byte_high_bits (v : Z) :
  Z.lor (Z.land v 255) (Z.shiftl (Z.shiftr v 8) 8) = v.
Proof.
  change 255%Z with (Z.ones 8).
  apply Z.bits_inj'; intros n Hn.
  rewrite Z.lor_spec, Z.land_spec.
  destruct (Z.lt_ge_cases n 8) as [Hlt | Hge].
  - rewrite Z.ones_spec_low by lia.
    rewrite Z.shiftl_spec_low by lia.
    by rewrite andb_true_r, orb_false_r.
  - rewrite Z.ones_spec_high by lia.
    rewrite Z.shiftl_spec by lia.
    rewrite Z.shiftr_spec by lia.
    rewrite andb_false_r. simpl. f_equal. lia.
Qed.

Lemma bytes_value_bytes (n : nat) (v : Z) :
  value_ok n v -> bytes_value (value_bytes n v) = v.
Proof.
  revert v. induction n as [|n IH]; intros v [Hlo Hhi].
  - simpl in *. lia.
  - simpl. rewrite IH; [apply low_byte_high_bits |].
    rewrite Z.shiftr_div_pow2 by lia. split.
    + apply Z.div_pos; lia.
    + apply Z.div_lt_upper_bound; [lia |].
      rewrite <- Z.pow_add_r by lia.
      replace (8 + 8 * Z.of_nat n)%Z with (8 * Z.of_nat (S n))%Z by lia.
      exact Hhi.
Qed.

Lemma write_values_app (stream : list Z) (vs : list Z) :
  write_values stream vs = stream ++ mjoin (value_bytes w <$> vs).
Proof.
  unfold write_values. revert stream.
  induction vs as [|v vs IH]; intros stream; simpl.
  - by rewrite app_nil_r.
  - rewrite IH. unfold fs_write. by rewrite <- app_assoc.
Qed.

Lemma read_values_short (bytes : list Z) :
  length bytes < w -> read_values bytes = [].
Proof.
  intros Hlen. rewrite read_values_equation_1.
  destruct (decide (w <= length bytes)); [lia | done].
Qed.

Lemma read_values_cons (v : Z) (rest : list Z) :
  read_values (value_bytes w v ++ rest)
  = bytes_value (value_bytes w v) :: read_values rest.
Proof.
  rewrite read_values_equation_1.
  destruct (decide (w <= length (value_bytes w v ++ rest))) as [Hy | Hn];
    cbn [read_values_unfold_clause_1].
  - rewrite take_app_length' by (by rewrite length_value_bytes).
    by rewrite drop_app_length' by (by rewrite length_value_bytes).
  - rewrite length_app, length_value_bytes in Hn. lia.
Qed.

Lemma read_values_join (vs : list Z) :
  read_values (mjoin (value_bytes w <$> vs)) = (fun v => bytes_value (value_bytes w v)) <$> vs.
Proof.
  induction vs as [|v vs IH].
  - apply read_values_short. cbn. unfold w. lia.
  - rewrite !fmap_cons. cbn [mjoin list_join].
    rewrite read_values_cons. f_equal. exact IH.
Qed.

(** Reading back counts the values written, whatever they are. *)
Lemma read_write_length (vs : list Z) :
  length (read_values (write_values [] vs)) = length vs.
Proof. by rewrite write_values_app, app_nil_l, read_values_join, length_fmap. Qed.

Lemma read_write_values (vs : list Z) :
  Forall (value_ok w) vs -> read_values (write_values [] vs) = vs.
Proof.
  intros Hok. rewrite write_values_app, app_nil_l, read_values_join.
  induction Hok as [|v vs Hv _ IH]; [done |].
  by rewrite fmap_cons, bytes_value_bytes, IH.
Qed.

Lemma getData_write_file (fs : gmap string (list Z)) (c : N) (out : bool) (vs : list Z) :
  getDataFromExternalChannel
    (write_file fs (channel_file (if out then channelOutName else channelInName) c) vs)
    c out
  = read_values (write_values [] vs).
Proof.
  unfold getDataFromExternalChannel, write_file.
  by rewrite lookup_insert_eq.
Qed.

(** C6.  Writing a sequence of well-formed fixed-width values to a channel
    file and reading the file back with [getDataFromExternalChannel] gives
    exactly that sequence: same values, same order, same count. *)
Theorem channel_round_trip (fs : gmap string (list Z)) (c : N) (out : bool)
    (vs : list Z) :
  Forall (value_ok w) vs ->
  getDataFromExternalChannel
    (write_file fs (channel_file (if out then channelOutName else channelInName) c) vs)
    c out
  = vs.
Proof.
  intros Hok. rewrite getData_write_file. by apply read_write_values.
Qed.

(** ** What a channel file reads back as *)

Definition byte_ok (b : Z) : Prop := (0 <= b < 256)%Z.

(** The number of values read is the size of the file divided by the size
    of a value: bytes after the last full value are ignored. *)
Lemma read_values_length (bytes : list Z) :
  length (read_values bytes) = length bytes / w.
Proof.
  remember (length bytes) as n eqn:Hn. revert bytes Hn.
  induction n as [n IH] using lt_wf_ind. intros bytes ->.
  rewrite read_values_equation_1.
  destruct (decide (w <= length bytes)) as [Hle | Hlt];
    cbn [read_values_unfold_clause_1].
  - cbn [length].
    rewrite (IH (length bytes - w)); [| unfold w in *; lia | by rewrite length_drop].
    replace (length bytes) with ((length bytes - w) + 1 * w) at 2 by lia.
    rewrite Nat.div_add by (unfold w; lia). lia.
  - rewrite Nat.div_small by lia. done.
Qed.

Lemma lor_low_byte (b v : Z) :
  byte_ok b -> Z.lor b (Z.shiftl v 8) = (b + v * 2 ^ 8)%Z.
Proof.
  intros [Hb0 Hb1]. rewrite Z.shiftl_mul_pow2 by lia.
  symmetry. apply Z.add_nocarry_lor. apply Z.bits_inj'. intros n Hn.
  rewrite Z.land_spec, Z.bits_0.
  destruct (Z.lt_ge_cases n 8) as [Hlt | Hge].
  - rewrite Z.mul_pow2_bits_low by lia. apply andb_false_r.
  - rewrite (Z.bits_above_log2 b n); [done | lia |].
    destruct (decide (b = 0%Z)) as [-> | Hb]; [simpl; lia |].
    apply Z.log2_lt_pow2; [lia |].
    apply Z.lt_le_trans with (2 ^ 8)%Z; [lia |].
    apply Z.pow_le_mono_r; lia.
Qed.

Lemma bytes_value_range (bs : list Z) :
  Forall byte_ok bs -> value_ok (length bs) (bytes_value bs).
Proof.
  induction 1 as [|b bs Hb _ [IH0 IH1]]; [unfold value_ok; simpl; lia |].
  unfold value_ok. cbn [bytes_value length].
  rewrite lor_low_byte by done. destruct Hb as [Hb0 Hb1].
  replace (8 * Z.of_nat (S (length bs)))%Z with (8 + 8 * Z.of_nat (length bs))%Z by lia.
  rewrite Z.pow_add_r by lia. nia.
Qed.

Lemma value_bytes_value (bs : list Z) :
  Forall byte_ok bs -> value_bytes (length bs) (bytes_value bs) = bs.
Proof.
  induction 1 as [|b bs Hb Hbs IH]; [done |].
  cbn [bytes_value length value_bytes].
  rewrite lor_low_byte by done. destruct Hb as [Hb0 Hb1]. f_equal.
  - change 255%Z with (Z.ones 8). rewrite Z.land_ones by lia.
    rewrite Z.mod_add by lia. apply Z.mod_small. lia.
  - rewrite Z.shiftr_div_pow2 by lia.
    rewrite Z.div_add by lia. rewrite Z.div_small by lia.
    rewrite Z.add_0_l. exact IH.
Qed.

Lemma read_values_rewritten (bytes : list Z) :
  Forall byte_ok bytes ->
  Forall (value_ok w) (read_values bytes)
  /\ mjoin (value_bytes w <$> read_values bytes)
     = take (length bytes / w * w) bytes.
Proof.
  remember (length bytes) as n eqn:Hn. revert bytes Hn.
  induction n as [n IH] using lt_wf_ind. intros bytes -> Hok.
  rewrite read_values_equation_1.
  destruct (decide (w <= length bytes)) as [Hle | Hlt];
    cbn [read_values_unfold_clause_1].
  - destruct (IH (length bytes - w)) with (bytes := drop w bytes)
      as [Hvals Hjoin];
      [unfold w in *; lia | by rewrite length_drop | by apply Forall_drop |].
    assert (length (take w bytes) = w) as Hlen by (rewrite length_take; lia).
    split.
    + constructor; [| exact Hvals].
      rewrite <- Hlen at 1. apply bytes_value_range. by apply Forall_take.
    + rewrite fmap_cons. cbn [mjoin list_join].
      trans (take w bytes ++ take ((length bytes - w) / w * w) (drop w bytes)).
      { f_equal; [| exact Hjoin].
        rewrite <- Hlen at 1. apply value_bytes_value. by apply Forall_take. }
      rewrite take_take_drop. f_equal.
      replace (length bytes) with ((length bytes - w) + 1 * w) at 2 by lia.
      rewrite Nat.div_add by (unfold w; lia). lia.
  - rewrite Nat.div_small by lia. split; [constructor | done].
Qed.

(** X1.  [getDataFromExternalChannel] returns as many values as the size
    of the file divided by the size of a value, rounded down; a file that
    does not exist gives no value. *)
Theorem channel_value_count (fs : gmap string (list Z)) (c : N) (out : bool) :
  length (getDataFromExternalChannel fs c out)
  = match fs !! channel_file (if out then channelOutName else channelInName) c with
    | Some bytes => length bytes / w
    | None => 0
    end.
Proof.
  unfold getDataFromExternalChannel.
  destruct (fs !! _) as [bytes|]; [apply read_values_length | done].
Qed.

(** X2.  The values read from a file of bytes are well-formed, and writing
    them back gives the bytes of the file up to its last full value. *)
Theorem channel_file_rewritten (bytes : list Z) :
  Forall byte_ok bytes ->
  Forall (value_ok w) (read_values bytes)
  /\ write_values [] (read_values bytes) = take (length bytes / w * w) bytes.
Proof.
  intros Hok. destruct (read_values_rewritten bytes Hok) as [Hvals Hjoin].
  split; [exact Hvals |]. by rewrite write_values_app, app_nil_l.
Qed.

End Files.

(** A file of ten bytes read as four-byte values: two values, the last two
    bytes are left out. *)
Lemma channel_file_rewritten_witness :
  Forall byte_ok [1; 2; 3; 4; 5; 6; 7; 8; 9; 10]%Z
  /\ Forall (value_ok 4) (read_values 3 [1; 2; 3; 4; 5; 6; 7; 8; 9; 10]%Z)
  /\ write_values 3 [] (read_values 3 [1; 2; 3; 4; 5; 6; 7; 8; 9; 10]%Z)
     = [1; 2; 3; 4; 5; 6; 7; 8]%Z.
Proof.
  assert (Forall byte_ok [1; 2; 3; 4; 5; 6; 7; 8; 9; 10]%Z) as Hok
    by (repeat constructor; unfold byte_ok; lia).
  split; [exact Hok |].
  exact (channel_file_rewritten 3 [1; 2; 3; 4; 5; 6; 7; 8; 9; 10]%Z Hok).
Defined.

(** The round trip on four-byte values through the file of input channel 3. *)
Lemma channel_round_trip_witness :
  Forall (value_ok 4) [0; 1065353216; 3212836864; 4294967295]%Z
  /\ getDataFromExternalChannel 3
       (write_file 3 ∅ (channel_file channelInName 3)
          [0; 1065353216; 3212836864; 4294967295]%Z)
       3 false
     = [0; 1065353216; 3212836864; 4294967295]%Z.
Proof.
  assert (Forall (value_ok 4) [0; 1065353216; 3212836864; 4294967295]%Z) as Hok
    by (repeat constructor; unfold value_ok; simpl; lia).
  split; [exact Hok |].
  exact (channel_round_trip 3 ∅ 3%N false _ Hok).
Defined.

End ChannelFile.

(* ===================================================================== *)
(** * The Top role and its channel streams *)
(* ===================================================================== *)

Module TopRole.
Import ChannelFile.

(** The state of a Top node with its external channels, in the order of
    [getDataFromExternalChannel]: 0 top, 1 right, 2 bottom, 3 left. *)
Record TopNode := {
  block : list Z;
  in_left : list Z;
  out_top : list Z;
  out_right : list Z;
  out_bottom : list Z;
  out_left : list Z
}.

Section Top.

Variable w' : nat.
Variables LOCAL_MEM_BLOCK_LOG REGISTER_BLOCK_LOG : nat.

(** The arithmetic of HOST_DATA_TYPE, on object representations. *)
Variables vmul vadd : Z -> Z -> Z.

(** [#define BLOCK_SIZE (1 << LOCAL_MEM_BLOCK_LOG)] and
    [#define CHUNK (1 << REGISTER_BLOCK_LOG)]; the fixture sets the matrix
    size to the block size. *)
Definition BLOCK_SIZE : nat := 2 ^ LOCAL_MEM_BLOCK_LOG.
Definition CHUNK : nat := 2 ^ REGISTER_BLOCK_LOG.
Definition matrixSize : nat := BLOCK_SIZE.

(** [(i / CHUNK) * CHUNK] *)
Definition chunk_start (i : nat) : nat := (i / CHUNK) * CHUNK.

(** The inner loop of [setupInputChannels]:
    [for (jj = (ii / CHUNK) * CHUNK; jj < BLOCK_SIZE; jj++)
       fs.write(&gefa_data->A[jj * matrixSize + ii], ...)]. *)
Definition panel (A : list Z) (ii : nat) : list Z :=
  (fun jj => A !!! (jj * matrixSize + ii))
    <$> seq (chunk_start ii) (BLOCK_SIZE - chunk_start ii).

Definition panel_stream (A : list Z) : list Z :=
  mjoin (panel A <$> seq 0 BLOCK_SIZE).

(** [setupInputChannels]: every input channel file receives the panels of
    the factorised block [gefa_A]. *)
Definition setupInputChannels (fs : gmap string (list Z)) (gefa_A : list Z)
    : gmap string (list Z) :=
  fold_left
    (fun fs i =>
       write_file w' fs (channel_file channelInName (N.of_nat i))
                  (panel_stream gefa_A))
    (seq 0 numberOfChannels) fs.

(** The count the tests expect on the right channel:
    [for (i = 0; i < BLOCK_SIZE; i++)
       number_values += (BLOCK_SIZE - (i / CHUNK) * CHUNK);] *)
Definition number_values : nat :=
  fold_left (fun acc i => acc + (BLOCK_SIZE - (i / CHUNK) * CHUNK))
            (seq 0 BLOCK_SIZE) 0.

(** A blocking receive of [n] values from a channel. *)
Definition receive (n : nat) (q : list Z) : option (list Z * list Z) :=
  if decide (n <= length q) then Some (take n q, drop n q) else None.

Definition row (blk : list Z) (k : nat) : list Z :=
  (fun i => blk !!! (k * BLOCK_SIZE + i)) <$> seq 0 BLOCK_SIZE.

(** [A[k * n + i] *= d] for every column [i]. *)
Definition scale_row (blk : list Z) (k : nat) (d : Z) : list Z :=
  fold_left
    (fun blk i =>
       <[k * BLOCK_SIZE + i := vmul (blk !!! (k * BLOCK_SIZE + i)) d]> blk)
    (seq 0 BLOCK_SIZE) blk.

(** [A[j * n + i] += A[k * n + i] * m] for every column [i]. *)
Definition eliminate_row (blk : list Z) (k j : nat) (m : Z) : list Z :=
  fold_left
    (fun blk i =>
       <[j * BLOCK_SIZE + i :=
           vadd (blk !!! (j * BLOCK_SIZE + i))
                (vmul (blk !!! (k * BLOCK_SIZE + i)) m)]> blk)
    (seq 0 BLOCK_SIZE) blk.

(** Modelled from the spec: the device kernel [top_update] is not in src.
    Following the description of the Top role (it receives the pivot panel
    from the west, updates its block with it, forwards the updated rows
    south and relays the panel east) and the layout the host tests fix
    (the panel of row [k] has [BLOCK_SIZE - (k / CHUNK) * CHUNK] values and
    starts at row [(k / CHUNK) * CHUNK]; the update is the one the test
    [TopBlockExternalResultisCorrect] recomputes on the host), one step of
    the kernel handles one row [k] of the block.  Nothing is ever sent to
    the top or to the left. *)
Definition top_step (k : nat) (st : TopNode) : option TopNode :=
  '(pivots, rest) ← receive (BLOCK_SIZE - chunk_start k) (in_left st);
  let scaled := scale_row (block st) k (pivots !!! (k - chunk_start k)) in
  let updated :=
    fold_left
      (fun blk j => eliminate_row blk k j (pivots !!! (j - chunk_start k)))
      (seq (S k) (BLOCK_SIZE - S k)) scaled in
  Some {| block := updated;
          in_left := rest;
          out_top := out_top st;
          out_right := out_right st ++ pivots;
          out_bottom := out_bottom st ++ row updated k;
          out_left := out_left st |}.

Fixpoint top_steps (ks : list nat) (st : TopNode) : option TopNode :=
  match ks with
  | [] => Some st
  | k :: ks' => st' ← top_step k st; top_steps ks' st'
  end.

(** Modelled from the spec: the kernel runs its [BLOCK_SIZE] steps in
    order; a receive on an exhausted channel blocks for ever ([None]). *)
Definition top_update (st : TopNode) : option TopNode :=
  top_steps (seq 0 BLOCK_SIZE) st.

(** The block that the test [TopBlockExternalResultisCorrect] expects: for
    every diagonal element [k] the row [k] is scaled by
    [gefa_data->A[k * n + k]], then [A[k * n + i] * gefa_data->A[j * n + k]]
    is added to every row [j] below. *)
Definition top_reference (gefa_A ref_A : list Z) : list Z :=
  fold_left
    (fun ref k =>
       fold_left
         (fun ref j => eliminate_row ref k j (gefa_A !!! (j * matrixSize + k)))
         (seq (S k) (matrixSize - S k))
         (scale_row ref k (gefa_A !!! (k * matrixSize + k))))
    (seq 0 matrixSize) ref_A.

(** Modelled from the spec: the network layer of the emulation is not in
    src.  It feeds the kernel from the file of input channel 3 (left) and
    appends what the kernel sends on channel [c] to the file of output
    channel [c]. *)
Definition send_file (fs : gmap string (list Z)) (c : N) (vs : list Z)
    : gmap string (list Z) :=
  let fname := channel_file channelOutName c in
  <[fname := write_values w' (default [] (fs !! fname)) vs]> fs.

(** [executeKernel] of the Top fixture: the block is written to the device,
    the kernel and the network layer run, the block is read back. *)
Definition executeKernel (fs : gmap string (list Z)) (A : list Z)
    : option (list Z * gmap string (list Z)) :=
  st ← top_update {| block := A;
                     in_left := getDataFromExternalChannel w' fs 3 false;
                     out_top := []; out_right := [];
                     out_bottom := []; out_left := [] |};
  Some (block st,
        send_file (send_file (send_file (send_file fs
          0 (out_top st)) 1 (out_right st)) 2 (out_bottom st)) 3 (out_left st)).

(** The fixture [LinpackKernelCommunicationTestTop::SetUp]. *)
Definition SetUp (fs : gmap string (list Z)) (gefa_A A : list Z)
    : option (list Z * gmap string (list Z)) :=
  executeKernel (setupInputChannels (setupExternalChannelFiles w' fs) gefa_A) A.

(** ** Counting the values on the channels *)

(** The closed form of the count: the sum over the rows [i] of the block of
    [BLOCK_SIZE - floor(i / CHUNK) * CHUNK]. *)
Definition panel_total (ks : list nat) : nat :=
  sum_list_with (fun i => BLOCK_SIZE - (i / CHUNK) * CHUNK) ks.

Lemma fold_left_add_sum (f : nat -> nat) (ks : list nat) (acc : nat) :
  fold_left (fun acc i => acc + f i) ks acc = acc + sum_list_with f ks.
Proof.
  revert acc. induction ks as [|k ks IH]; intros acc; simpl; [lia |].
  rewrite IH. lia.
Qed.

Lemma number_values_sum : number_values = panel_total (seq 0 BLOCK_SIZE).
Proof. unfold number_values, panel_total. by rewrite fold_left_add_sum. Qed.

Lemma length_panel (A : list Z) (ii : nat) :
  length (panel A ii) = BLOCK_SIZE - (ii / CHUNK) * CHUNK.
Proof. unfold panel, chunk_start. by rewrite length_fmap, length_seq. Qed.

Lemma length_panel_stream (A : list Z) :
  length (panel_stream A) = panel_total (seq 0 BLOCK_SIZE).
Proof.
  unfold panel_stream, panel_total. rewrite length_join.
  induction (seq 0 BLOCK_SIZE) as [|k ks IH]; [done |].
  rewrite !fmap_cons. cbn [sum_list sum_list_with].
  rewrite length_panel. f_equal. exact IH.
Qed.

Lemma length_row (blk : list Z) (k : nat) : length (row blk k) = BLOCK_SIZE.
Proof. unfold row. by rewrite length_fmap, length_seq. Qed.

Lemma top_step_counts (k : nat) (st : TopNode) :
  BLOCK_SIZE - (k / CHUNK) * CHUNK <= length (in_left st) ->
  exists st',
    top_step k st = Some st'
    /\ length (in_left st') = length (in_left st) - (BLOCK_SIZE - (k / CHUNK) * CHUNK)
    /\ length (out_right st') = length (out_right st) + (BLOCK_SIZE - (k / CHUNK) * CHUNK)
    /\ length (out_bottom st') = length (out_bottom st) + BLOCK_SIZE
    /\ out_top st' = out_top st
    /\ out_left st' = out_left st.
Proof.
  intros Hin. unfold top_step, receive, chunk_start.
  destruct (decide (BLOCK_SIZE - k / CHUNK * CHUNK <= length (in_left st)))
    as [_ | Hn]; [| lia].
  eexists. split; [reflexivity |]. simpl.
  rewrite length_drop, !length_app, length_row, length_take_le by exact Hin.
  done.
Qed.

Lemma top_steps_counts (ks : list nat) (st : TopNode) :
  panel_total ks <= length (in_left st) ->
  exists st',
    top_steps ks st = Some st'
    /\ length (out_right st') = length (out_right st) + panel_total ks
    /\ length (out_bottom st') = length (out_bottom st) + length ks * BLOCK_SIZE
    /\ out_top st' = out_top st
    /\ out_left st' = out_left st.
Proof.
  revert st. induction ks as [|k ks IH]; intros st Hin.
  - exists st. simpl. repeat split; try done; unfold panel_total; simpl; lia.
  - unfold panel_total in Hin. simpl in Hin. fold (panel_total ks) in Hin.
    destruct (top_step_counts k st) as (st1 & Hstep & Hl & Hr & Hb & Ht & Hw);
      [lia |].
    destruct (IH st1) as (st2 & Hsteps & Hr2 & Hb2 & Ht2 & Hw2); [lia |].
    exists st2. simpl. rewrite Hstep. simpl. split; [exact Hsteps |].
    unfold panel_total in *. simpl. repeat split; try congruence; lia.
Qed.

Lemma lookup_write_file_eq (fs : gmap string (list Z)) (f : string) (vs : list Z) :
  write_file w' fs f vs !! f = Some (write_values w' [] vs).
Proof. unfold write_file. by rewrite lookup_insert_eq. Qed.

Lemma lookup_write_file_ne (fs : gmap string (list Z)) (f g : string) (vs : list Z) :
  f <> g -> write_file w' fs f vs !! g = fs !! g.
Proof.
  intros Hne. unfold write_file.
  by rewrite lookup_insert_ne, lookup_delete_ne.
Qed.

Lemma channel_file_ne (name : string) (c d : N) :
  c <> d -> channel_file name c <> channel_file name d.
Proof.
  intros Hne Heq. apply Hne. unfold channel_file in Heq.
  apply String.app_inj in Heq. by apply (inj pretty).
Qed.

Lemma channel_in_out_ne (c d : N) :
  channel_file channelInName c <> channel_file channelOutName d.
Proof.
  unfold channel_file, channelInName, channelOutName.
  intros Heq. cbv [String.append] in Heq. discriminate Heq.
Qed.

(** After the set-up of the files the left input channel holds the panel
    stream and every output channel file is empty. *)
Lemma input_channel_after_setup (fs : gmap string (list Z)) (gefa_A : list Z) :
  getDataFromExternalChannel w'
    (setupInputChannels (setupExternalChannelFiles w' fs) gefa_A) 3 false
  = read_values w' (write_values w' [] (panel_stream gefa_A)).
Proof.
  unfold getDataFromExternalChannel, setupInputChannels. simpl.
  by rewrite lookup_write_file_eq.
Qed.

Lemma output_channel_after_setup (fs : gmap string (list Z)) (gefa_A : list Z)
    (c : N) :
  (c < 4)%N ->
  setupInputChannels (setupExternalChannelFiles w' fs) gefa_A
    !! channel_file channelOutName c = Some [].
Proof.
  intros Hc. unfold setupInputChannels, setupExternalChannelFiles. simpl.
  rewrite !lookup_write_file_ne by apply channel_in_out_ne.
  assert (c = 0 \/ c = 1 \/ c = 2 \/ c = 3)%N as [-> | [-> | [-> | ->]]] by lia.
  - rewrite !lookup_write_file_ne by (by apply channel_file_ne).
    apply lookup_write_file_eq.
  - rewrite !lookup_write_file_ne by (by apply channel_file_ne).
    apply lookup_write_file_eq.
  - rewrite !lookup_write_file_ne by (by apply channel_file_ne).
    apply lookup_write_file_eq.
  - apply lookup_write_file_eq.
Qed.

Lemma lookup_send_file_ne (fs : gmap string (list Z)) (c d : N) (vs : list Z) :
  c <> d ->
  send_file fs c vs !! channel_file channelOutName d
  = fs !! channel_file channelOutName d.
Proof.
  intros Hne. unfold send_file.
  rewrite lookup_insert_ne; [done | by apply channel_file_ne].
Qed.

Lemma lookup_send_file_eq (fs : gmap string (list Z)) (c : N) (vs : list Z) :
  fs !! channel_file channelOutName c = Some [] ->
  send_file fs c vs !! channel_file channelOutName c
  = Some (write_values w' [] vs).
Proof. intros Hfs. unfold send_file. by rewrite lookup_insert_eq, Hfs. Qed.

(** What the tests read on output channel [c] after the kernel has run on
    files whose output channels were empty. *)
Lemma output_after_kernel (fs : gmap string (list Z)) (t r b l : list Z) (c : N) :
  (forall d, (d < 4)%N -> fs !! channel_file channelOutName d = Some []) ->
  (c < 4)%N ->
  length (getDataFromExternalChannel w'
            (send_file (send_file (send_file (send_file fs 0 t) 1 r) 2 b) 3 l)
            c true)
  = length (if decide (c = 0%N) then t
            else if decide (c = 1%N) then r
            else if decide (c = 2%N) then b else l).
Proof.
  intros Hfs Hc. unfold getDataFromExternalChannel.
  assert (c = 0 \/ c = 1 \/ c = 2 \/ c = 3)%N as [-> | [-> | [-> | ->]]] by lia;
    simpl.
  - rewrite !lookup_send_file_ne by done.
    rewrite lookup_send_file_eq by (apply Hfs; lia).
    apply read_write_length.
  - rewrite !lookup_send_file_ne by done.
    rewrite lookup_send_file_eq
      by (rewrite lookup_send_file_ne by done; apply Hfs; lia).
    apply read_write_length.
  - rewrite !lookup_send_file_ne by done.
    rewrite lookup_send_file_eq
      by (rewrite !lookup_send_file_ne by done; apply Hfs; lia).
    apply read_write_length.
  - rewrite lookup_send_file_eq
      by (rewrite !lookup_send_file_ne by done; apply Hfs; lia).
    apply read_write_length.
Qed.

(** ** The kernel against the reference of the tests *)

Lemma fold_left_ext_in {St X : Type} (f g : St -> X -> St) (l : list X) (s : St) :
  (forall s x, x ∈ l -> f s x = g s x) -> fold_left f l s = fold_left g l s.
Proof.
  revert s. induction l as [|x l IH]; intros s Hext; simpl; [done |].
  rewrite Hext by (by left). apply IH. intros s' x' Hin. apply Hext. by right.
Qed.

Lemma chunk_start_le (k : nat) : (k / CHUNK) * CHUNK <= k.
Proof.
  assert (CHUNK <> 0) as Hc by (unfold CHUNK; apply Nat.pow_nonzero; lia).
  rewrite Nat.mul_comm. by apply Nat.Div0.mul_div_le.
Qed.

Lemma panel_lookup (A : list Z) (k j : nat) :
  k <= j < BLOCK_SIZE ->
  panel A k !!! (j - chunk_start k) = A !!! (j * matrixSize + k).
Proof.
  intros Hj. unfold panel, chunk_start.
  pose proof (chunk_start_le k).
  rewrite (list_lookup_total_fmap (fun jj => A !!! (jj * matrixSize + k)))
    by (rewrite length_seq; lia).
  rewrite lookup_total_seq_lt by lia.
  by replace (k / CHUNK * CHUNK + (j - k / CHUNK * CHUNK)) with j by lia.
Qed.

(** With the panels of [gefa_A] on its left channel, a step of the kernel
    is a step of the reference and relays its panel. *)
Lemma top_step_reference (gefa_A : list Z) (k : nat) (st : TopNode)
    (rest : list Z) :
  k < BLOCK_SIZE ->
  in_left st = panel gefa_A k ++ rest ->
  top_step k st
  = Some {| block :=
              fold_left
                (fun ref j =>
                   eliminate_row ref k j (gefa_A !!! (j * matrixSize + k)))
                (seq (S k) (matrixSize - S k))
                (scale_row (block st) k (gefa_A !!! (k * matrixSize + k)));
            in_left := rest;
            out_top := out_top st;
            out_right := out_right st ++ panel gefa_A k;
            out_bottom :=
              out_bottom st
              ++ row (fold_left
                        (fun ref j =>
                           eliminate_row ref k j (gefa_A !!! (j * matrixSize + k)))
                        (seq (S k) (matrixSize - S k))
                        (scale_row (block st) k (gefa_A !!! (k * matrixSize + k))))
                     k;
            out_left := out_left st |}.
Proof.
  intros Hk Hin. unfold top_step, receive. rewrite Hin.
  destruct (decide _) as [_ | Hn];
    [| rewrite length_app, length_panel in Hn; unfold chunk_start in Hn; lia].
  rewrite take_app_length' by (by rewrite length_panel).
  rewrite drop_app_length' by (by rewrite length_panel).
  cbn [mbind option_bind]. unfold matrixSize.
  rewrite (panel_lookup gefa_A k k) by lia.
  rewrite (fold_left_ext_in
             (fun blk j => eliminate_row blk k j (panel gefa_A k !!! (j - chunk_start k)))
             (fun ref j => eliminate_row ref k j (gefa_A !!! (j * matrixSize + k)))).
  - done.
  - intros blk j Hj%elem_of_seq. rewrite panel_lookup by lia. done.
Qed.

Lemma top_steps_reference (gefa_A : list Z) (ks : list nat) (st : TopNode)
    (rest : list Z) :
  Forall (fun k => k < BLOCK_SIZE) ks ->
  in_left st = mjoin (panel gefa_A <$> ks) ++ rest ->
  exists st',
    top_steps ks st = Some st'
    /\ block st'
       = fold_left
           (fun ref k =>
              fold_left
                (fun ref j =>
                   eliminate_row ref k j (gefa_A !!! (j * matrixSize + k)))
                (seq (S k) (matrixSize - S k))
                (scale_row ref k (gefa_A !!! (k * matrixSize + k))))
           ks (block st)
    /\ in_left st' = rest
    /\ out_right st' = out_right st ++ mjoin (panel gefa_A <$> ks).
Proof.
  intros Hks. revert st. induction Hks as [|k ks Hk _ IH]; intros st Hin.
  - exists st. simpl in *. by rewrite app_nil_r.
  - rewrite fmap_cons in Hin. cbn [mjoin list_join] in Hin.
    rewrite <- app_assoc in Hin.
    cbn [top_steps]. rewrite (top_step_reference gefa_A k st _ Hk Hin).
    cbn [mbind option_bind].
    match goal with
    | |- context [top_steps ks ?st1] =>
        destruct (IH st1) as (st' & Hrun & Hblock & Hleft & Hright); [done |]
    end.
    exists st'. split; [exact Hrun |]. split; [exact Hblock |].
    split; [exact Hleft |]. rewrite Hright. cbn [out_right].
    rewrite fmap_cons. cbn [mjoin list_join]. by rewrite <- app_assoc.
Qed.

(** Fed with the panels of the factorised block, the kernel consumes them
    all, leaves the block that the test recomputes on the host and relays
    the panels to the right unchanged. *)
Lemma top_update_reference (gefa_A A : list Z) :
  exists st,
    top_update {| block := A; in_left := panel_stream gefa_A;
                  out_top := []; out_right := [];
                  out_bottom := []; out_left := [] |} = Some st
    /\ block st = top_reference gefa_A A
    /\ in_left st = []
    /\ out_right st = panel_stream gefa_A.
Proof.
  unfold top_update, top_reference, panel_stream.
  destruct (top_steps_reference gefa_A (seq 0 BLOCK_SIZE)
              {| block := A; in_left := mjoin (panel gefa_A <$> seq 0 BLOCK_SIZE);
                 out_top := []; out_right := [];
                 out_bottom := []; out_left := [] |} [])
    as (st & Hrun & Hblock & Hleft & Hright).
  - apply Forall_forall. intros k Hk%elem_of_seq. lia.
  - simpl. by rewrite app_nil_r.
  - exists st. by repeat split.
Qed.

(** C3.  A Top node with one block: the kernel runs to completion on the
    files of the fixture, and afterwards the right (east) channel holds
    the sum over [i < BLOCK_SIZE] of [BLOCK_SIZE - floor(i / CHUNK) * CHUNK]
    values, the bottom (south) channel [BLOCK_SIZE * BLOCK_SIZE] values,
    and the top (north) and left (west) channels none. *)
Theorem top_channel_counts (fs : gmap string (list Z)) (gefa_A A : list Z) :
  exists A' fs',
    SetUp fs gefa_A A = Some (A', fs')
    /\ length (getDataFromExternalChannel w' fs' 1 true)
       = sum_list_with (fun i => BLOCK_SIZE - (i / CHUNK) * CHUNK)
                       (seq 0 BLOCK_SIZE)
    /\ length (getDataFromExternalChannel w' fs' 2 true)
       = BLOCK_SIZE * BLOCK_SIZE
    /\ length (getDataFromExternalChannel w' fs' 0 true) = 0
    /\ length (getDataFromExternalChannel w' fs' 3 true) = 0.
Proof.
  unfold SetUp, executeKernel, top_update.
  set (fs1 := setupInputChannels (setupExternalChannelFiles w' fs) gefa_A).
  set (st0 := {| block := A;
                 in_left := getDataFromExternalChannel w' fs1 3 false;
                 out_top := []; out_right := [];
                 out_bottom := []; out_left := [] |}).
  destruct (top_steps_counts (seq 0 BLOCK_SIZE) st0)
    as (st & Hrun & Hr & Hb & Ht & Hl).
  { unfold st0, fs1. simpl. rewrite input_channel_after_setup.
    by rewrite read_write_length, length_panel_stream. }
  rewrite Hrun. simpl. eexists _, _. split; [reflexivity |].
  assert (forall d, (d < 4)%N -> fs1 !! channel_file channelOutName d = Some [])
    as Hempty by (intros d Hd; by apply output_channel_after_setup).
  rewrite !output_after_kernel by (done || lia). simpl.
  rewrite Hr, Hb, Ht, Hl, length_seq. simpl. unfold panel_total. done.
Qed.

(** ** The files after the set-up, and the layout of the stream *)

(** X3.  After [setupExternalChannelFiles] each of the four output
    channels reads back as empty, whatever its file held before, and every
    other file is as it was. *)
Theorem output_channels_reset (fs : gmap string (list Z)) :
  (forall c, (c < 4)%N ->
     getDataFromExternalChannel w' (setupExternalChannelFiles w' fs) c true = [])
  /\ (forall fname,
        (forall c, (c < 4)%N -> fname <> channel_file channelOutName c) ->
        setupExternalChannelFiles w' fs !! fname = fs !! fname).
Proof.
  split.
  - intros c Hc. unfold getDataFromExternalChannel, setupExternalChannelFiles.
    simpl.
    assert (c = 0 \/ c = 1 \/ c = 2 \/ c = 3)%N as [-> | [-> | [-> | ->]]] by lia;
      rewrite ?lookup_write_file_ne by (by apply channel_file_ne);
      rewrite lookup_write_file_eq; by apply read_values_short; simpl; lia.
  - intros fname Hne. unfold setupExternalChannelFiles. simpl.
    rewrite !lookup_write_file_ne; [done | ..];
      apply not_eq_sym, Hne; lia.
Qed.

Lemma lookup_total_ok (P : Z -> Prop) (l : list Z) (i : nat) :
  Forall P l -> P inhabitant -> P (l !!! i).
Proof.
  intros Hl H0. rewrite list_lookup_total_alt.
  destruct (l !! i) as [x|] eqn:Hi; simpl; [| exact H0].
  eapply Forall_lookup_1; eauto.
Qed.

Lemma panel_stream_ok (A : list Z) :
  Forall (value_ok (S w')) A -> Forall (value_ok (S w')) (panel_stream A).
Proof.
  intros HA. unfold panel_stream. apply Forall_forall. intros v Hv.
  apply list_elem_of_join in Hv as (l & Hv & Hl).
  apply list_elem_of_fmap in Hl as (ii & -> & _).
  apply list_elem_of_fmap in Hv as (jj & -> & _).
  apply lookup_total_ok; [exact HA |]. unfold value_ok. split; [done |].
  apply (Z.pow_gt_1 2 (8 * Z.of_nat (S w'))); lia.
Qed.

(** X4.  After [setupInputChannels] each of the four input channels reads
    back as the stream of panels of the factorised block, and every file
    that is not one of theirs is as it was. *)
Theorem input_channels_hold_panels (fs : gmap string (list Z)) (gefa_A : list Z) :
  Forall (value_ok (S w')) gefa_A ->
  (forall c, (c < 4)%N ->
     getDataFromExternalChannel w' (setupInputChannels fs gefa_A) c false
     = panel_stream gefa_A)
  /\ (forall fname,
        (forall c, (c < 4)%N -> fname <> channel_file channelInName c) ->
        setupInputChannels fs gefa_A !! fname = fs !! fname).
Proof.
  intros Hok. split.
  - intros c Hc. unfold getDataFromExternalChannel, setupInputChannels. simpl.
    assert (c = 0 \/ c = 1 \/ c = 2 \/ c = 3)%N as [-> | [-> | [-> | ->]]] by lia;
      rewrite ?lookup_write_file_ne by (by apply channel_file_ne);
      rewrite lookup_write_file_eq;
      by apply read_write_values, panel_stream_ok.
  - intros fname Hne. unfold setupInputChannels. simpl.
    rewrite !lookup_write_file_ne; [done | ..];
      apply not_eq_sym, Hne; lia.
Qed.

Lemma panel_lookup_chunk (A : list Z) (i j : nat) :
  (i / CHUNK) * CHUNK <= j < BLOCK_SIZE ->
  panel A i !!! (j - (i / CHUNK) * CHUNK) = A !!! (j * matrixSize + i).
Proof.
  intros Hj. unfold panel, chunk_start.
  rewrite (list_lookup_total_fmap (fun jj => A !!! (jj * matrixSize + i)))
    by (rewrite length_seq; lia).
  rewrite lookup_total_seq_lt by lia.
  by replace (i / CHUNK * CHUNK + (j - i / CHUNK * CHUNK)) with j by lia.
Qed.

(** X5.  The layout of the stream that the tests rely on: with [offset]
    the sum of [BLOCK_SIZE - (i' / CHUNK) * CHUNK] over the rows [i' < i],
    the value at [offset + (j - (i / CHUNK) * CHUNK)] is
    [A[j * matrixSize + i]]. *)
Theorem panel_stream_layout (A : list Z) (i j : nat) :
  i < BLOCK_SIZE ->
  (i / CHUNK) * CHUNK <= j < BLOCK_SIZE ->
  panel_stream A
    !!! (sum_list_with (fun i' => BLOCK_SIZE - (i' / CHUNK) * CHUNK) (seq 0 i)
         + (j - (i / CHUNK) * CHUNK))
  = A !!! (j * matrixSize + i).
Proof.
  intros Hi Hj. unfold panel_stream.
  replace BLOCK_SIZE with (i + S (BLOCK_SIZE - S i)) at 1 by lia.
  rewrite seq_app, fmap_app, join_app. cbn [seq]. rewrite fmap_cons.
  cbn [mjoin list_join].
  assert (length (mjoin (panel A <$> seq 0 i))
          = sum_list_with (fun i' => BLOCK_SIZE - (i' / CHUNK) * CHUNK) (seq 0 i))
    as Hlen.
  { rewrite length_join. clear. induction (seq 0 i) as [|k ks IH]; [done |].
    rewrite !fmap_cons. cbn [sum_list sum_list_with].
    rewrite length_panel. f_equal. exact IH. }
  rewrite lookup_total_app_r by lia. rewrite Hlen.
  replace (sum_list_with (fun i' => BLOCK_SIZE - i' / CHUNK * CHUNK) (seq 0 i)
           + (j - i / CHUNK * CHUNK)
           - sum_list_with (fun i' => BLOCK_SIZE - i' / CHUNK * CHUNK) (seq 0 i))
    with (j - i / CHUNK * CHUNK) by lia.
  rewrite Nat.add_0_l.
  rewrite lookup_total_app_l by (rewrite length_panel; lia).
  by apply panel_lookup_chunk.
Qed.

(** ** The count in closed form *)

Lemma sum_list_with_const (f : nat -> nat) (v : nat) (l : list nat) :
  (forall i, i ∈ l -> f i = v) -> sum_list_with f l = length l * v.
Proof.
  induction l as [|i l IH]; intros Hf; simpl; [done |].
  rewrite (Hf i) by (by left). rewrite IH; [lia |].
  intros i' Hin. apply Hf. by right.
Qed.

Lemma sum_by_chunks (g : nat -> nat) (c m : nat) :
  0 < c ->
  sum_list_with (fun i => g (i / c)) (seq 0 (m * c))
  = c * sum_list_with g (seq 0 m).
Proof.
  intros Hc. induction m as [|m IH]; [done |].
  replace (S m * c) with (m * c + c) by lia.
  rewrite seq_app, seq_S, !sum_list_with_app, IH. simpl.
  rewrite (sum_list_with_const (fun i => g (i / c)) (g m) (seq (m * c) c)).
  - rewrite length_seq. lia.
  - intros i Hin%elem_of_seq. f_equal. symmetry.
    apply Nat.div_unique with (i - m * c); lia.
Qed.

Lemma sum_descending (c m k : nat) :
  k <= m ->
  2 * sum_list_with (fun q => m * c - q * c) (seq 0 k) + k * k * c
  = 2 * k * m * c + k * c.
Proof.
  induction k as [|k IH]; intros Hk; [simpl; lia |].
  rewrite seq_S, sum_list_with_app. simpl.
  specialize (IH ltac:(lia)). nia.
Qed.

(** X6.  The number of values of the stream in closed form: with chunks no
    larger than the block, twice the count is
    [BLOCK_SIZE * (BLOCK_SIZE + CHUNK)]; with chunks no smaller than the
    block, the count is [BLOCK_SIZE * BLOCK_SIZE]. *)
Theorem number_values_closed_form :
  (REGISTER_BLOCK_LOG <= LOCAL_MEM_BLOCK_LOG ->
   2 * number_values = BLOCK_SIZE * (BLOCK_SIZE + CHUNK))
  /\ (LOCAL_MEM_BLOCK_LOG <= REGISTER_BLOCK_LOG ->
      number_values = BLOCK_SIZE * BLOCK_SIZE).
Proof.
  rewrite number_values_sum. unfold panel_total.
  assert (0 < CHUNK) as Hc.
  { unfold CHUNK. pose proof (Nat.pow_nonzero 2 REGISTER_BLOCK_LOG). lia. }
  split; intros Hlog.
  - assert (BLOCK_SIZE = 2 ^ (LOCAL_MEM_BLOCK_LOG - REGISTER_BLOCK_LOG) * CHUNK)
      as Hb.
    { unfold BLOCK_SIZE, CHUNK. rewrite <- Nat.pow_add_r. f_equal. lia. }
    set (m := 2 ^ (LOCAL_MEM_BLOCK_LOG - REGISTER_BLOCK_LOG)) in *.
    rewrite Hb.
    rewrite (sum_by_chunks (fun q => m * CHUNK - q * CHUNK)) by done.
    pose proof (sum_descending CHUNK m m ltac:(lia)). nia.
  - assert (BLOCK_SIZE <= CHUNK) as Hle
      by (unfold BLOCK_SIZE, CHUNK; apply Nat.pow_le_mono_r; lia).
    rewrite (sum_list_with_const _ BLOCK_SIZE).
    + by rewrite length_seq.
    + intros i Hin%elem_of_seq. rewrite Nat.div_small by lia. lia.
Qed.

End Top.

(** A factorised block of four by four values of four bytes, with chunks
    of two. *)
Definition sample_block : list Z :=
  [4; 1; 1; 3; 5; 6; 7; 8; 9; 10; 11; 12; 13; 14; 15; 16]%Z.

Lemma input_channels_hold_panels_witness :
  Forall (value_ok 4) sample_block
  /\ (forall c, (c < 4)%N ->
        getDataFromExternalChannel 3 (setupInputChannels 3 2 1 ∅ sample_block)
                                   c false
        = panel_stream 2 1 sample_block).
Proof.
  assert (Forall (value_ok 4) sample_block) as Hok
    by (repeat constructor; unfold value_ok; simpl; lia).
  split; [exact Hok |].
  exact (proj1 (input_channels_hold_panels 3 2 1 ∅ sample_block Hok)).
Defined.

Lemma panel_stream_layout_witness :
  (3 < BLOCK_SIZE 2 /\ (3 / CHUNK 1) * CHUNK 1 <= 2 < BLOCK_SIZE 2)
  /\ panel_stream 2 1 sample_block
       !!! (sum_list_with (fun i' => BLOCK_SIZE 2 - (i' / CHUNK 1) * CHUNK 1)
                          (seq 0 3)
            + (2 - (3 / CHUNK 1) * CHUNK 1))
     = sample_block !!! (2 * matrixSize 2 + 3).
Proof.
  assert (3 < BLOCK_SIZE 2) as Hi by (vm_compute; lia).
  assert ((3 / CHUNK 1) * CHUNK 1 <= 2 < BLOCK_SIZE 2) as Hj by (vm_compute; lia).
  split; [by split |].
  exact (panel_stream_layout 2 1 sample_block 3 2 Hi Hj).
Defined.

(** The scenario of a block of 16 by 16 values with chunks of 8: 192
    values go to the right. *)
Example top_east_count_16_8 :
  sum_list_with (fun i => BLOCK_SIZE 4 - (i / CHUNK 3) * CHUNK 3)
                (seq 0 (BLOCK_SIZE 4)) = 192.
Proof. reflexivity. Qed.

End TopRole.

(* ===================================================================== *)
(** * The LINPACK execution harness *)
(* ===================================================================== *)

Module Linpack.

(** Modelled from the spec: the declaration of the [ExecutionTimings] that
    [calculate] returns is not in src (the execution header that is in src
    belongs to another harness: its [calculate] takes a message size and a
    loop length, and its [ExecutionTimings] has [calculationTimings] as its
    only sequence).  The description of the data model gives it a
    transfer time and a calculation time per repetition; [calculate]
    builds it as [ExecutionTimings{executionTimes}], from the one vector of
    kernel execution times, so that a sequence of transfer times, where
    the structure has one, is left empty. *)
Record ExecutionTimings := {
  calculationTimings : list Q;
  transferTimings : list Q
}.

(** The fields of the configuration that [calculate] reads besides the
    OpenCL handles. *)
Record ExecutionConfiguration := {
  repetitions : nat;
  matrixSize : nat
}.

Section Harness.

(** HOST_DATA_TYPE *)
Variable V : Type.
Variable LOCAL_MEM_BLOCK_LOG : Z.

(** The device kernel [gefa] on the two buffers and its block count, and
    the host routine [gesl_ref] on [A], [b], [ipvt], [n] and [lda]: neither
    is in src. *)
Variable gefa : list V -> list Z -> Z -> list V * list Z.
Variable gesl_ref :
  list V -> list V -> list Z -> nat -> nat -> list V * list V * list Z.

(** The clock counts ticks; the [k]-th blocking operation of a run takes
    [cost k] ticks, and reading the clock takes none. *)
Variable ticks_per_second : positive.
Variable cost : nat -> Z.

(** What the memory of a newly created buffer holds, entry by entry: the
    source creates [Buffer_a] and [Buffer_pivot] and does not fill
    them. *)
Variable fresh_a : nat -> V.
Variable fresh_pivot : nat -> Z.

Record Host := {
  A : list V;
  b : list V;
  ipvt : list Z
}.

Record Device := {
  Buffer_a : list V;
  Buffer_pivot : list Z
}.

Inductive Event :=
| EvWriteBuffer_a (a : list V)
| EvFinish
| EvTask_gefa (a : list V)
| EvReadBuffer_a
| EvReadBuffer_pivot
| EvGesl_ref.

Record Machine := {
  host : Host;
  dev : Device;
  time : Z;
  trace : list Event
}.

Definition perform (ev : Event) (m : Machine) : Machine :=
  {| host := host m; dev := dev m;
     time := time m + cost (length (trace m));
     trace := trace m ++ [ev] |}.

Definition set_dev (d : Device) (m : Machine) : Machine :=
  {| host := host m; dev := d; time := time m; trace := trace m |}.

Definition set_host (h : Host) (m : Machine) : Machine :=
  {| host := h; dev := dev m; time := time m; trace := trace m |}.

(** [sizeof(HOST_DATA_TYPE) * matrixSize * matrixSize] bytes: the whole of
    [Buffer_a]. *)
Definition elements (config : ExecutionConfiguration) : nat :=
  matrixSize config * matrixSize config.

(** [compute_queue.enqueueWriteBuffer(Buffer_a, CL_TRUE, 0, ..., A)] *)
Definition enqueueWriteBuffer_a (config : ExecutionConfiguration)
    (m : Machine) : Machine :=
  let a := take (elements config) (A (host m)) in
  perform (EvWriteBuffer_a a)
    (set_dev {| Buffer_a := a; Buffer_pivot := Buffer_pivot (dev m) |} m).

(** [compute_queue.finish()] *)
Definition finish (m : Machine) : Machine := perform EvFinish m.

(** [compute_queue.enqueueTask(gefakernel)], with the arguments set before
    the loop: the two buffers and [matrixSize >> LOCAL_MEM_BLOCK_LOG]. *)
Definition enqueueTask_gefa (config : ExecutionConfiguration)
    (m : Machine) : Machine :=
  let '(a, pivot) :=
    gefa (Buffer_a (dev m)) (Buffer_pivot (dev m))
         (Z.shiftr (Z.of_nat (matrixSize config)) LOCAL_MEM_BLOCK_LOG) in
  perform (EvTask_gefa (Buffer_a (dev m)))
    (set_dev {| Buffer_a := a; Buffer_pivot := pivot |} m).

(** [compute_queue.enqueueReadBuffer(Buffer_a, CL_TRUE, 0, ..., A)] *)
Definition enqueueReadBuffer_a (config : ExecutionConfiguration)
    (m : Machine) : Machine :=
  let h := host m in
  perform EvReadBuffer_a
    (set_host {| A := take (elements config) (Buffer_a (dev m))
                        ++ drop (elements config) (A h);
                 b := b h; ipvt := ipvt h |} m).

(** [compute_queue.enqueueReadBuffer(Buffer_pivot, CL_TRUE, 0, ..., ipvt)] *)
Definition enqueueReadBuffer_pivot (config : ExecutionConfiguration)
    (m : Machine) : Machine :=
  let h := host m in
  perform EvReadBuffer_pivot
    (set_host {| A := A h; b := b h;
                 ipvt := take (matrixSize config) (Buffer_pivot (dev m))
                           ++ drop (matrixSize config) (ipvt h) |} m).

(** [gesl_ref(A, b, ipvt, config->matrixSize, config->matrixSize)] *)
Definition call_gesl_ref (config : ExecutionConfiguration)
    (m : Machine) : Machine :=
  let h := host m in
  let '(a', b', ipvt') :=
    gesl_ref (A h) (b h) (ipvt h) (matrixSize config) (matrixSize config) in
  perform EvGesl_ref (set_host {| A := a'; b := b'; ipvt := ipvt' |} m).

(** [std::chrono::duration<double>] of a span of ticks, in seconds. *)
Definition timespan (t1 t2 : Z) : Q := (t2 - t1) # ticks_per_second.

(** The body of the loop over the repetitions. *)
Definition repetition (config : ExecutionConfiguration)
    (st : Machine * list Q) : Machine * list Q :=
  let '(m, executionTimes) := st in
  let m1 := finish (enqueueWriteBuffer_a config m) in
  let t1 := time m1 in
  let m2 := finish (enqueueTask_gefa config m1) in
  let t2 := time m2 in
  (m2, executionTimes ++ [timespan t1 t2]).

Definition repetitions_loop (config : ExecutionConfiguration) (r : nat)
    (m : Machine) : Machine * list Q :=
  Nat.iter r (repetition config) (m, []).

(** [cl::Buffer Buffer_a(..., sizeof(HOST_DATA_TYPE)*matrixSize*matrixSize)]
    and [cl::Buffer Buffer_pivot(..., sizeof(cl_int)*matrixSize)]: the two
    buffers are created with these sizes, whatever the device held. *)
Definition createBuffers (config : ExecutionConfiguration) (m : Machine)
    : Machine :=
  set_dev {| Buffer_a := fresh_a <$> seq 0 (elements config);
             Buffer_pivot := fresh_pivot <$> seq 0 (matrixSize config) |} m.

(** [bm_execution::calculate] *)
Definition calculate (config : ExecutionConfiguration) (m : Machine)
    : ExecutionTimings * Machine :=
  let m0 := createBuffers config m in
  let '(m1, executionTimes) := repetitions_loop config (repetitions config) m0 in
  let m2 := enqueueReadBuffer_a config m1 in
  let m3 := enqueueReadBuffer_pivot config m2 in
  let m4 := call_gesl_ref config m3 in
  ({| calculationTimings := executionTimes; transferTimings := [] |}, m4).

(** ** The repetitions *)

(** What one repetition adds to the trace when the device matrix was
    written from [a]. *)
Definition repetition_events (a : list V) : list Event :=
  [EvWriteBuffer_a a; EvFinish; EvTask_gefa a; EvFinish].

Lemma timespan_nonneg (t1 t2 : Z) : (t1 <= t2)%Z -> (0 <= timespan t1 t2)%Q.
Proof. intros Hle. unfold timespan, Qle. simpl. lia. Qed.

Lemma repetition_spec (config : ExecutionConfiguration) (m : Machine)
    (ts : list Q) :
  let a := take (elements config) (A (host m)) in
  let m' := fst (repetition config (m, ts)) in
  host m' = host m
  /\ trace m' = trace m ++ repetition_events a
  /\ snd (repetition config (m, ts))
     = ts ++ [timespan (time m + cost (length (trace m))
                               + cost (S (length (trace m))))
                       (time m + cost (length (trace m))
                               + cost (S (length (trace m)))
                               + cost (S (S (length (trace m))))
                               + cost (S (S (S (length (trace m))))))].
Proof.
  unfold repetition, finish, enqueueTask_gefa, enqueueWriteBuffer_a.
  cbn [host dev time trace perform set_dev Buffer_a Buffer_pivot].
  destruct (gefa _ _ _) as [a' pivot'].
  cbn [fst snd host dev time trace perform set_dev Buffer_a Buffer_pivot].
  rewrite !length_app. cbn [length].
  rewrite !Nat.add_1_r.
  split; [done |]. split; [| done].
  unfold repetition_events. by rewrite <- !app_assoc.
Qed.

Lemma repetitions_loop_S (config : ExecutionConfiguration) (r : nat)
    (m : Machine) :
  repetitions_loop config (S r) m
  = repetition config (repetitions_loop config r m).
Proof. reflexivity. Qed.

(** The invariant of the loop: the host arrays are those of the start,
    every repetition has written and launched on the same matrix, and one
    time was pushed per repetition. *)
Lemma repetitions_loop_spec (config : ExecutionConfiguration) (r : nat)
    (m : Machine) :
  let a := take (elements config) (A (host m)) in
  let st := repetitions_loop config r m in
  host (fst st) = host m
  /\ trace (fst st) = trace m ++ mjoin (replicate r (repetition_events a))
  /\ length (snd st) = r
  /\ ((forall k, (0 <= cost k)%Z) -> Forall (Qle 0) (snd st)).
Proof.
  induction r as [|r IH]; cbn zeta in *.
  - unfold repetitions_loop. simpl. rewrite app_nil_r.
    repeat split; try done.
  - rewrite repetitions_loop_S.
    destruct (repetitions_loop config r m) as [m1 ts] eqn:Hloop.
    simpl in IH. destruct IH as (Hhost & Htrace & Hlen & Hpos).
    destruct (repetition_spec config m1 ts) as (Hh & Ht & Hts).
    rewrite Hts, Hh, Ht, Hhost, Htrace.
    split; [done |]. split; [| split].
    + rewrite <- app_assoc. f_equal.
      replace (S r) with (r + 1) by lia.
      rewrite replicate_add, join_app. done.
    + rewrite length_app. simpl. lia.
    + intros Hcost. apply Forall_app. split; [by apply Hpos |].
      constructor; [| constructor]. apply timespan_nonneg.
      pose proof (Hcost (S (S (length (trace m ++ mjoin (replicate r
                    (repetition_events (take (elements config) (A (host m)))))))))).
      pose proof (Hcost (S (S (S (length (trace m ++ mjoin (replicate r
                    (repetition_events (take (elements config) (A (host m))))))))))).
      lia.
Qed.

Lemma calculate_timings (config : ExecutionConfiguration) (m : Machine) :
  fst (calculate config m)
  = {| calculationTimings :=
         snd (repetitions_loop config (repetitions config)
                (createBuffers config m));
       transferTimings := [] |}.
Proof.
  unfold calculate. cbn zeta.
  destruct (repetitions_loop config (repetitions config) (createBuffers config m))
    as [m1 ts].
  unfold call_gesl_ref. by destruct (gesl_ref _ _ _ _ _) as [[a' b'] p'].
Qed.



Lemma repetition_dev (config : ExecutionConfiguration) (m : Machine)
    (ts : list Q) :
  dev (fst (repetition config (m, ts)))
  = let '(a, pivot) :=
      gefa (take (elements config) (A (host m))) (Buffer_pivot (dev m))
           (Z.shiftr (Z.of_nat (matrixSize config)) LOCAL_MEM_BLOCK_LOG) in
    {| Buffer_a := a; Buffer_pivot := pivot |}.
Proof.
  unfold repetition, finish, enqueueTask_gefa, enqueueWriteBuffer_a.
  cbn [host dev time trace perform set_dev Buffer_a Buffer_pivot].
  by destruct (gefa _ _ _) as [a' pivot'].
Qed.

Lemma repetitions_loop_dev (config : ExecutionConfiguration) (k : nat)
    (m : Machine) :
  dev (fst (repetitions_loop config (S k) m))
  = let '(a, pivot) :=
      gefa (take (elements config) (A (host m)))
           (Buffer_pivot (dev (fst (repetitions_loop config k m))))
           (Z.shiftr (Z.of_nat (matrixSize config)) LOCAL_MEM_BLOCK_LOG) in
    {| Buffer_a := a; Buffer_pivot := pivot |}.
Proof.
  rewrite repetitions_loop_S.
  destruct (repetitions_loop_spec config k m) as (Hhost & _).
  destruct (repetitions_loop config k m) as [m1 ts]. cbn [fst] in Hhost |- *.
  by rewrite repetition_dev, Hhost.
Qed.

Lemma createBuffers_host (config : ExecutionConfiguration) (m : Machine) :
  host (createBuffers config m) = host m.
Proof. reflexivity. Qed.

Lemma createBuffers_trace (config : ExecutionConfiguration) (m : Machine) :
  trace (createBuffers config m) = trace m.
Proof. reflexivity. Qed.

Lemma calculate_host (config : ExecutionConfiguration) (m : Machine) :
  host (snd (calculate config m))
  = let m1 := fst (repetitions_loop config (repetitions config)
                     (createBuffers config m)) in
    let '(a', b', ipvt') :=
      gesl_ref (take (elements config) (Buffer_a (dev m1))
                  ++ drop (elements config) (A (host m)))
               (b (host m))
               (take (matrixSize config) (Buffer_pivot (dev m1))
                  ++ drop (matrixSize config) (ipvt (host m)))
               (matrixSize config) (matrixSize config) in
    {| A := a'; b := b'; ipvt := ipvt' |}.
Proof.
  unfold calculate. cbn zeta.
  destruct (repetitions_loop_spec config (repetitions config)
              (createBuffers config m)) as (Hhost & _).
  rewrite createBuffers_host in Hhost.
  destruct (repetitions_loop config (repetitions config) (createBuffers config m))
    as [m1 ts].
  cbn [fst] in Hhost |- *.
  unfold call_gesl_ref, enqueueReadBuffer_pivot, enqueueReadBuffer_a.
  cbn [host dev perform set_host A b ipvt fst]. rewrite Hhost.
  by destruct (gesl_ref _ _ _ _ _) as [[a' b'] ipvt'].
Qed.


(** ** What is timed, and what the run leaves on the host *)

Lemma repetitions_loop_trace_length (config : ExecutionConfiguration)
    (r : nat) (m : Machine) :
  length (trace (fst (repetitions_loop config r m))) = length (trace m) + 4 * r.
Proof.
  destruct (repetitions_loop_spec config r m) as (_ & -> & _).
  rewrite length_app, length_join.
  assert (sum_list (length <$> replicate r
            (repetition_events (take (elements config) (A (host m))))) = 4 * r)
    as ->; [| done].
  induction r as [|r IH]; [done |]. cbn [replicate]. rewrite fmap_cons.
  cbn [sum_list sum_list_with]. rewrite IH. simpl. lia.
Qed.

Lemma repetitions_loop_times (config : ExecutionConfiguration) (r : nat)
    (m : Machine) :
  snd (repetitions_loop config r m)
  = (fun k => (cost (length (trace m) + 4 * k + 2)
               + cost (length (trace m) + 4 * k + 3)) # ticks_per_second)
      <$> seq 0 r.
Proof.
  induction r as [|r IH]; [done |].
  rewrite repetitions_loop_S, seq_S, fmap_app.
  pose proof (repetitions_loop_trace_length config r m) as Hlen.
  destruct (repetitions_loop config r m) as [m1 ts].
  destruct (repetition_spec config m1 ts) as (_ & _ & ->).
  cbn [fst snd] in IH, Hlen. rewrite IH, Hlen. f_equal.
  cbn [fmap list_fmap Nat.add]. f_equal. unfold timespan.
  replace (length (trace m) + 4 * r + 2) with (S (S (length (trace m) + 4 * r)))
    by lia.
  replace (length (trace m) + 4 * r + 3)
    with (S (S (S (length (trace m) + 4 * r)))) by lia.
  apply (f_equal (fun z => z # ticks_per_second)). lia.
Qed.

(** X7.  The time recorded for repetition [k] is the time of the launch
    of the kernel and of the [finish] that follows it: the write of the
    matrix to the device and its [finish], the two operations before, are
    not in it. *)
Theorem kernel_time_only (config : ExecutionConfiguration) (m : Machine)
    (k : nat) :
  k < repetitions config ->
  calculationTimings (fst (calculate config m)) !! k
  = Some ((cost (length (trace m) + 4 * k + 2)
           + cost (length (trace m) + 4 * k + 3)) # ticks_per_second).
Proof.
  intros Hk. rewrite calculate_timings. cbn [calculationTimings].
  rewrite repetitions_loop_times, list_lookup_fmap, lookup_seq_lt by done.
  by rewrite createBuffers_trace.
Qed.

(** The host arrays that [calculate] leaves when the last kernel run
    started from pivots [pivot0]: the factorised matrix and the pivots of
    the device, read back over the host's and handed to [gesl_ref] with the
    right-hand side. *)
Definition solved (config : ExecutionConfiguration) (h : Host)
    (pivot0 : list Z) : Host :=
  let '(a, pivot) :=
    gefa (take (elements config) (A h)) pivot0
         (Z.shiftr (Z.of_nat (matrixSize config)) LOCAL_MEM_BLOCK_LOG) in
  let '(a', b', ipvt') :=
    gesl_ref (take (elements config) a ++ drop (elements config) (A h))
             (b h)
             (take (matrixSize config) pivot ++ drop (matrixSize config) (ipvt h))
             (matrixSize config) (matrixSize config) in
  {| A := a'; b := b'; ipvt := ipvt' |}.

(** X8.  A run of at least one repetition leaves on the host what one run
    of the kernel on the matrix the host had at the start, followed by the
    two read-backs and [gesl_ref], gives: of the repetitions before the
    last only the pivot buffer reaches the last one, so when the kernel
    does not read the pivots it is given, the result is that of a single
    kernel run on the newly created pivot buffer, whatever the number of
    repetitions. *)
Theorem calculate_result (config : ExecutionConfiguration) (m : Machine) :
  1 <= repetitions config ->
  host (snd (calculate config m))
  = solved config (host m)
      (Buffer_pivot (dev (fst (repetitions_loop config
                                 (repetitions config - 1)
                                 (createBuffers config m)))))
  /\ ((forall a pivot pivot' blocks, gefa a pivot blocks = gefa a pivot' blocks) ->
      host (snd (calculate config m))
      = solved config (host m) (fresh_pivot <$> seq 0 (matrixSize config))).
Proof.
  intros Hr. rewrite calculate_host. cbn zeta.
  destruct (repetitions config) as [|r]; [lia |].
  replace (S r - 1) with r by lia.
  rewrite repetitions_loop_dev, createBuffers_host. unfold solved.
  split.
  - by destruct (gefa _ _ _) as [a pivot].
  - intros Hgefa.
    rewrite (Hgefa _ (Buffer_pivot (dev (fst (repetitions_loop config r
                                                (createBuffers config m)))))
               (fresh_pivot <$> seq 0 (matrixSize config))).
    by destruct (gefa _ _ _) as [a pivot].
Qed.

End Harness.

(** A run of ten repetitions on a two-by-two system with operations of
    one tick each and buffers created full of zeros.  The kernel here
    doubles the matrix and marks every pivot with 1; the substitution adds
    the pivots to the right-hand side. *)
Definition sample_config : ExecutionConfiguration :=
  {| repetitions := 10; matrixSize := 2 |}.

Definition sample_machine : Machine Z :=
  {| host := {| A := [4; 1; 1; 3]%Z; b := [1; 2]%Z; ipvt := [0; 0]%Z |};
     dev := {| Buffer_a := []; Buffer_pivot := [] |};
     time := 0; trace := [] |}.

Definition sample_gefa (a : list Z) (pivot : list Z) (blocks : Z)
    : list Z * list Z :=
  (Z.mul 2 <$> a, (fun _ => 1%Z) <$> pivot).

Definition sample_gesl_ref (a b : list Z) (ipvt : list Z) (n lda : nat)
    : list Z * list Z * list Z :=
  (a, zip_with Z.add b ipvt, ipvt).

Definition sample_run : ExecutionTimings * Machine Z :=
  calculate Z 1 sample_gefa sample_gesl_ref 1000000000 (fun _ => 1%Z)
            (fun _ => 0%Z) (fun _ => 0%Z) sample_config sample_machine.


Lemma kernel_time_only_witness :
  3 < repetitions sample_config
  /\ calculationTimings (fst sample_run) !! 3 = Some (2 # 1000000000).
Proof.
  assert (3 < repetitions sample_config) as Hk by (simpl; lia).
  split; [exact Hk |].
  exact (kernel_time_only Z 1 sample_gefa sample_gesl_ref 1000000000
           (fun _ => 1%Z) (fun _ => 0%Z) (fun _ => 0%Z)
           sample_config sample_machine 3 Hk).
Defined.

Lemma calculate_result_witness :
  1 <= repetitions sample_config
  /\ host Z (snd sample_run)
     = {| A := [8; 2; 2; 6]%Z; b := [2; 3]%Z; ipvt := [1; 1]%Z |}.
Proof.
  assert (1 <= repetitions sample_config) as Hr by (simpl; lia).
  split; [exact Hr |].
  exact (proj1 (calculate_result Z 1 sample_gefa sample_gesl_ref 1000000000
                  (fun _ => 1%Z) (fun _ => 0%Z) (fun _ => 0%Z)
                  sample_config sample_machine Hr)).
Defined.


End Linpack.

(* ===================================================================== *)
(** * The matrix transposition benchmark *)
(* ===================================================================== *)

Module Transpose.

#[local] Instance Q_inhabited : Inhabited Q := populate 0%Q.
#[local] Instance spec_float_inhabited : Inhabited spec_float :=
  populate (S754_zero false).

(** ** The arithmetic of the host *)

(** HOST_DATA_TYPE is chosen when the benchmark is built, and [double] is
    the type of the literals [1.0] and [0.0], of the draws of the
    distribution, of the error and of the times.  The routines use the
    operations of this interface: the sum and the negation of two values
    of HOST_DATA_TYPE, the two conversions that C++ inserts between
    HOST_DATA_TYPE and [double], and the operations of [double]. *)
Class HostArith (F D : Type) := {
  host_add : F -> F -> F;
  host_neg : F -> F;
  to_double : F -> D;
  to_host : D -> F;
  double_add : D -> D -> D;
  double_sub : D -> D -> D;
  double_mul : D -> D -> D;
  double_div : D -> D -> D;
  fabs : D -> D;
  double_lt : D -> D -> bool;
  double_of_Z : Z -> D
}.

(** The conversion of a value to [float] and to [double]: the value is
    rounded to the nearest number of the format, ties to even; infinities,
    zeros and NaN are kept. *)
Definition binary32 (x : spec_float) : spec_float :=
  match x with
  | S754_finite s m e => binary_round 24 128 s m e
  | _ => x
  end.

Definition binary64 (x : spec_float) : spec_float :=
  match x with
  | S754_finite s m e => binary_round 53 1024 s m e
  | _ => x
  end.

(** The arithmetic the benchmark runs with: HOST_DATA_TYPE is [float], the
    IEEE 754 binary32 format (24 bits of precision), and [double] is
    binary64 (53 bits); every operation rounds its exact result to the
    nearest number of its format. *)
#[global] Instance ieee : HostArith spec_float spec_float := {
  host_add := SFadd 24 128;
  host_neg := SFopp;
  to_double := binary64;
  to_host := binary32;
  double_add := SFadd 53 1024;
  double_sub := SFsub 53 1024;
  double_mul := SFmul 53 1024;
  double_div := SFdiv 53 1024;
  fabs := SFabs;
  double_lt := SFltb;
  double_of_Z := fun z => binary_normalize 53 1024 z 0 false
}.

(** The same operations without any rounding, on rationals: the CPU
    harness below is stated in this arithmetic. *)
#[global] Instance exact : HostArith Q Q := {
  host_add := Qplus;
  host_neg := Qopp;
  to_double := fun x => x;
  to_host := fun x => x;
  double_add := Qplus;
  double_sub := Qminus;
  double_mul := Qmult;
  double_div := Qdiv;
  fabs := Qabs;
  double_lt := fun a b => if Qlt_le_dec a b then true else false;
  double_of_Z := inject_Z
}.

(** Arithmetic on [cl_uint]. *)
Definition wrap32 (z : Z) : Z := z mod 2 ^ 32.

(** [i * n + j] where [n] is a [cl_uint]: the [int]s are converted and the
    result wraps. *)
Definition index (i n j : nat) : nat :=
  Z.to_nat (wrap32 (Z.of_nat i * Z.of_nat n + Z.of_nat j)).

(** ** The reference routines *)

Section Reference.

Context {F D : Type} `{!Inhabited F} `{!HostArith F D}.

(** [transposeReference]: [A_out[i * n + j] = A[j * n + i] + B[i * n + j]],
    a sum of HOST_DATA_TYPE. *)
Definition transposeReference (A B A_out : list F) (n : nat) : list F :=
  fold_left
    (fun A_out i =>
       fold_left
         (fun A_out j =>
            <[index i n j := host_add (A !!! index j n i) (B !!! index i n j)]>
              A_out)
         (seq 0 n) A_out)
    (seq 0 n) A_out.

Section GenerateInputData.

(** [dis(gen)]: the successive draws of the distribution, of type
    [double]. *)
Variable dis : nat -> D.

(** The state of the two loops of [generateInputData]: the arrays and the
    number of draws made.  The draw is converted to HOST_DATA_TYPE when it
    is stored in [A]; [-A[...] + 1.0] negates the stored value, adds the
    [double] 1.0 to it in [double] and is converted to HOST_DATA_TYPE when
    it is stored in [B]. *)
Definition generate_step (matrix_size : nat) (st : list F * list F * nat)
    (i j : nat) : list F * list F * nat :=
  let '(A, B, drawn) := st in
  let A' := <[index i matrix_size j := to_host (dis drawn)]> A in
  let B' := <[index j matrix_size i :=
                to_host (double_add
                           (to_double (host_neg (A' !!! index i matrix_size j)))
                           (double_of_Z 1))]> B in
  (A', B', S drawn).

(** [generateInputData]: returns the arrays [A] and [B] after the loops. *)
Definition generateInputData (matrix_size : nat) (A B : list F)
    : list F * list F :=
  fst (fold_left
         (fun st i =>
            fold_left (fun st j => generate_step matrix_size st i j)
                      (seq 0 matrix_size) st)
         (seq 0 matrix_size) (A, B, 0)).

End GenerateInputData.

(** [std::max(a, b)]: [b] when [a < b], else [a]. *)
Definition std_max (a b : D) : D := if double_lt a b then b else a.

(** [fabs(result[i] - 1.0)]: the entry is converted to [double]. *)
Definition error_of (x : F) : D :=
  fabs (double_sub (to_double x) (double_of_Z 1)).

(** The loop of [printCalculationError] over the indices [l]. *)
Definition max_error_loop (result : list F) (l : list nat) (max_error : D) : D :=
  fold_left (fun max_error i => std_max (error_of (result !!! i)) max_error)
            l max_error.

(** [printCalculationError]: the value it returns.  The loop runs while
    [i < matrixSize * matrixSize], a product of [cl_uint]s with which the
    [int] counter is compared as a [cl_uint]; when the product is above
    the largest [int], incrementing the counter overflows and there is no
    result. *)
Definition printCalculationError (matrixSize : nat) (result : list F)
    : option D :=
  let bound := wrap32 (Z.of_nat matrixSize * Z.of_nat matrixSize) in
  if decide (bound < 2 ^ 31)%Z then
    Some (max_error_loop result (seq 0 (Z.to_nat bound)) (double_of_Z 0))
  else None.

End Reference.

(** ** The generator of the input *)

(** [std::mt19937]: the state of 624 words of 32 bits after
    [seed(value)]. *)
Fixpoint seed_from (count : nat) (i prev : Z) : list Z :=
  match count with
  | 0 => []
  | S count' =>
      let x := wrap32 (1812433253 * Z.lxor prev (Z.shiftr prev 30) + i) in
      x :: seed_from count' (i + 1) x
  end.

Definition seed (value : Z) : list Z :=
  wrap32 value :: seed_from 623 1 (wrap32 value).

(** The regeneration of the state, word by word and in place. *)
Definition twist_word (mt : list Z) (k : nat) : list Z :=
  let y := Z.lor (Z.land (mt !!! k) 0x80000000)
                 (Z.land (mt !!! ((k + 1) mod 624)%nat) 0x7fffffff) in
  <[k := Z.lxor (Z.lxor (mt !!! ((k + 397) mod 624)%nat) (Z.shiftr y 1))
                (if Z.odd y then 0x9908b0df else 0)]> mt.

Definition twist (mt : list Z) : list Z := fold_left twist_word (seq 0 624) mt.

Definition temper (y : Z) : Z :=
  let y := Z.lxor y (Z.shiftr y 11) in
  let y := Z.lxor y (Z.land (wrap32 (Z.shiftl y 7)) 0x9d2c5680) in
  let y := Z.lxor y (Z.land (wrap32 (Z.shiftl y 15)) 0xefc60000) in
  Z.lxor y (Z.shiftr y 18).

(** Output number [k] of [std::mt19937 gen(value)]. *)
Definition mt19937 (value : Z) (k : nat) : Z :=
  temper (Nat.iter (S (k / 624)) twist (seed value) !!! (k mod 624)%nat).

(** The first outputs of [std::mt19937 gen(7)], evaluated once. *)
Definition gen7_outputs : list Z :=
  Eval vm_compute in (temper <$> take 128 (twist (seed 7))).

(** Output number [k] of [gen(7)]. *)
Definition gen7 (k : nat) : Z :=
  if decide (k < 128) then gen7_outputs !!! k else mt19937 7 k.

(** [std::generate_canonical<double, 53>] on a generator of 32 bits: two
    outputs, the first one the low word, divided by [2^64], all in
    [double]; a quotient that rounds to 1 is replaced by the number just
    below 1. *)
Definition generate_canonical (g0 g1 : Z) : spec_float :=
  let r := double_of_Z (2 ^ 32) in
  let sum := double_add (double_of_Z 0)
                        (double_mul (double_of_Z g0) (double_of_Z 1)) in
  let tmp := double_mul (double_of_Z 1) r in
  let sum := double_add sum (double_mul (double_of_Z g1) tmp) in
  let tmp := double_mul tmp r in
  let ret := double_div sum tmp in
  if double_lt ret (double_of_Z 1) then ret
  else S754_finite false (2 ^ 53 - 1) (-53).

(** [std::uniform_real_distribution<>(a, b)] on a canonical value [u]:
    [u * (b - a) + a]. *)
Definition uniform_real_distribution (a b u : spec_float) : spec_float :=
  double_add (double_mul u (double_sub b a)) a.

(** Draw number [k] of [dis(gen)] in [generateInputData], where [gen] is
    [std::mt19937 gen(7)] and [dis] is
    [std::uniform_real_distribution<> dis(-100.0, 100.0)]. *)
Definition dis_gen7 (k : nat) : spec_float :=
  uniform_real_distribution (double_of_Z (-100)) (double_of_Z 100)
    (generate_canonical (gen7 (2 * k)) (gen7 (2 * k + 1))).

Lemma gen7_outputs_spec :
  gen7_outputs = temper <$> take 128 (twist (seed 7)).
Proof. vm_compute. reflexivity. Qed.

(** The outputs kept in [gen7_outputs] are those of the generator. *)
Lemma gen7_mt19937 (k : nat) : gen7 k = mt19937 7 k.
Proof.
  unfold gen7. destruct (decide (k < 128)) as [Hk | _]; [| reflexivity].
  unfold mt19937. rewrite Nat.div_small, Nat.mod_small by lia.
  cbn [Nat.iter nat_rect].
  pose proof gen7_outputs_spec as Hspec.
  remember (twist (seed 7)) as st eqn:Hst. clear Hst.
  assert (length (take 128 st) = 128) as Hlen.
  { rewrite <- (length_fmap temper), <- Hspec. reflexivity. }
  rewrite Hspec, (list_lookup_total_fmap temper) by lia.
  rewrite lookup_total_take, decide_True by lia. reflexivity.
Qed.

(** ** Loops over a square of indices *)

(** The pairs [(i, j)] in the order in which two nested loops over
    [0 .. n-1] visit them. *)
Definition square (n : nat) : list (nat * nat) :=
  i ← seq 0 n; (fun j => (i, j)) <$> seq 0 n.

Lemma fold_left_fmap {St X Y : Type} (f : St -> Y -> St) (g : X -> Y)
    (l : list X) (s : St) :
  fold_left f (g <$> l) s = fold_left (fun s x => f s (g x)) l s.
Proof.
  revert s. induction l as [|x l IH]; intros s; [done |].
  rewrite fmap_cons. simpl. apply IH.
Qed.

Lemma fold_left_rows {St : Type} (f : St -> nat -> nat -> St)
    (rows cols : list nat) (s : St) :
  fold_left (fun s i => fold_left (fun s j => f s i j) cols s) rows s
  = fold_left (fun s p => f s p.1 p.2)
              (i ← rows; (fun j => (i, j)) <$> cols) s.
Proof.
  revert s. induction rows as [|i rows IH]; intros s; [done |].
  rewrite bind_cons, fold_left_app, fold_left_fmap. simpl. apply IH.
Qed.

Lemma fold_left_nested {St : Type} (f : St -> nat -> nat -> St) (n : nat) (s : St) :
  fold_left (fun s i => fold_left (fun s j => f s i j) (seq 0 n) s) (seq 0 n) s
  = fold_left (fun s p => f s p.1 p.2) (square n) s.
Proof. apply fold_left_rows. Qed.

Lemma elem_of_square (n i j : nat) : (i, j) ∈ square n <-> i < n /\ j < n.
Proof.
  unfold square. rewrite list_elem_of_bind. split.
  - intros (i' & Hj & Hi). apply list_elem_of_fmap in Hj as (j' & [= -> ->] & Hj).
    apply elem_of_seq in Hi, Hj. lia.
  - intros [Hi Hj]. exists i. split.
    + apply list_elem_of_fmap. exists j. split; [done |]. apply elem_of_seq. lia.
    + apply elem_of_seq. lia.
Qed.

Lemma NoDup_square (n : nat) : NoDup (square n).
Proof.
  unfold square. apply NoDup_bind.
  - intros i1 i2 [i j] _ _ H1 H2.
    apply list_elem_of_fmap in H1 as (j1 & [= -> ->] & _).
    apply list_elem_of_fmap in H2 as (j2 & [= -> _] & _). done.
  - intros i _. apply NoDup_fmap_2; [| apply NoDup_seq].
    intros j1 j2 [= ->]. done.
  - apply NoDup_seq.
Qed.

(** Inside a matrix that a [cl_uint] can index, [i * n + j] does not wrap
    and tells the entries apart. *)
Lemma index_in_range (i n j : nat) :
  (Z.of_nat n * Z.of_nat n <= 2 ^ 32)%Z -> i < n -> j < n ->
  index i n j = i * n + j.
Proof.
  intros Hn Hi Hj. unfold index, wrap32.
  rewrite Z.mod_small by nia. lia.
Qed.

Lemma index_lt (i n j : nat) :
  (Z.of_nat n * Z.of_nat n <= 2 ^ 32)%Z -> i < n -> j < n ->
  index i n j < n * n.
Proof. intros Hn Hi Hj. rewrite index_in_range by done. nia. Qed.

Lemma index_inj (n i j i' j' : nat) :
  (Z.of_nat n * Z.of_nat n <= 2 ^ 32)%Z ->
  i < n -> j < n -> i' < n -> j' < n ->
  index i n j = index i' n j' -> i = i' /\ j = j'.
Proof.
  intros Hn Hi Hj Hi' Hj'. rewrite !index_in_range by done. intros Heq.
  assert (i = i') as -> by nia. split; [done | lia].
Qed.

Lemma square_lookup (n i j : nat) :
  i < n -> j < n -> square n !! (i * n + j) = Some (i, j).
Proof.
  intros Hi Hj. unfold square.
  assert (forall m a i', i' < m ->
            (k ← seq a m; (fun j => (k, j)) <$> seq 0 n) !! (i' * n + j)
            = Some (a + i', j)) as Hrows.
  { induction m as [|m IH]; intros a i' Hi'; [lia |].
    cbn [seq]. rewrite bind_cons. destruct i' as [|i'].
    - rewrite lookup_app_l by (rewrite length_fmap, length_seq; lia).
      rewrite list_lookup_fmap, lookup_seq_lt by lia.
      cbn. by rewrite Nat.add_0_r.
    - rewrite lookup_app_r by (rewrite length_fmap, length_seq; lia).
      rewrite length_fmap, length_seq.
      replace (S i' * n + j - n) with (i' * n + j) by lia.
      rewrite IH by lia. f_equal. f_equal. lia. }
  by rewrite (Hrows n 0 i Hi).
Qed.

(** ** The generated input and its transposition *)

Section ReferenceFacts.

Context {F D : Type} `{!Inhabited F} `{!HostArith F D}.

Lemma generate_invariant (dis : nat -> D) (n : nat) (l : list (nat * nat))
    (A B : list F) (drawn : nat) :
  (Z.of_nat n * Z.of_nat n <= 2 ^ 32)%Z ->
  NoDup l -> (forall i j, (i, j) ∈ l -> i < n /\ j < n) ->
  length A = n * n -> length B = n * n ->
  let st := fold_left (fun st p => generate_step dis n st p.1 p.2) l
                      (A, B, drawn) in
  length st.1.1 = n * n /\ length st.1.2 = n * n
  /\ forall i j, (i, j) ∈ l ->
       st.1.2 !!! index j n i
       = to_host (double_add (to_double (host_neg (st.1.1 !!! index i n j)))
                             (double_of_Z 1)).
Proof.
  intros Hn Hdup Hrange HA HB. cbn zeta.
  induction l as [|[i j] l IH] using rev_ind.
  - simpl. repeat split; try done. intros i j Hin. by apply elem_of_nil in Hin.
  - apply NoDup_app in Hdup as (Hdup & Hfresh & _).
    rewrite fold_left_app. simpl.
    destruct (fold_left _ l (A, B, drawn)) as [[A1 B1] k1] eqn:Hfold.
    destruct IH as (HA1 & HB1 & Hrel); [done | |].
    { intros i' j' Hin. apply Hrange, elem_of_app. by left. }
    simpl in HA1, HB1, Hrel.
    destruct (Hrange i j) as [Hi Hj]; [apply elem_of_app; right; by left |].
    unfold generate_step. simpl. rewrite !length_insert.
    split; [done |]. split; [done |].
    intros i' j' Hin. apply elem_of_app in Hin as [Hin | Hin].
    + destruct (Hrange i' j') as [Hi' Hj']; [apply elem_of_app; by left |].
      assert ((i', j') <> (i, j)) as Hne.
      { intros [= -> ->]. apply (Hfresh (i, j)); [done | by left]. }
      rewrite !list_lookup_total_insert_ne.
      * by apply Hrel.
      * intros Heq. apply index_inj in Heq as [-> ->]; done.
      * intros Heq. apply index_inj in Heq as [-> ->]; done.
    + apply list_elem_of_singleton in Hin as [= -> ->].
      rewrite list_lookup_total_insert_eq; [done |].
      rewrite HB1. by apply index_lt.
Qed.

(** After [generateInputData] the two matrices are related entry by
    entry: [B[j * n + i]] is [-A[i * n + j] + 1.0] as it was stored. *)
Lemma generateInputData_related (dis : nat -> D) (n : nat) (A B : list F) :
  (Z.of_nat n * Z.of_nat n <= 2 ^ 32)%Z ->
  length A = n * n -> length B = n * n ->
  let AB := generateInputData dis n A B in
  length AB.1 = n * n /\ length AB.2 = n * n
  /\ forall i j, i < n -> j < n ->
       AB.2 !!! index j n i
       = to_host (double_add (to_double (host_neg (AB.1 !!! index i n j)))
                             (double_of_Z 1)).
Proof.
  intros Hn HA HB. cbn zeta. unfold generateInputData.
  rewrite (fold_left_nested (generate_step dis n)).
  destruct (generate_invariant dis n (square n) A B 0 Hn (NoDup_square n))
    as (HA' & HB' & Hrel); [by intros i j ?%elem_of_square | done | done |].
  split; [done |]. split; [done |].
  intros i j Hi Hj. apply Hrel, elem_of_square. done.
Qed.

Lemma transpose_invariant (n : nat) (l : list (nat * nat)) (A B A_out : list F) :
  (Z.of_nat n * Z.of_nat n <= 2 ^ 32)%Z ->
  NoDup l -> (forall i j, (i, j) ∈ l -> i < n /\ j < n) ->
  length A_out = n * n ->
  let out :=
    fold_left
      (fun A_out p =>
         <[index p.1 n p.2 :=
             host_add (A !!! index p.2 n p.1) (B !!! index p.1 n p.2)]> A_out)
      l A_out in
  length out = n * n
  /\ forall i j, (i, j) ∈ l ->
       out !!! index i n j = host_add (A !!! index j n i) (B !!! index i n j).
Proof.
  intros Hn Hdup Hrange Hout. cbn zeta.
  induction l as [|[i j] l IH] using rev_ind.
  - simpl. split; [done |]. intros i j Hin. by apply elem_of_nil in Hin.
  - apply NoDup_app in Hdup as (Hdup & Hfresh & _).
    rewrite fold_left_app. simpl.
    destruct IH as (Hlen & Hrel); [done | |].
    { intros i' j' Hin. apply Hrange, elem_of_app. by left. }
    destruct (Hrange i j) as [Hi Hj]; [apply elem_of_app; right; by left |].
    rewrite length_insert. split; [done |].
    intros i' j' Hin. apply elem_of_app in Hin as [Hin | Hin].
    + destruct (Hrange i' j') as [Hi' Hj']; [apply elem_of_app; by left |].
      rewrite list_lookup_total_insert_ne; [by apply Hrel |].
      intros Heq. apply index_inj in Heq as [-> ->]; try done.
      apply (Hfresh (i', j')); [done | by left].
    + apply list_elem_of_singleton in Hin as [= -> ->].
      rewrite list_lookup_total_insert_eq; [done |].
      rewrite Hlen. by apply index_lt.
Qed.

Lemma transposeReference_entries (n : nat) (A B A_out : list F) :
  (Z.of_nat n * Z.of_nat n <= 2 ^ 32)%Z ->
  length A_out = n * n ->
  forall i j, i < n -> j < n ->
    transposeReference A B A_out n !!! index i n j
    = host_add (A !!! index j n i) (B !!! index i n j).
Proof.
  intros Hn Hout i j Hi Hj. unfold transposeReference.
  rewrite (fold_left_nested
             (fun A_out i j =>
                <[index i n j := host_add (A !!! index j n i) (B !!! index i n j)]>
                  A_out)).
  destruct (transpose_invariant n (square n) A B A_out Hn (NoDup_square n))
    as (_ & Hrel); [by intros i' j' ?%elem_of_square | done |].
  apply Hrel, elem_of_square. done.
Qed.

Lemma transposeReference_length (n : nat) (A B A_out : list F) :
  (Z.of_nat n * Z.of_nat n <= 2 ^ 32)%Z ->
  length A_out = n * n ->
  length (transposeReference A B A_out n) = n * n.
Proof.
  intros Hn Hout. unfold transposeReference.
  rewrite (fold_left_nested
             (fun A_out i j =>
                <[index i n j := host_add (A !!! index j n i) (B !!! index i n j)]>
                  A_out)).
  by destruct (transpose_invariant n (square n) A B A_out Hn (NoDup_square n))
    as (Hlen & _); [by intros i' j' ?%elem_of_square | done |].
Qed.

(** ** The reference transposition on any input *)

(** X9.  For a matrix size [n] that a [cl_uint] can index and an output
    array of [n * n] entries, [transposeReference] leaves an array of
    [n * n] entries whose entry in row [i] and column [j] is the sum, in
    the arithmetic of HOST_DATA_TYPE, of the entry of [A] in row [j] and
    column [i] and the entry of [B] in row [i] and column [j], whatever
    the output array held before. *)
Theorem transposeReference_correct (n : nat) (A B A_out : list F) :
  (Z.of_nat n * Z.of_nat n <= 2 ^ 32)%Z ->
  length A_out = n * n ->
  length (transposeReference A B A_out n) = n * n
  /\ forall i j, i < n -> j < n ->
       transposeReference A B A_out n !!! (i * n + j)
       = host_add (A !!! (j * n + i)) (B !!! (i * n + j)).
Proof.
  intros Hn Hout. split; [by apply transposeReference_length |].
  intros i j Hi Hj.
  rewrite <- (index_in_range i n j), <- (index_in_range j n i) by done.
  by apply transposeReference_entries.
Qed.

(** ** The draws of the generator *)

Lemma generate_draws (dis : nat -> D) (n : nat) (l : list (nat * nat))
    (A B : list F) (drawn : nat) :
  (Z.of_nat n * Z.of_nat n <= 2 ^ 32)%Z ->
  NoDup l -> (forall i j, (i, j) ∈ l -> i < n /\ j < n) ->
  length A = n * n ->
  let st := fold_left (fun st p => generate_step dis n st p.1 p.2) l
                      (A, B, drawn) in
  st.2 = drawn + length l /\ length st.1.1 = n * n
  /\ forall k i j, l !! k = Some (i, j) ->
       st.1.1 !!! index i n j = to_host (dis (drawn + k)).
Proof.
  intros Hn Hdup Hrange HA. cbn zeta.
  induction l as [|[i j] l IH] using rev_ind.
  - simpl. split; [lia |]. split; [done |]. intros k i j Hk. done.
  - apply NoDup_app in Hdup as (Hdup & Hfresh & _).
    rewrite fold_left_app. simpl.
    destruct (fold_left _ l (A, B, drawn)) as [[A1 B1] k1] eqn:Hfold.
    destruct IH as (Hk1 & HA1 & Hrel); [done | |].
    { intros i' j' Hin. apply Hrange, elem_of_app. by left. }
    simpl in Hk1, HA1, Hrel.
    destruct (Hrange i j) as [Hi Hj]; [apply elem_of_app; right; by left |].
    unfold generate_step. simpl. rewrite length_insert, length_app. simpl.
    split; [lia |]. split; [done |].
    intros k i' j' Hk. apply lookup_snoc_Some in Hk as [[Hlt Hk] | [-> Heq]].
    + assert ((i', j') ∈ l) as Hin by (by apply list_elem_of_lookup_2 in Hk).
      destruct (Hrange i' j') as [Hi' Hj']; [apply elem_of_app; by left |].
      rewrite list_lookup_total_insert_ne; [by apply Hrel |].
      intros Heq. apply index_inj in Heq as [-> ->]; try done.
      apply (Hfresh (i', j')); [done | by left].
    + injection Heq as <- <-.
      rewrite list_lookup_total_insert_eq; [by rewrite Hk1 |].
      rewrite HA1. by apply index_lt.
Qed.

Lemma generateInputData_drawn (dis : nat -> D) (n : nat) (A B : list F) :
  (Z.of_nat n * Z.of_nat n <= 2 ^ 32)%Z ->
  length A = n * n ->
  forall i j, i < n -> j < n ->
    (generateInputData dis n A B).1 !!! index i n j = to_host (dis (i * n + j)).
Proof.
  intros Hn HA i j Hi Hj. unfold generateInputData.
  rewrite (fold_left_nested (generate_step dis n)).
  destruct (generate_draws dis n (square n) A B 0 Hn (NoDup_square n))
    as (_ & _ & Hrel); [by intros i' j' ?%elem_of_square | done |].
  by rewrite (Hrel (i * n + j) i j (square_lookup n i j Hi Hj)).
Qed.

(** X11.  [generateInputData] fills [A] row by row with the successive
    draws of the distribution, each converted to HOST_DATA_TYPE: the entry
    in row [i] and column [j] is draw number [i * n + j] as stored, and
    the entry of [B] in row [j] and column [i] is the stored value negated,
    plus 1.0 in [double], converted to HOST_DATA_TYPE. *)
Theorem generateInputData_draws (dis : nat -> D) (n : nat) (A B : list F) :
  (Z.of_nat n * Z.of_nat n <= 2 ^ 32)%Z ->
  length A = n * n -> length B = n * n ->
  let AB := generateInputData dis n A B in
  forall i j, i < n -> j < n ->
    AB.1 !!! (i * n + j) = to_host (dis (i * n + j))
    /\ AB.2 !!! (j * n + i)
       = to_host (double_add
                    (to_double (host_neg (to_host (dis (i * n + j)))))
                    (double_of_Z 1)).
Proof.
  intros Hn HA HB AB i j Hi Hj.
  pose proof (generateInputData_drawn dis n A B Hn HA i j Hi Hj) as HAij.
  destruct (generateInputData_related dis n A B Hn HA HB) as (_ & _ & Hrel).
  pose proof (Hrel i j Hi Hj) as HBji. rewrite HAij in HBji.
  rewrite (index_in_range i n j) in HAij by done.
  rewrite (index_in_range j n i) in HBji by done.
  done.
Qed.

(** The value of [printCalculationError] when an [int] can count the
    entries. *)
Lemma printCalculationError_loop (n : nat) (result : list F) :
  (Z.of_nat n * Z.of_nat n < 2 ^ 31)%Z ->
  printCalculationError n result
  = Some (max_error_loop result (seq 0 (n * n)) (double_of_Z 0)).
Proof.
  intros Hn. unfold printCalculationError, wrap32. cbn zeta.
  rewrite Z.mod_small by lia. rewrite decide_True by done.
  by replace (Z.to_nat (Z.of_nat n * Z.of_nat n)) with (n * n) by lia.
Qed.

(** From 46341 rows on the product is above the largest [int]: the counter
    overflows before the loop ends. *)
Lemma printCalculationError_overflow (result : list F) :
  printCalculationError (Z.to_nat 46341) result = None.
Proof.
  unfold printCalculationError. cbn zeta.
  apply decide_False. vm_compute. discriminate.
Qed.

(** The loop reads the result only at the indices it visits. *)
Lemma max_error_loop_ext (result result' : list F) (l : list nat)
    (max_error : D) :
  (forall i, i ∈ l -> result' !!! i = result !!! i) ->
  max_error_loop result' l max_error = max_error_loop result l max_error.
Proof.
  revert max_error. induction l as [|i l IH]; intros max_error Hsame; [done |].
  unfold max_error_loop in *. cbn [fold_left].
  rewrite (Hsame i) by (by left). apply IH.
  intros i' Hin. apply Hsame. by right.
Qed.

Lemma max_error_loop_attained (result : list F) (l : list nat) (max_error : D) :
  max_error_loop result l max_error = max_error
  \/ exists i, i ∈ l /\ max_error_loop result l max_error = error_of (result !!! i).
Proof.
  revert max_error. induction l as [|i l IH]; intros max_error; [by left |].
  unfold max_error_loop in *. cbn [fold_left].
  destruct (IH (std_max (error_of (result !!! i)) max_error))
    as [Heq | (i' & Hin & Heq)]; rewrite Heq.
  - unfold std_max. destruct (double_lt _ _); [by left |].
    right. exists i. split; [by left | done].
  - right. exists i'. split; [by right | done].
Qed.

End ReferenceFacts.


(** ** The order of [double] *)

(** The place of a number in the order: its sign, then its exponent and
    its mantissa, counted downwards for a negative number. *)
Definition rank (x : spec_float) : Z * Z * Z :=
  match x with
  | S754_nan | S754_zero _ => (0, 0, 0)%Z
  | S754_infinity s => (if s then -2 else 2, 0, 0)%Z
  | S754_finite s m e => if s then (-1, - e, Z.neg m)%Z else (1, e, Z.pos m)%Z
  end.

Definition lex_lt (a b : Z * Z * Z) : Prop :=
  (a.1.1 < b.1.1
   \/ (a.1.1 = b.1.1 /\ (a.1.2 < b.1.2 \/ (a.1.2 = b.1.2 /\ a.2 < b.2))))%Z.

(** [a < b] on [double]: neither is NaN and [a] comes first. *)
Lemma SFltb_spec (x y : spec_float) :
  SFltb x y = true
  <-> x <> S754_nan /\ y <> S754_nan /\ lex_lt (rank x) (rank y).
Proof.
  unfold SFltb, lex_lt.
  destruct x as [sx | sx | | sx mx ex], y as [sy | sy | | sy my ey];
    try destruct sx; try destruct sy; cbn;
    try solve [split; [intros H; discriminate H
                      | intros (Hx & Hy & Hlt); first [done | lia]]];
    try solve [split; [intros _; repeat split; first [done | lia] | done]].
  - change (PosDef.Pos.compare_cont Eq mx my) with (Pos.compare mx my).
    destruct (Z.compare_spec ex ey) as [-> | Hlt | Hgt];
      [destruct (Pos.compare_spec mx my) as [-> | Hm | Hm] | |]; cbn;
      (split; [intros H; try discriminate H; repeat split; first [done | lia]
              | intros (_ & _ & H); first [done | lia]]).
  - change (PosDef.Pos.compare_cont Eq mx my) with (Pos.compare mx my).
    destruct (Z.compare_spec ex ey) as [-> | Hlt | Hgt];
      [destruct (Pos.compare_spec mx my) as [-> | Hm | Hm] | |]; cbn;
      (split; [intros H; try discriminate H; repeat split; first [done | lia]
              | intros (_ & _ & H); first [done | lia]]).
Qed.

Lemma SFltb_false (x y : spec_float) :
  SFltb x y = false -> x <> S754_nan -> y <> S754_nan ->
  ~ lex_lt (rank x) (rank y).
Proof.
  intros Hfalse Hx Hy Hlt.
  assert (SFltb x y = true) as Htrue by (by apply SFltb_spec).
  congruence.
Qed.

Lemma SFltb_irrefl (x : spec_float) : SFltb x x = false.
Proof.
  apply not_true_iff_false. intros (_ & _ & Hlt)%SFltb_spec.
  unfold lex_lt in Hlt. lia.
Qed.

Lemma SFltb_asym (x y : spec_float) : SFltb x y = true -> SFltb y x = false.
Proof.
  intros (_ & _ & Hxy)%SFltb_spec.
  apply not_true_iff_false. intros (_ & _ & Hyx)%SFltb_spec.
  unfold lex_lt in *. lia.
Qed.


(** [x >= y] and [y >= z] give [x >= z] when [y] is a number. *)
Lemma SFltb_false_trans (x y z : spec_float) :
  y <> S754_nan ->
  SFltb x y = false -> SFltb y z = false -> SFltb x z = false.
Proof.
  intros Hy Hxy Hyz.
  apply not_true_iff_false. intros (Hx & Hz & Hxz)%SFltb_spec.
  pose proof (SFltb_false _ _ Hxy Hx Hy) as Hnxy.
  pose proof (SFltb_false _ _ Hyz Hy Hz) as Hnyz.
  unfold lex_lt in *. lia.
Qed.

(** ** The error that is reported *)

Lemma error_of_not_below_zero (x : spec_float) :
  SFltb (error_of x) (double_of_Z 0) = false.
Proof.
  unfold error_of. cbn [fabs ieee].
  by destruct (double_sub (to_double x) (double_of_Z 1)).
Qed.

Lemma std_max_nan (max_error : spec_float) : std_max S754_nan max_error = S754_nan.
Proof. reflexivity. Qed.

Lemma max_error_loop_upper (result : list spec_float) (l : list nat)
    (max_error : spec_float) :
  max_error <> S754_nan ->
  (forall i, i ∈ l -> error_of (result !!! i) <> S754_nan) ->
  max_error_loop result l max_error <> S754_nan
  /\ SFltb (max_error_loop result l max_error) max_error = false
  /\ forall i, i ∈ l ->
       SFltb (max_error_loop result l max_error) (error_of (result !!! i)) = false.
Proof.
  revert max_error. induction l as [|i l IH]; intros max_error Hm Hnan.
  - split; [done |]. split; [apply SFltb_irrefl |].
    intros i Hin. by apply elem_of_nil in Hin.
  - unfold max_error_loop in *. cbn [fold_left].
    assert (error_of (result !!! i) <> S754_nan) as Hd by (apply Hnan; by left).
    set (d := error_of (result !!! i)) in *.
    assert (std_max d max_error <> S754_nan
            /\ SFltb (std_max d max_error) max_error = false
            /\ SFltb (std_max d max_error) d = false) as (Hs & Hsm & Hsd).
    { unfold std_max. cbn [double_lt ieee].
      destruct (SFltb d max_error) eqn:Hlt.
      - split; [done |]. split; [apply SFltb_irrefl | by apply SFltb_asym].
      - split; [done |]. split; [done | apply SFltb_irrefl]. }
    destruct (IH (std_max d max_error) Hs) as (Hr & Hrs & Hall).
    { intros i' Hin. apply Hnan. by right. }
    split; [done |]. split; [by apply (SFltb_false_trans _ (std_max d max_error)) |].
    intros i' [-> | Hin]%elem_of_cons; [| by apply Hall].
    by apply (SFltb_false_trans _ (std_max d max_error)).
Qed.

(** After an entry whose distance is NaN the running maximum is NaN, and the
    entries before it are forgotten. *)
Lemma max_error_loop_nan (result : list spec_float) (l1 l2 : list nat)
    (k : nat) (max_error : spec_float) :
  error_of (result !!! k) = S754_nan ->
  max_error_loop result (l1 ++ k :: l2) max_error
  = max_error_loop result l2 S754_nan.
Proof.
  intros Hk. unfold max_error_loop. rewrite fold_left_app. cbn [fold_left].
  by rewrite Hk, std_max_nan.
Qed.

(** What [printCalculationError] returns when an [int] can count the
    entries: 0.0 for an empty matrix and else the distance of one of the
    entries, which no distance is above when none of them is NaN. *)
Lemma printCalculationError_spec (n : nat) (result : list spec_float) :
  (Z.of_nat n * Z.of_nat n < 2 ^ 31)%Z ->
  exists max_error,
    printCalculationError n result = Some max_error
    /\ (n = 0 -> max_error = double_of_Z 0)
    /\ (0 < n -> exists i, i < n * n /\ max_error = error_of (result !!! i))
    /\ ((forall i, i < n * n -> error_of (result !!! i) <> S754_nan) ->
        forall i, i < n * n ->
          double_lt max_error (error_of (result !!! i)) = false).
Proof.
  intros Hn. rewrite printCalculationError_loop by done.
  eexists. split; [reflexivity |]. split; [| split].
  - intros ->. reflexivity.
  - intros Hpos.
    assert (seq 0 (n * n) = 0 :: seq 1 (n * n - 1)) as ->.
    { destruct (n * n) as [|m] eqn:Hm; [nia |]. cbn [seq]. f_equal. f_equal. lia. }
    unfold max_error_loop. cbn [fold_left].
    assert (std_max (error_of (result !!! 0)) (double_of_Z 0)
            = error_of (result !!! 0)) as ->.
    { unfold std_max. cbn [double_lt ieee].
      by rewrite error_of_not_below_zero. }
    destruct (max_error_loop_attained result (seq 1 (n * n - 1))
                (error_of (result !!! 0))) as [Heq | (i & Hin & Heq)].
    + exists 0. split; [nia | exact Heq].
    + exists i. split; [apply elem_of_seq in Hin; lia | exact Heq].
  - intros Hnan i Hi.
    destruct (max_error_loop_upper result (seq 0 (n * n)) (double_of_Z 0))
      as (_ & _ & Hall); [done | |].
    + intros i' Hin. apply Hnan. apply elem_of_seq in Hin. lia.
    + apply Hall, elem_of_seq. lia.
Qed.

(** X13.  For a matrix whose [n * n] entries an [int] can count,
    [printCalculationError] returns 0.0 for an empty matrix and else the
    distance from 1.0 of one of the first [n * n] entries of the result.
    When no distance is NaN, none is above the returned one: it is their
    maximum.  An entry whose distance is NaN makes the loop forget what
    came before it: the entries before it can be changed at will without
    changing what is returned. *)
Theorem printCalculationError_maximum (n : nat) (result : list spec_float) :
  (Z.of_nat n * Z.of_nat n < 2 ^ 31)%Z ->
  exists max_error,
    printCalculationError n result = Some max_error
    /\ (n = 0 -> max_error = double_of_Z 0)
    /\ (0 < n -> exists i, i < n * n /\ max_error = error_of (result !!! i))
    /\ ((forall i, i < n * n -> error_of (result !!! i) <> S754_nan) ->
        forall i, i < n * n ->
          double_lt max_error (error_of (result !!! i)) = false)
    /\ (forall k result', k < n * n ->
          error_of (result !!! k) = S754_nan ->
          error_of (result' !!! k) = S754_nan ->
          (forall i, k < i < n * n -> result' !!! i = result !!! i) ->
          printCalculationError n result' = Some max_error).
Proof.
  intros Hn.
  destruct (printCalculationError_spec n result Hn)
    as (max_error & Hsome & Hzero & Hatt & Hmax).
  exists max_error. repeat (split; [done |]).
  intros k result' Hk Hnan Hnan' Hsame.
  rewrite printCalculationError_loop in Hsome |- * by done.
  rewrite <- Hsome. f_equal.
  assert (seq 0 (n * n) = seq 0 k ++ k :: seq (S k) (n * n - S k)) as ->.
  { replace (n * n) with (k + S (n * n - S k)) at 1 by lia.
    by rewrite seq_app. }
  rewrite !max_error_loop_nan by done.
  apply max_error_loop_ext. intros i Hin. apply Hsame.
  apply elem_of_seq in Hin. lia.
Qed.


(** ** Runs of the reference routines *)

(** The [float] of a decimal literal [a / b]. *)
Definition float_of (a b : Z) : spec_float :=
  to_host (double_div (double_of_Z a) (double_of_Z b)).


Definition zeros (count : nat) : list spec_float :=
  replicate count (S754_zero false).



(** With a matrix of five rows, the size of the test
    [GenerateInputDataCorrectness], every pair of roundings cancels. *)
Lemma generated_input_error_at_size_5 :
  let AB := generateInputData dis_gen7 5 (zeros 25) (zeros 25) in
  printCalculationError 5 (transposeReference AB.1 AB.2 (zeros 25) 5)
  = Some (double_of_Z 0).
Proof. vm_compute. reflexivity. Qed.

(** A two-by-two transposition in [float]: [2^24 + 1] is not a [float], and
    the first sum is rounded to [2^24]. *)
Definition sample_A : list spec_float :=
  [float_of 16777216 1; float_of 2 1; float_of 3 1; float_of 4 1].

Definition sample_B : list spec_float :=
  [float_of 1 1; float_of 10 1; float_of 20 1; float_of 30 1].

Lemma transposeReference_correct_witness :
  ((Z.of_nat 2 * Z.of_nat 2 <= 2 ^ 32)%Z /\ length (zeros 4) = 2 * 2)
  /\ (length (transposeReference sample_A sample_B (zeros 4) 2) = 2 * 2
      /\ forall i j, i < 2 -> j < 2 ->
           transposeReference sample_A sample_B (zeros 4) 2 !!! (i * 2 + j)
           = host_add (sample_A !!! (j * 2 + i)) (sample_B !!! (i * 2 + j)))
  /\ transposeReference sample_A sample_B (zeros 4) 2
     = [float_of 16777216 1; float_of 13 1; float_of 22 1; float_of 34 1].
Proof.
  assert (Z.of_nat 2 * Z.of_nat 2 <= 2 ^ 32)%Z as Hn by (vm_compute; discriminate).
  assert (length (zeros 4) = 2 * 2) as Hlen by reflexivity.
  split; [by split |]. split; [| vm_compute; reflexivity].
  exact (transposeReference_correct 2 sample_A sample_B (zeros 4) Hn Hlen).
Defined.



(** The first entries that [generateInputData] stores for a matrix of five
    rows, as in the test [GenerateInputDataCorrectness]: the first draw of
    [gen(7)] is -54.532185007..., stored in [A] as the [float]
    -54.532184600..., and [B] receives the [float] 55.532184600.... *)
Lemma generateInputData_draws_witness :
  ((Z.of_nat 5 * Z.of_nat 5 <= 2 ^ 32)%Z /\ length (zeros 25) = 5 * 5
   /\ 0 < 5 /\ 0 < 5)
  /\ ((generateInputData dis_gen7 5 (zeros 25) (zeros 25)).1 !!! (0 * 5 + 0)
      = to_host (dis_gen7 (0 * 5 + 0))
      /\ (generateInputData dis_gen7 5 (zeros 25) (zeros 25)).2 !!! (0 * 5 + 0)
         = to_host (double_add
                      (to_double (host_neg (to_host (dis_gen7 (0 * 5 + 0)))))
                      (double_of_Z 1)))
  /\ dis_gen7 0 = S754_finite true 7674722752421506 (-47)
  /\ to_host (dis_gen7 0) = S754_finite true 14295285 (-18)
  /\ to_host (double_add (to_double (host_neg (to_host (dis_gen7 0))))
                         (double_of_Z 1))
     = S754_finite false 14557429 (-18).
Proof.
  assert (Z.of_nat 5 * Z.of_nat 5 <= 2 ^ 32)%Z as Hn by (vm_compute; discriminate).
  assert (length (zeros 25) = 5 * 5) as Hlen by reflexivity.
  assert (0 < 5) as Hi by lia.
  split; [done |].
  split; [| split; [| split]; vm_compute; reflexivity].
  exact (generateInputData_draws dis_gen7 5 (zeros 25) (zeros 25)
           Hn Hlen Hlen 0 0 Hi Hi).
Defined.





(** A result with two entries that are off by one half, and one with an
    entry that is not a number. *)
Definition sample_result : list spec_float :=
  [float_of 1 1; float_of 3 2; float_of 1 1; float_of 1 2].

Definition result_with_nan : list spec_float :=
  [float_of 5 1; S754_nan; float_of 1 1; float_of 1 1].

Lemma printCalculationError_maximum_witness :
  (Z.of_nat 2 * Z.of_nat 2 < 2 ^ 31)%Z
  /\ (exists max_error,
        printCalculationError 2 sample_result = Some max_error
        /\ (2 = 0 -> max_error = double_of_Z 0)
        /\ (0 < 2 ->
            exists i, i < 2 * 2 /\ max_error = error_of (sample_result !!! i))
        /\ ((forall i, i < 2 * 2 -> error_of (sample_result !!! i) <> S754_nan) ->
            forall i, i < 2 * 2 ->
              double_lt max_error (error_of (sample_result !!! i)) = false)
        /\ (forall k result', k < 2 * 2 ->
              error_of (sample_result !!! k) = S754_nan ->
              error_of (result' !!! k) = S754_nan ->
              (forall i, k < i < 2 * 2 -> result' !!! i = sample_result !!! i) ->
              printCalculationError 2 result' = Some max_error))
  /\ printCalculationError 2 sample_result
     = Some (double_div (double_of_Z 1) (double_of_Z 2)).
Proof.
  assert (Z.of_nat 2 * Z.of_nat 2 < 2 ^ 31)%Z as Hn by (vm_compute; reflexivity).
  split; [exact Hn |]. split; [| vm_compute; reflexivity].
  exact (printCalculationError_maximum 2 sample_result Hn).
Defined.

(** The entry 5.0 is at distance 4.0 from 1.0, but it comes before an entry
    that is not a number: what is returned is 0.0, the distance of the
    entries after it. *)
Lemma printCalculationError_after_nan :
  printCalculationError 2 result_with_nan = Some (double_of_Z 0)
  /\ error_of (result_with_nan !!! 0) = double_of_Z 4.
Proof. split; vm_compute; reflexivity. Qed.

(** ** The CPU execution harness *)

Inductive DataHandlerType := diagonal | pq | other_handler.

Record TransposeData := {
  blockSize : nat;
  numBlocks : nat;
  A : list Q;
  B : list Q;
  result : list Q
}.

Record TransposeProgramSettings := {
  numRepetitions : nat;
  dataHandlerIdentifier : DataHandlerType
}.

Record TransposeExecutionTimings := {
  transferTimings : list Q;
  calculationTimings : list Q
}.

Inductive exception := runtime_error (what : string).

(** What a node does that other nodes or the clock can observe, with the
    repetition it belongs to; the flag of an exchange tells the transfer
    back (after the computation) from the one before it. *)
Inductive Event :=
| EvBarrier (repetition : nat)
| EvExchange (repetition : nat) (back : bool)
| EvCompute (repetition : nat).

Record World := {
  data : TransposeData;
  time : Z;
  trace : list Event
}.

(** [mkl_somatadd('R', 'T', 'N', rows, cols, alpha, A, lda, beta, B, ldb, C, ldc)]
    after the documentation of the library: [C := alpha * A^T + beta * B]
    on row-major matrices, [C] of [rows] by [cols] entries.  The matrices
    start at the offsets [a0], [b0] and [c0] of their arrays. *)
Definition mkl_somatadd_RTN (rows cols : nat) (alpha : Q)
    (A : list Q) (a0 lda : nat) (beta : Q) (B : list Q) (b0 ldb : nat)
    (C : list Q) (c0 ldc : nat) : list Q :=
  fold_left
    (fun C i =>
       fold_left
         (fun C j =>
            <[c0 + i * ldc + j :=
                (alpha * A !!! (a0 + j * lda + i)%nat
                 + beta * B !!! (b0 + i * ldb + j)%nat)%Q]> C)
         (seq 0 cols) C)
    (seq 0 rows) C.

(** [for (offset = 0; offset < count * step; offset += step)] *)
Definition offsets (count step : nat) : list nat :=
  if decide (step = 0) then [] else (fun k => k * step) <$> seq 0 count.

Section CpuExecution.

Variable BLOCK_SIZE : nat.

(** [handler.exchangeData(data)] and [handlerToString]: the data handlers
    are not in src. *)
Variable exchangeData : TransposeData -> TransposeData.
Variable handlerToString : DataHandlerType -> string.

(** The clock counts ticks; the [k]-th blocking operation of a run takes
    [cost k] ticks, and reading the clock takes none. *)
Variable ticks_per_second : positive.
Variable cost : nat -> Z.

Definition perform (ev : Event) (w : World) : World :=
  {| data := data w;
     time := time w + cost (length (trace w));
     trace := trace w ++ [ev] |}.

Definition set_data (d : TransposeData) (w : World) : World :=
  {| data := d; time := time w; trace := trace w |}.

Definition set_result (r : list Q) (d : TransposeData) : TransposeData :=
  {| blockSize := blockSize d; numBlocks := numBlocks d;
     A := A d; B := B d; result := r |}.

(** A [std::chrono::duration<double>] of a number of ticks, in seconds. *)
Definition seconds (ticks : Z) : Q := ticks # ticks_per_second.

(** The [diagonal] branch of the switch: one [mkl_somatadd] per block. *)
Definition compute_diagonal (d : TransposeData) : list Q :=
  fold_left
    (fun res offset =>
       mkl_somatadd_RTN BLOCK_SIZE BLOCK_SIZE 1 (A d) offset BLOCK_SIZE
                        1 (B d) offset BLOCK_SIZE res offset BLOCK_SIZE)
    (offsets (numBlocks d) (BLOCK_SIZE * BLOCK_SIZE)) (result d).

(** The [pq] branch: the blocks of a square local matrix of
    [local_matrix_width = sqrt(numBlocks)] blocks a side. *)
Definition compute_pq (d : TransposeData) : list Q :=
  let local_matrix_width := Nat.sqrt (numBlocks d) in
  fold_left
    (fun res yoffset =>
       fold_left
         (fun res xoffset =>
            let toffset := xoffset * BLOCK_SIZE * local_matrix_width + yoffset in
            let offset := yoffset * BLOCK_SIZE * local_matrix_width + xoffset in
            mkl_somatadd_RTN BLOCK_SIZE BLOCK_SIZE
              1 (A d) toffset (BLOCK_SIZE * local_matrix_width)
              1 (B d) offset (BLOCK_SIZE * local_matrix_width)
              res offset (BLOCK_SIZE * local_matrix_width))
         (offsets local_matrix_width BLOCK_SIZE) res)
    (offsets local_matrix_width BLOCK_SIZE) (result d).

(** The switch over the data handler; [None] is its [default] branch. *)
Definition compute (handler : DataHandlerType) (d : TransposeData)
    : option TransposeData :=
  match handler with
  | diagonal => Some (set_result (compute_diagonal d) d)
  | pq => Some (set_result (compute_pq d) d)
  | other_handler => None
  end.

Definition block_size_error : exception :=
  runtime_error ("Block size for CPU hardcoded to " +:+ pretty BLOCK_SIZE
                 +:+ ". Recompile to use different block sizes!").

Definition handler_error (handler : DataHandlerType) : exception :=
  runtime_error ("Given data handler is not supported by CPU implementation: "
                 +:+ handlerToString handler).

(** The loop over the repetitions: [todo] repetitions remain, the next one
    has number [repetition]. *)
Fixpoint repetitions_loop (settings : TransposeProgramSettings)
    (todo repetition : nat) (w : World)
    (transferTimings calculationTimings : list Q)
    : (exception + TransposeExecutionTimings) * World :=
  match todo with
  | O => (inr {| transferTimings := transferTimings;
                 calculationTimings := calculationTimings |}, w)
  | S todo' =>
      let transferTime := 0%Q in
      let w1 := perform (EvBarrier repetition) w in
      let startCalculation := time w1 in
      let w2 := perform (EvExchange repetition false)
                        (set_data (exchangeData (data w1)) w1) in
      match compute (dataHandlerIdentifier settings) (data w2) with
      | None => (inl (handler_error (dataHandlerIdentifier settings)), w2)
      | Some d =>
          let w3 := perform (EvCompute repetition) (set_data d w2) in
          let endCalculation := time w3 in
          let calculationTime := seconds (endCalculation - startCalculation) in
          let w4 := perform (EvExchange repetition true)
                            (set_data (exchangeData (data w3)) w3) in
          repetitions_loop settings todo' (S repetition) w4
            (transferTimings ++ [transferTime])
            (calculationTimings ++ [calculationTime])
      end
  end.

(** [transpose::fpga_execution::cpu::calculate] *)
Definition calculate (settings : TransposeProgramSettings) (w : World)
    : (exception + TransposeExecutionTimings) * World :=
  if decide (blockSize (data w) = BLOCK_SIZE)
  then repetitions_loop settings (numRepetitions settings) 0 w [] []
  else (inl block_size_error, w).

(** ** The repetitions of the CPU harness *)

(** The events of one complete repetition. *)
Definition repetition_events (k : nat) : list Event :=
  [EvBarrier k; EvExchange k false; EvCompute k; EvExchange k true].

(** The handlers that the switch has a branch for. *)
Definition supported (handler : DataHandlerType) : Prop :=
  handler = diagonal \/ handler = pq.

(** The calculation time that the repetition started at position [pos] of
    the trace records: from after its barrier to the end of its
    computation. *)
Definition calculation_time (pos : nat) : Q :=
  seconds (cost (S pos) + cost (S (S pos))).

Lemma compute_supported (handler : DataHandlerType) (d : TransposeData) :
  supported handler -> exists d', compute handler d = Some d'.
Proof. intros [-> | ->]; simpl; eauto. Qed.

Lemma repetitions_loop_supported (settings : TransposeProgramSettings)
    (todo repetition : nat) (w : World) (tts cts : list Q) :
  supported (dataHandlerIdentifier settings) ->
  exists w',
    repetitions_loop settings todo repetition w tts cts
    = (inr {| transferTimings := tts ++ replicate todo 0%Q;
              calculationTimings :=
                cts ++ ((fun i => calculation_time (length (trace w) + 4 * i))
                          <$> seq 0 todo) |}, w')
    /\ trace w' = trace w ++ mjoin (repetition_events <$> seq repetition todo).
Proof.
  intros Hsup. revert repetition w tts cts.
  induction todo as [|todo IH]; intros repetition w tts cts.
  - exists w. simpl. by rewrite !app_nil_r.
  - cbn [repetitions_loop].
    destruct (compute_supported (dataHandlerIdentifier settings)
                (data (perform (EvExchange repetition false)
                         (set_data (exchangeData (data (perform (EvBarrier repetition) w)))
                            (perform (EvBarrier repetition) w))))
                Hsup) as [d' ->].
    match goal with
    | |- context [repetitions_loop settings todo (S repetition) ?w4 ?t ?c] =>
        destruct (IH (S repetition) w4 t c) as (w' & Hrun & Htrace)
    end.
    exists w'. rewrite Hrun. split.
    + cbn [perform set_data trace time data].
      rewrite !length_app. cbn [length].
      rewrite <- !app_assoc.
      replace (length (trace w) + 1 + 1) with (S (S (length (trace w)))) by lia.
      replace (length (trace w) + 1) with (S (length (trace w))) by lia.
      assert ((fun i => calculation_time (S (S (length (trace w))) + 1 + 1 + 4 * i))
                <$> seq 0 todo
              = (fun i => calculation_time (length (trace w) + 4 * i))
                <$> seq 1 todo) as ->.
      { rewrite <- fmap_S_seq, <- list_fmap_compose.
        apply list_fmap_ext. intros i x _. cbn [compose]. f_equal. lia. }
      assert (seconds (time w + cost (length (trace w)) + cost (S (length (trace w)))
                       + cost (S (S (length (trace w))))
                       - (time w + cost (length (trace w))))
              = calculation_time (length (trace w) + 4 * 0)) as ->.
      { unfold calculation_time. rewrite Nat.mul_0_r, Nat.add_0_r.
        apply (f_equal seconds). lia. }
      done.
    + rewrite Htrace. cbn [perform set_data trace].
      rewrite <- !app_assoc. done.
Qed.

Lemma repetitions_loop_unsupported (settings : TransposeProgramSettings)
    (todo repetition : nat) (w : World) (tts cts : list Q) :
  dataHandlerIdentifier settings = other_handler ->
  exists w',
    repetitions_loop settings (S todo) repetition w tts cts
    = (inl (handler_error other_handler), w')
    /\ trace w' = trace w ++ [EvBarrier repetition; EvExchange repetition false].
Proof.
  intros Hh. cbn [repetitions_loop]. rewrite Hh. simpl.
  eexists. split; [reflexivity |]. simpl. by rewrite <- app_assoc.
Qed.

(** ** The block size check *)

Lemma handler_error_ne (handler : DataHandlerType) :
  handler_error handler <> block_size_error.
Proof.
  unfold handler_error, block_size_error. intros Heq. discriminate Heq.
Qed.

(** C5.  With a block size other than [BLOCK_SIZE], [calculate] throws the
    block size error at once: no barrier, exchange or computation has
    happened and the data, the clock and the trace are as before.  With
    the block size equal to [BLOCK_SIZE] it never ends in that error. *)
Theorem calculate_block_size_check (settings : TransposeProgramSettings)
    (w : World) :
  (blockSize (data w) <> BLOCK_SIZE ->
   calculate settings w = (inl block_size_error, w))
  /\ (blockSize (data w) = BLOCK_SIZE ->
      (calculate settings w).1 <> inl block_size_error).
Proof.
  unfold calculate. split; intros Hsize.
  - by destruct (decide (blockSize (data w) = BLOCK_SIZE)).
  - destruct (decide (blockSize (data w) = BLOCK_SIZE)) as [_ | Hne]; [| done].
    destruct (dataHandlerIdentifier settings) eqn:Hh.
    + destruct (repetitions_loop_supported settings (numRepetitions settings)
                  0 w [] []) as (w' & -> & _); [left; exact Hh | done].
    + destruct (repetitions_loop_supported settings (numRepetitions settings)
                  0 w [] []) as (w' & -> & _); [right; exact Hh | done].
    + destruct (numRepetitions settings) as [|todo]; [done |].
      destruct (repetitions_loop_unsupported settings todo 0 w [] [] Hh)
        as (w' & -> & _).
      simpl. intros Heq. apply (handler_error_ne other_handler). congruence.
Qed.

(** ** The barrier comes first *)

Definition repetition_of (ev : Event) : nat :=
  match ev with
  | EvBarrier k | EvExchange k _ | EvCompute k => k
  end.

(** Every event of a trace comes at or after a barrier of its own
    repetition. *)
Definition synchronised (tr : list Event) : Prop :=
  forall j ev, tr !! j = Some ev ->
    exists i, i <= j /\ tr !! i = Some (EvBarrier (repetition_of ev)).

Lemma synchronised_nil : synchronised [].
Proof. intros j ev Hj. by rewrite lookup_nil in Hj. Qed.

Lemma synchronised_app (tr1 tr2 : list Event) :
  synchronised tr1 -> synchronised tr2 -> synchronised (tr1 ++ tr2).
Proof.
  intros H1 H2 j ev Hj. apply lookup_app_Some in Hj as [Hj | [Hlen Hj]].
  - destruct (H1 j ev Hj) as (i & Hi & Hb). exists i. split; [done |].
    by apply lookup_app_l_Some.
  - destruct (H2 _ ev Hj) as (i & Hi & Hb). exists (length tr1 + i).
    split; [lia |]. rewrite lookup_app_r by lia.
    by replace (length tr1 + i - length tr1) with i by lia.
Qed.

Lemma synchronised_prefix (k : nat) (tr : list Event) :
  (forall ev, ev ∈ tr -> repetition_of ev = k) ->
  synchronised (EvBarrier k :: tr).
Proof.
  intros Hk j ev Hj. exists 0. split; [lia |]. simpl.
  destruct j as [|j]; simpl in Hj.
  - by injection Hj as <-.
  - by rewrite (Hk ev) by (by eapply list_elem_of_lookup_2).
Qed.

Lemma repetition_of_events (k : nat) (ev : Event) :
  ev ∈ repetition_events k -> repetition_of ev = k.
Proof.
  intros Hin.
  by repeat (apply elem_of_cons in Hin as [-> | Hin]; [done |]);
    apply elem_of_nil in Hin.
Qed.

Lemma synchronised_repetition (k : nat) : synchronised (repetition_events k).
Proof.
  apply synchronised_prefix. intros ev Hin.
  apply repetition_of_events. by right.
Qed.

Lemma synchronised_repetitions (ks : list nat) :
  synchronised (mjoin (repetition_events <$> ks)).
Proof.
  induction ks as [|k ks IH]; [apply synchronised_nil |].
  rewrite fmap_cons. apply synchronised_app; [apply synchronised_repetition | done].
Qed.

Lemma calculate_synchronised (settings : TransposeProgramSettings) (w : World) :
  trace w = [] -> synchronised (trace (calculate settings w).2).
Proof.
  intros Hfresh. unfold calculate.
  destruct (decide (blockSize (data w) = BLOCK_SIZE)) as [_ | _];
    [| simpl; rewrite Hfresh; apply synchronised_nil].
  destruct (dataHandlerIdentifier settings) eqn:Hh.
  - destruct (repetitions_loop_supported settings (numRepetitions settings)
                0 w [] []) as (w' & -> & Htrace); [left; exact Hh |].
    simpl. rewrite Htrace, Hfresh. apply synchronised_repetitions.
  - destruct (repetitions_loop_supported settings (numRepetitions settings)
                0 w [] []) as (w' & -> & Htrace); [right; exact Hh |].
    simpl. rewrite Htrace, Hfresh. apply synchronised_repetitions.
  - destruct (numRepetitions settings) as [|todo].
    + simpl. rewrite Hfresh. apply synchronised_nil.
    + destruct (repetitions_loop_unsupported settings todo 0 w [] [] Hh)
        as (w' & -> & Htrace).
      simpl. rewrite Htrace, Hfresh. apply synchronised_prefix. intros ev Hin.
      by repeat (apply elem_of_cons in Hin as [-> | Hin]; [done |]);
        apply elem_of_nil in Hin.
Qed.

(** On one node, in the order of the program: every exchange and every
    computation of a repetition comes strictly after a barrier of that
    repetition. *)
Lemma barrier_precedes_traffic (settings : TransposeProgramSettings)
    (w : World) (j k : nat) (ev : Event) :
  trace w = [] ->
  trace (calculate settings w).2 !! j = Some ev ->
  (exists back, ev = EvExchange k back) \/ ev = EvCompute k ->
  exists i, i < j /\ trace (calculate settings w).2 !! i = Some (EvBarrier k).
Proof.
  intros Hfresh Hj Hev.
  destruct (calculate_synchronised settings w Hfresh j ev Hj) as (i & Hi & Hb).
  assert (repetition_of ev = k) as Hk by (by destruct Hev as [[back ->] | ->]).
  rewrite Hk in Hb. exists i. split; [| done].
  destruct (decide (i = j)) as [-> | Hne]; [| lia].
  rewrite Hj in Hb. injection Hb as ->.
  by destruct Hev as [[back Hev] | Hev].
Qed.

(** ** What the timings account for *)

(** The ticks spent in the events of [tr] that satisfy [P], when the first
    event of [tr] is operation number [pos] of the run. *)
Fixpoint spent_from (P : Event -> bool) (pos : nat) (tr : list Event) : Z :=
  match tr with
  | [] => 0
  | ev :: tr' => (if P ev then cost pos else 0) + spent_from P (S pos) tr'
  end.

Definition spent (P : Event -> bool) (tr : list Event) : Z :=
  spent_from P 0 tr.

(** The exchanges of repetition [k], its computation, and the span that its
    calculation time covers: the exchange before the computation and the
    computation. *)
Definition is_exchange (k : nat) (ev : Event) : bool :=
  match ev with EvExchange k' _ => k' =? k | _ => false end.

Definition is_compute (k : nat) (ev : Event) : bool :=
  match ev with EvCompute k' => k' =? k | _ => false end.

Definition in_calculation_span (k : nat) (ev : Event) : bool :=
  match ev with
  | EvExchange k' false | EvCompute k' => k' =? k
  | _ => false
  end.

Lemma spent_from_app (P : Event -> bool) (pos : nat) (tr1 tr2 : list Event) :
  spent_from P pos (tr1 ++ tr2)
  = (spent_from P pos tr1 + spent_from P (pos + length tr1) tr2)%Z.
Proof.
  revert pos. induction tr1 as [|ev tr1 IH]; intros pos; simpl.
  - by rewrite Nat.add_0_r.
  - rewrite IH. replace (S pos + length tr1) with (pos + S (length tr1)) by lia.
    lia.
Qed.

Lemma spent_from_none (P : Event -> bool) (pos : nat) (tr : list Event) :
  (forall ev, ev ∈ tr -> P ev = false) -> spent_from P pos tr = 0%Z.
Proof.
  revert pos. induction tr as [|ev tr IH]; intros pos Hnone; simpl; [done |].
  rewrite (Hnone ev) by (by left).
  rewrite IH; [done |]. intros ev' Hin. apply Hnone. by right.
Qed.

Lemma spent_from_other_repetitions (P : Event -> bool) (k pos : nat)
    (ks : list nat) :
  (forall ev, P ev = true -> repetition_of ev = k) -> k ∉ ks ->
  spent_from P pos (mjoin (repetition_events <$> ks)) = 0%Z.
Proof.
  intros HP Hk. apply spent_from_none. intros ev Hin.
  apply list_elem_of_join in Hin as (evs & Hev & Hevs).
  apply list_elem_of_fmap in Hevs as (k' & -> & Hk').
  destruct (P ev) eqn:HPev; [| done].
  apply HP in HPev. exfalso. apply Hk.
  apply repetition_of_events in Hev. congruence.
Qed.

Lemma spent_from_repetitions (P : Event -> bool) (k todo repetition pos : nat) :
  (forall ev, P ev = true -> repetition_of ev = k) ->
  repetition <= k < repetition + todo ->
  spent_from P pos (mjoin (repetition_events <$> seq repetition todo))
  = spent_from P (pos + 4 * (k - repetition)) (repetition_events k).
Proof.
  intros HP. revert repetition pos.
  induction todo as [|todo IH]; intros repetition pos Hk; [lia |].
  cbn [seq]. rewrite fmap_cons. cbn [mjoin list_join].
  rewrite spent_from_app.
  destruct (decide (repetition = k)) as [-> | Hne].
  - rewrite (spent_from_other_repetitions P k); [| done |].
    + rewrite Nat.sub_diag, Nat.mul_0_r, Nat.add_0_r. lia.
    + intros Hin%elem_of_seq. lia.
  - rewrite (spent_from_none P pos (repetition_events repetition)).
    + rewrite IH by lia. simpl length.
      by replace (pos + 4 + 4 * (k - S repetition))
        with (pos + 4 * (k - repetition)) by lia.
    + intros ev Hin. destruct (P ev) eqn:HPev; [| done].
      apply HP in HPev. exfalso. apply Hne.
      apply repetition_of_events in Hin. congruence.
Qed.

Lemma in_calculation_span_repetition (k : nat) (ev : Event) :
  in_calculation_span k ev = true -> repetition_of ev = k.
Proof. destruct ev as [k' | k' [] | k']; simpl; try done; by intros ?%Nat.eqb_eq. Qed.

(** C4, as the harness has it.  On a run that completes, the transfer time
    of every repetition is zero, and its calculation time is the time
    spent in the exchange before the computation and in the computation;
    the time of the transfer back is in neither. *)
Theorem calculate_time_accounting (settings : TransposeProgramSettings)
    (w : World) :
  blockSize (data w) = BLOCK_SIZE ->
  supported (dataHandlerIdentifier settings) ->
  trace w = [] ->
  exists timings,
    (calculate settings w).1 = inr timings
    /\ forall k, k < numRepetitions settings ->
         transferTimings timings !! k = Some 0%Q
         /\ calculationTimings timings !! k
            = Some (seconds (spent (in_calculation_span k)
                                   (trace (calculate settings w).2))).
Proof.
  intros Hsize Hsup Hfresh. unfold calculate.
  destruct (decide (blockSize (data w) = BLOCK_SIZE)) as [_ | Hne]; [| done].
  destruct (repetitions_loop_supported settings (numRepetitions settings)
              0 w [] [] Hsup) as (w' & -> & Htrace).
  eexists. split; [reflexivity |]. intros k Hk. cbn [fst snd transferTimings
    calculationTimings]. rewrite Htrace, Hfresh, !app_nil_l. split.
  - by rewrite lookup_replicate_2.
  - rewrite list_lookup_fmap, lookup_seq_lt by done. cbn [fmap option_fmap option_map].
    f_equal. unfold calculation_time, spent.
    rewrite (spent_from_repetitions (in_calculation_span k) k)
      by (apply in_calculation_span_repetition || lia).
    cbn [repetition_events spent_from in_calculation_span].
    rewrite Nat.eqb_refl. cbn [length]. apply (f_equal seconds).
    rewrite !Nat.add_0_l, Nat.sub_0_r. lia.
Qed.

Lemma calculation_time_nonneg (pos : nat) :
  (forall k, (0 <= cost k)%Z) -> (0 <= calculation_time pos)%Q.
Proof.
  intros Hcost. unfold calculation_time, seconds, Qle. cbn [Qnum Qden].
  pose proof (Hcost (S pos)). pose proof (Hcost (S (S pos))). lia.
Qed.

(** X19.  A run that completes returns one transfer time and one
    calculation time per repetition, none of them negative when no
    operation takes negative time. *)
Lemma cpu_timing_entries (settings : TransposeProgramSettings)
    (w : World) :
  blockSize (data w) = BLOCK_SIZE ->
  supported (dataHandlerIdentifier settings) ->
  (forall k, (0 <= cost k)%Z) ->
  exists timings,
    (calculate settings w).1 = inr timings
    /\ length (transferTimings timings) = numRepetitions settings
    /\ length (calculationTimings timings) = numRepetitions settings
    /\ Forall (Qle 0) (transferTimings timings)
    /\ Forall (Qle 0) (calculationTimings timings).
Proof.
  intros Hsize Hsup Hcost. unfold calculate.
  destruct (decide (blockSize (data w) = BLOCK_SIZE)) as [_ | Hne]; [| done].
  destruct (repetitions_loop_supported settings (numRepetitions settings)
              0 w [] [] Hsup) as (w' & -> & _).
  eexists. split; [reflexivity |]. simpl.
  rewrite length_replicate, length_fmap, length_seq.
  split; [done |]. split; [done |]. split.
  - apply Forall_replicate. apply Qle_refl.
  - apply Forall_fmap, Forall_forall. intros i _.
    by apply calculation_time_nonneg.
Qed.

(** ** What the two branches of the switch compute *)

(** A loop that stores [val x] at [pos x] for every [x] of a list, when
    stores to the same place store the same value: the order of the list
    does not show in the result. *)
Lemma fold_insert_spec {X : Type} (pos : X -> nat) (val : X -> Q)
    (l : list X) (C : list Q) :
  (forall x, x ∈ l -> pos x < length C) ->
  (forall x y, x ∈ l -> y ∈ l -> pos x = pos y -> val x = val y) ->
  let out := fold_left (fun C x => <[pos x := val x]> C) l C in
  length out = length C
  /\ (forall x, x ∈ l -> out !!! pos x = val x)
  /\ (forall p, (forall x, x ∈ l -> pos x <> p) -> out !!! p = C !!! p).
Proof.
  intros Hrange Hsame. cbn zeta.
  induction l as [|x l IH] using rev_ind.
  - simpl. split; [done |]. split; [| done].
    intros x Hin. by apply elem_of_nil in Hin.
  - rewrite fold_left_app. cbn [fold_left].
    destruct IH as (Hlen & Hhit & Hmiss).
    { intros y Hy. apply Hrange, elem_of_app. by left. }
    { intros y z Hy Hz. apply Hsame; apply elem_of_app; by left. }
    rewrite length_insert. split; [done |]. split.
    + intros y Hy. destruct (decide (pos x = pos y)) as [Heq | Hne].
      * rewrite <- Heq, list_lookup_total_insert_eq.
        -- apply Hsame; [apply elem_of_app; right; by left | done..].
        -- rewrite Hlen. apply Hrange, elem_of_app. right. by left.
      * rewrite list_lookup_total_insert_ne by done.
        apply elem_of_app in Hy as [Hy | Hy]; [by apply Hhit |].
        apply list_elem_of_singleton in Hy. by subst.
    + intros p Hp. rewrite list_lookup_total_insert_ne.
      * apply Hmiss. intros y Hy. apply Hp, elem_of_app. by left.
      * apply Hp, elem_of_app. right. by left.
Qed.

Lemma fold_insert_same_elements {X : Type} (pos : X -> nat) (val : X -> Q)
    (l l' : list X) (C : list Q) :
  (forall x, x ∈ l <-> x ∈ l') ->
  (forall x, x ∈ l -> pos x < length C) ->
  (forall x y, x ∈ l -> y ∈ l -> pos x = pos y -> val x = val y) ->
  fold_left (fun C x => <[pos x := val x]> C) l C
  = fold_left (fun C x => <[pos x := val x]> C) l' C.
Proof.
  intros Hsame Hrange Hval.
  destruct (fold_insert_spec pos val l C Hrange Hval) as (Hlen & Hhit & Hmiss).
  destruct (fold_insert_spec pos val l' C) as (Hlen' & Hhit' & Hmiss').
  { intros x Hx. by apply Hrange, Hsame. }
  { intros x y Hx Hy. apply Hval; by apply Hsame. }
  apply (list_eq_same_length _ _ (length C)); [done | done |].
  intros p a a' Hp Ha Ha'.
  apply list_lookup_total_correct in Ha, Ha'. subst a a'.
  destruct (decide (p ∈ pos <$> l)) as [Hin | Hout].
  - apply list_elem_of_fmap in Hin as (x & -> & Hx).
    rewrite Hhit, Hhit'; [done | by apply Hsame | done].
  - rewrite Hmiss, Hmiss'; [done | |].
    + intros x Hx <-. apply Hout, list_elem_of_fmap. exists x.
      split; [done | by apply Hsame].
    + intros x Hx <-. apply Hout, list_elem_of_fmap. by exists x.
Qed.

Lemma elem_of_offsets (count step x : nat) :
  x ∈ offsets count step <-> step <> 0 /\ exists k, k < count /\ x = k * step.
Proof.
  unfold offsets. destruct (decide (step = 0)) as [-> | Hstep].
  - split; [by intros ?%elem_of_nil | by intros [? _]].
  - rewrite list_elem_of_fmap. split.
    + intros (k & -> & Hk%elem_of_seq). split; [done |]. exists k. split; [lia | done].
    + intros (_ & k & Hk & ->). exists k. split; [done |]. apply elem_of_seq. lia.
Qed.

(** The stores of the [diagonal] branch: one for every entry [(i, j)] of
    the block at every offset. *)
Definition diagonal_stores (offs : list nat) : list (nat * (nat * nat)) :=
  offset ← offs; (fun p => (offset, p)) <$> square BLOCK_SIZE.

Definition diagonal_pos (t : nat * (nat * nat)) : nat :=
  t.1 + t.2.1 * BLOCK_SIZE + t.2.2.

Definition diagonal_val (d : TransposeData) (t : nat * (nat * nat)) : Q :=
  (1 * A d !!! (t.1 + t.2.2 * BLOCK_SIZE + t.2.1)%nat
   + 1 * B d !!! (t.1 + t.2.1 * BLOCK_SIZE + t.2.2)%nat)%Q.

(** The loop of the [diagonal] branch over any sequence of offsets. *)
Definition diagonal_loop (d : TransposeData) (offs : list nat) : list Q :=
  fold_left
    (fun res offset =>
       mkl_somatadd_RTN BLOCK_SIZE BLOCK_SIZE 1 (A d) offset BLOCK_SIZE
                        1 (B d) offset BLOCK_SIZE res offset BLOCK_SIZE)
    offs (result d).

Lemma compute_diagonal_loop (d : TransposeData) :
  compute_diagonal d
  = diagonal_loop d (offsets (numBlocks d) (BLOCK_SIZE * BLOCK_SIZE)).
Proof. reflexivity. Qed.

Lemma diagonal_loop_stores (d : TransposeData) (offs : list nat) :
  diagonal_loop d offs
  = fold_left (fun C t => <[diagonal_pos t := diagonal_val d t]> C)
              (diagonal_stores offs) (result d).
Proof.
  unfold diagonal_loop, diagonal_stores. generalize (result d) as C.
  induction offs as [|offset offs IH]; intros C; [done |].
  rewrite bind_cons, fold_left_app, fold_left_fmap. cbn [fold_left].
  rewrite IH. f_equal. unfold mkl_somatadd_RTN.
  exact (fold_left_nested
           (fun C i j =>
              <[offset + i * BLOCK_SIZE + j :=
                  (1 * A d !!! (offset + j * BLOCK_SIZE + i)%nat
                   + 1 * B d !!! (offset + i * BLOCK_SIZE + j)%nat)%Q]> C)
           BLOCK_SIZE C).
Qed.

Lemma elem_of_diagonal_stores (offs : list nat) (t : nat * (nat * nat)) :
  t ∈ diagonal_stores offs
  <-> t.1 ∈ offs /\ t.2.1 < BLOCK_SIZE /\ t.2.2 < BLOCK_SIZE.
Proof.
  unfold diagonal_stores. rewrite list_elem_of_bind. split.
  - intros (offset & Hin & Hoff).
    apply list_elem_of_fmap in Hin as ([i j] & -> & Hp).
    apply elem_of_square in Hp. done.
  - destruct t as [offset [i j]]. simpl. intros (Hoff & Hi & Hj).
    exists offset. split; [| done]. apply list_elem_of_fmap.
    exists (i, j). split; [done |]. by apply elem_of_square.
Qed.

Lemma diagonal_stores_range (d : TransposeData) (t : nat * (nat * nat)) :
  numBlocks d * (BLOCK_SIZE * BLOCK_SIZE) <= length (result d) ->
  t ∈ diagonal_stores (offsets (numBlocks d) (BLOCK_SIZE * BLOCK_SIZE)) ->
  diagonal_pos t < length (result d).
Proof.
  intros Hlen (Hoff & Hi & Hj)%elem_of_diagonal_stores.
  apply elem_of_offsets in Hoff as (_ & k & Hk & Hoff).
  unfold diagonal_pos. rewrite Hoff. nia.
Qed.

Lemma diagonal_stores_apart (d : TransposeData) (t t' : nat * (nat * nat)) :
  t ∈ diagonal_stores (offsets (numBlocks d) (BLOCK_SIZE * BLOCK_SIZE)) ->
  t' ∈ diagonal_stores (offsets (numBlocks d) (BLOCK_SIZE * BLOCK_SIZE)) ->
  diagonal_pos t = diagonal_pos t' -> diagonal_val d t = diagonal_val d t'.
Proof.
  intros (Hoff & Hi & Hj)%elem_of_diagonal_stores
         (Hoff' & Hi' & Hj')%elem_of_diagonal_stores.
  apply elem_of_offsets in Hoff as (_ & k & Hk & Hoff).
  apply elem_of_offsets in Hoff' as (_ & k' & Hk' & Hoff').
  destruct t as [offset [i j]], t' as [offset' [i' j']].
  unfold diagonal_pos, diagonal_val. simpl in *. subst offset offset'.
  intros Heq.
  assert (k = k') as -> by nia.
  assert (i = i') as -> by nia.
  assert (j = j') as -> by lia.
  done.
Qed.


(** X15.  The blocks of the [diagonal] branch can be processed in any
    order: the loop over any rearrangement of the offsets leaves the
    same result. *)
Theorem compute_diagonal_any_order (d : TransposeData) (offs : list nat) :
  numBlocks d * (BLOCK_SIZE * BLOCK_SIZE) <= length (result d) ->
  offs ≡ₚ offsets (numBlocks d) (BLOCK_SIZE * BLOCK_SIZE) ->
  diagonal_loop d offs = compute_diagonal d.
Proof.
  intros Hlen Hperm. rewrite compute_diagonal_loop, !diagonal_loop_stores.
  symmetry. apply fold_insert_same_elements.
  - intros t. rewrite !elem_of_diagonal_stores. by rewrite Hperm.
  - intros t Ht. by apply diagonal_stores_range.
  - intros t t'. apply diagonal_stores_apart.
Qed.

(** The stores of the [pq] branch: one for every entry of the block at
    every pair of offsets. *)
Definition pq_stores (yoffsets xoffsets : list nat)
    : list (nat * nat * (nat * nat)) :=
  yoffset ← yoffsets; xoffset ← xoffsets;
  (fun p => (yoffset, xoffset, p)) <$> square BLOCK_SIZE.

Definition pq_pos (width : nat) (t : nat * nat * (nat * nat)) : nat :=
  t.1.1 * BLOCK_SIZE * width + t.1.2
  + t.2.1 * (BLOCK_SIZE * width) + t.2.2.

Definition pq_val (d : TransposeData) (width : nat)
    (t : nat * nat * (nat * nat)) : Q :=
  (1 * A d !!! (t.1.2 * BLOCK_SIZE * width + t.1.1
                + t.2.2 * (BLOCK_SIZE * width) + t.2.1)%nat
   + 1 * B d !!! (t.1.1 * BLOCK_SIZE * width + t.1.2
                  + t.2.1 * (BLOCK_SIZE * width) + t.2.2)%nat)%Q.

(** The loops of the [pq] branch with the outer one over any sequence of
    offsets. *)
Definition pq_loop (d : TransposeData) (yoffsets : list nat) : list Q :=
  let local_matrix_width := Nat.sqrt (numBlocks d) in
  fold_left
    (fun res yoffset =>
       fold_left
         (fun res xoffset =>
            let toffset := xoffset * BLOCK_SIZE * local_matrix_width + yoffset in
            let offset := yoffset * BLOCK_SIZE * local_matrix_width + xoffset in
            mkl_somatadd_RTN BLOCK_SIZE BLOCK_SIZE
              1 (A d) toffset (BLOCK_SIZE * local_matrix_width)
              1 (B d) offset (BLOCK_SIZE * local_matrix_width)
              res offset (BLOCK_SIZE * local_matrix_width))
         (offsets local_matrix_width BLOCK_SIZE) res)
    yoffsets (result d).

Lemma compute_pq_loop (d : TransposeData) :
  compute_pq d = pq_loop d (offsets (Nat.sqrt (numBlocks d)) BLOCK_SIZE).
Proof. reflexivity. Qed.

Lemma pq_loop_stores (d : TransposeData) (yoffsets : list nat) :
  pq_loop d yoffsets
  = fold_left
      (fun C t => <[pq_pos (Nat.sqrt (numBlocks d)) t
                      := pq_val d (Nat.sqrt (numBlocks d)) t]> C)
      (pq_stores yoffsets (offsets (Nat.sqrt (numBlocks d)) BLOCK_SIZE))
      (result d).
Proof.
  unfold pq_loop, pq_stores. cbn zeta.
  generalize (offsets (Nat.sqrt (numBlocks d)) BLOCK_SIZE) as xoffsets.
  intros xoffsets. generalize (result d) as C.
  induction yoffsets as [|yoffset yoffsets IH]; intros C; [done |].
  rewrite bind_cons, fold_left_app. cbn [fold_left].
  rewrite IH. f_equal. clear IH. revert C.
  induction xoffsets as [|xoffset xoffsets IH]; intros C; [done |].
  rewrite bind_cons, fold_left_app, fold_left_fmap. cbn [fold_left].
  rewrite IH. f_equal. unfold mkl_somatadd_RTN.
  exact (fold_left_nested
           (fun C i j =>
              <[yoffset * BLOCK_SIZE * Nat.sqrt (numBlocks d) + xoffset
                + i * (BLOCK_SIZE * Nat.sqrt (numBlocks d)) + j :=
                  (1 * A d !!! (xoffset * BLOCK_SIZE * Nat.sqrt (numBlocks d)
                                + yoffset
                                + j * (BLOCK_SIZE * Nat.sqrt (numBlocks d))
                                + i)%nat
                   + 1 * B d !!! (yoffset * BLOCK_SIZE * Nat.sqrt (numBlocks d)
                                  + xoffset
                                  + i * (BLOCK_SIZE * Nat.sqrt (numBlocks d))
                                  + j)%nat)%Q]> C)
           BLOCK_SIZE C).
Qed.

Lemma elem_of_pq_stores (yoffsets xoffsets : list nat)
    (t : nat * nat * (nat * nat)) :
  t ∈ pq_stores yoffsets xoffsets
  <-> t.1.1 ∈ yoffsets /\ t.1.2 ∈ xoffsets
      /\ t.2.1 < BLOCK_SIZE /\ t.2.2 < BLOCK_SIZE.
Proof.
  unfold pq_stores. rewrite list_elem_of_bind. split.
  - intros (yoffset & Hin & Hy).
    apply list_elem_of_bind in Hin as (xoffset & Hin & Hx).
    apply list_elem_of_fmap in Hin as ([i j] & -> & Hp).
    apply elem_of_square in Hp. done.
  - destruct t as [[yoffset xoffset] [i j]]. simpl. intros (Hy & Hx & Hi & Hj).
    exists yoffset. split; [| done]. apply list_elem_of_bind.
    exists xoffset. split; [| done]. apply list_elem_of_fmap.
    exists (i, j). split; [done |]. by apply elem_of_square.
Qed.

(** Row and column of the store [t] in the local matrix. *)
Lemma pq_pos_row_column (width : nat) (t : nat * nat * (nat * nat)) :
  pq_pos width t
  = (t.1.1 + t.2.1) * (BLOCK_SIZE * width) + (t.1.2 + t.2.2).
Proof. unfold pq_pos. nia. Qed.

Lemma pq_stores_inside (width : nat) (t : nat * nat * (nat * nat)) :
  t ∈ pq_stores (offsets width BLOCK_SIZE) (offsets width BLOCK_SIZE) ->
  t.1.1 + t.2.1 < BLOCK_SIZE * width /\ t.1.2 + t.2.2 < BLOCK_SIZE * width.
Proof.
  intros (Hy & Hx & Hi & Hj)%elem_of_pq_stores.
  apply elem_of_offsets in Hy as (_ & y & Hy & ->).
  apply elem_of_offsets in Hx as (_ & x & Hx & ->).
  nia.
Qed.

Lemma pq_stores_apart (d : TransposeData) (width : nat)
    (t t' : nat * nat * (nat * nat)) :
  t ∈ pq_stores (offsets width BLOCK_SIZE) (offsets width BLOCK_SIZE) ->
  t' ∈ pq_stores (offsets width BLOCK_SIZE) (offsets width BLOCK_SIZE) ->
  pq_pos width t = pq_pos width t' -> pq_val d width t = pq_val d width t'.
Proof.
  intros [Hr Hc]%pq_stores_inside [Hr' Hc']%pq_stores_inside.
  rewrite !pq_pos_row_column. intros Heq.
  assert (t.1.1 + t.2.1 = t'.1.1 + t'.2.1) as Hrow by nia.
  assert (t.1.2 + t.2.2 = t'.1.2 + t'.2.2) as Hcol by nia.
  unfold pq_val.
  replace (t.1.2 * BLOCK_SIZE * width + t.1.1
           + t.2.2 * (BLOCK_SIZE * width) + t.2.1)
    with ((t.1.2 + t.2.2) * (BLOCK_SIZE * width) + (t.1.1 + t.2.1)) by nia.
  replace (t'.1.2 * BLOCK_SIZE * width + t'.1.1
           + t'.2.2 * (BLOCK_SIZE * width) + t'.2.1)
    with ((t'.1.2 + t'.2.2) * (BLOCK_SIZE * width) + (t'.1.1 + t'.2.1)) by nia.
  replace (t.1.1 * BLOCK_SIZE * width + t.1.2
           + t.2.1 * (BLOCK_SIZE * width) + t.2.2)
    with ((t.1.1 + t.2.1) * (BLOCK_SIZE * width) + (t.1.2 + t.2.2)) by nia.
  replace (t'.1.1 * BLOCK_SIZE * width + t'.1.2
           + t'.2.1 * (BLOCK_SIZE * width) + t'.2.2)
    with ((t'.1.1 + t'.2.1) * (BLOCK_SIZE * width) + (t'.1.2 + t'.2.2)) by nia.
  by rewrite Hrow, Hcol.
Qed.

Lemma pq_stores_range (d : TransposeData) (t : nat * nat * (nat * nat)) :
  let width := Nat.sqrt (numBlocks d) in
  length (result d) = BLOCK_SIZE * width * (BLOCK_SIZE * width) ->
  t ∈ pq_stores (offsets width BLOCK_SIZE) (offsets width BLOCK_SIZE) ->
  pq_pos width t < length (result d).
Proof.
  intros width Hlen [Hr Hc]%pq_stores_inside.
  rewrite pq_pos_row_column, Hlen. nia.
Qed.


(** X17.  The rows of blocks of the [pq] branch can be processed in any
    order: the loops with the outer one over any rearrangement of the
    offsets leave the same result. *)
Theorem compute_pq_any_order (d : TransposeData) (yoffsets : list nat) :
  let W := BLOCK_SIZE * Nat.sqrt (numBlocks d) in
  length (result d) = W * W ->
  yoffsets ≡ₚ offsets (Nat.sqrt (numBlocks d)) BLOCK_SIZE ->
  pq_loop d yoffsets = compute_pq d.
Proof.
  intros W Hlen Hperm. rewrite compute_pq_loop, !pq_loop_stores.
  symmetry. apply fold_insert_same_elements.
  - intros t. rewrite !elem_of_pq_stores. by rewrite Hperm.
  - intros t Ht. by apply pq_stores_range.
  - intros t t'. apply pq_stores_apart.
Qed.

(** ** A data handler without a branch *)

(** X18.  With the right block size and a data handler that the switch has
    no branch for, a run of no repetition returns empty timings and does
    nothing; a run of at least one repetition ends in the data handler
    error, but only after the barrier and the first exchange of the first
    repetition: the data has been exchanged once, and no computation has
    happened. *)
Theorem unsupported_handler_found_late (settings : TransposeProgramSettings)
    (w : World) :
  blockSize (data w) = BLOCK_SIZE ->
  dataHandlerIdentifier settings = other_handler ->
  (numRepetitions settings = 0 ->
   calculate settings w
   = (inr {| transferTimings := []; calculationTimings := [] |}, w))
  /\ (1 <= numRepetitions settings ->
      (calculate settings w).1 = inl (handler_error other_handler)
      /\ trace (calculate settings w).2
         = trace w ++ [EvBarrier 0; EvExchange 0 false]
      /\ data (calculate settings w).2 = exchangeData (data w)
      /\ time (calculate settings w).2
         = (time w + cost (length (trace w))
            + cost (S (length (trace w))))%Z).
Proof.
  intros Hsize Hh. unfold calculate.
  destruct (decide (blockSize (data w) = BLOCK_SIZE)) as [_ | Hne]; [| done].
  split.
  - intros ->. done.
  - intros Hr. destruct (numRepetitions settings) as [|todo]; [lia |].
    cbn [repetitions_loop]. rewrite Hh. cbn [compute fst snd].
    cbn [perform set_data trace data time].
    rewrite length_app, <- app_assoc. cbn [length app].
    by rewrite Nat.add_1_r.
Qed.

End CpuExecution.

(** A run of two repetitions on one block of two by two entries: a barrier
    takes one tick, the exchange before the computation five, the
    computation three and the transfer back seven. *)
Definition sample_data : TransposeData :=
  {| blockSize := 2; numBlocks := 1;
     A := [1; 2; 3; 4]%Q; B := [10; 20; 30; 40]%Q; result := [0; 0; 0; 0]%Q |}.

Definition sample_world : World :=
  {| data := sample_data; time := 0; trace := [] |}.

Definition sample_settings : TransposeProgramSettings :=
  {| numRepetitions := 2; dataHandlerIdentifier := diagonal |}.

Definition sample_cost (k : nat) : Z :=
  match (k mod 4)%nat with
  | 0%nat => 1
  | 1%nat => 5
  | 2%nat => 3
  | _ => 7
  end.

Definition sample_run : (exception + TransposeExecutionTimings) * World :=
  calculate 2 (fun d => d) (fun _ => "other") 1000 sample_cost
            sample_settings sample_world.

Lemma calculate_time_accounting_witness :
  (blockSize (data sample_world) = 2
   /\ supported (dataHandlerIdentifier sample_settings)
   /\ trace sample_world = [])
  /\ exists timings,
       sample_run.1 = inr timings
       /\ forall k, k < numRepetitions sample_settings ->
            transferTimings timings !! k = Some 0%Q
            /\ calculationTimings timings !! k
               = Some (seconds 1000
                         (spent sample_cost (in_calculation_span k)
                                (trace sample_run.2))).
Proof.
  split; [split; [reflexivity | split; [by left | reflexivity]] |].
  exact (calculate_time_accounting 2 (fun d => d) (fun _ => "other") 1000
           sample_cost sample_settings sample_world
           eq_refl (or_introl eq_refl) eq_refl).
Defined.

Lemma cpu_timing_entries_witness :
  (blockSize (data sample_world) = 2
   /\ supported (dataHandlerIdentifier sample_settings)
   /\ (forall k, (0 <= sample_cost k)%Z))
  /\ exists timings,
       sample_run.1 = inr timings
       /\ length (transferTimings timings) = numRepetitions sample_settings
       /\ length (calculationTimings timings) = numRepetitions sample_settings
       /\ Forall (Qle 0) (transferTimings timings)
       /\ Forall (Qle 0) (calculationTimings timings).
Proof.
  assert (forall k, (0 <= sample_cost k)%Z) as Hcost.
  { intros k. unfold sample_cost.
    destruct (k mod 4)%nat as [|[|[|?]]]; lia. }
  split; [split; [reflexivity | split; [by left | exact Hcost]] |].
  exact (cpu_timing_entries 2 (fun d => d) (fun _ => "other") 1000
           sample_cost sample_settings sample_world
           eq_refl (or_introl eq_refl) Hcost).
Defined.

(** Two blocks of two by two entries for the [diagonal] branch, and a
    local matrix of two by two such blocks for the [pq] branch. *)
Definition two_blocks : TransposeData :=
  {| blockSize := 2; numBlocks := 2;
     A := [1; 2; 3; 4; 5; 6; 7; 8]%Q;
     B := [10; 20; 30; 40; 50; 60; 70; 80]%Q;
     result := replicate 8 0%Q |}.

Definition four_blocks : TransposeData :=
  {| blockSize := 2; numBlocks := 4;
     A := (fun k => inject_Z (Z.of_nat k)) <$> seq 0 16;
     B := (fun k => inject_Z (100 * Z.of_nat k)) <$> seq 0 16;
     result := replicate 16 0%Q |}.

Definition unsupported_settings : TransposeProgramSettings :=
  {| numRepetitions := 3; dataHandlerIdentifier := other_handler |}.


Lemma compute_diagonal_any_order_witness :
  (numBlocks two_blocks * (2 * 2) <= length (result two_blocks)
   /\ [4; 0] ≡ₚ offsets (numBlocks two_blocks) (2 * 2))
  /\ diagonal_loop 2 two_blocks [4; 0] = compute_diagonal 2 two_blocks.
Proof.
  assert (numBlocks two_blocks * (2 * 2) <= length (result two_blocks))
    as Hlen by (simpl; lia).
  assert ([4; 0] ≡ₚ offsets (numBlocks two_blocks) (2 * 2)) as Hperm
    by (vm_compute; apply perm_swap).
  split; [by split |].
  exact (compute_diagonal_any_order 2 two_blocks [4; 0] Hlen Hperm).
Defined.


Lemma compute_pq_any_order_witness :
  (length (result four_blocks)
   = 2 * Nat.sqrt (numBlocks four_blocks) * (2 * Nat.sqrt (numBlocks four_blocks))
   /\ [2; 0] ≡ₚ offsets (Nat.sqrt (numBlocks four_blocks)) 2)
  /\ pq_loop 2 four_blocks [2; 0] = compute_pq 2 four_blocks.
Proof.
  assert (length (result four_blocks)
          = 2 * Nat.sqrt (numBlocks four_blocks)
            * (2 * Nat.sqrt (numBlocks four_blocks))) as Hlen by reflexivity.
  assert ([2; 0] ≡ₚ offsets (Nat.sqrt (numBlocks four_blocks)) 2) as Hperm
    by (vm_compute; apply perm_swap).
  split; [by split |].
  exact (compute_pq_any_order 2 four_blocks [2; 0] Hlen Hperm).
Defined.

Lemma unsupported_handler_found_late_witness :
  (blockSize (data sample_world) = 2
   /\ dataHandlerIdentifier unsupported_settings = other_handler)
  /\ (calculate 2 (fun d => d) (fun _ => "other") 1000 sample_cost
        unsupported_settings sample_world).1
     = inl (handler_error (fun _ => "other") other_handler)
  /\ trace (calculate 2 (fun d => d) (fun _ => "other") 1000 sample_cost
              unsupported_settings sample_world).2
     = [EvBarrier 0; EvExchange 0 false].
Proof.
  assert (1 <= numRepetitions unsupported_settings) as Hr by (simpl; lia).
  split; [by split |].
  destruct (proj2 (unsupported_handler_found_late 2 (fun d => d)
                     (fun _ => "other") 1000 sample_cost unsupported_settings
                     sample_world eq_refl eq_refl) Hr)
    as (Herr & Htrace & _).
  split; [exact Herr | exact Htrace].
Defined.

(** On that run the first repetition spends twelve ticks exchanging and
    three computing, but records a transfer time of zero and a calculation
    time of eight ticks: the exchanges are not accounted to the transfer
    time, and the calculation time is not that of the computation alone. *)
Lemma exchange_time_not_in_transfer_time :
  ~ (exists timings,
       sample_run.1 = inr timings
       /\ (transferTimings timings !!! 0%nat
           == seconds 1000 (spent sample_cost (is_exchange 0) (trace sample_run.2)))%Q
       /\ (calculationTimings timings !!! 0%nat
           == seconds 1000 (spent sample_cost (is_compute 0) (trace sample_run.2)))%Q).
Proof.
  intros (timings & Hrun & Htransfer & _).
  vm_compute in Hrun. injection Hrun as <-.
  vm_compute in Htransfer. discriminate Htransfer.
Qed.

Lemma barrier_precedes_traffic_sample :
  (trace sample_world = []
   /\ trace sample_run.2 !! 5 = Some (EvExchange 1 false)
   /\ ((exists back, EvExchange 1 false = EvExchange 1 back)
       \/ EvExchange 1 false = EvCompute 1))
  /\ exists i, i < 5 /\ trace sample_run.2 !! i = Some (EvBarrier 1).
Proof.
  assert ((exists back, EvExchange 1 false = EvExchange 1 back)
          \/ EvExchange 1 false = EvCompute 1) as Hev
    by (left; by exists false).
  split; [split; [reflexivity | split; [reflexivity | exact Hev]] |].
  exact (barrier_precedes_traffic 2 (fun d => d) (fun _ => "other") 1000
           sample_cost sample_settings sample_world 5 1 (EvExchange 1 false)
           eq_refl eq_refl Hev).
Defined.

(** ** All the nodes together *)

(** Every node runs [calculate] on its own data.  What a node has issued so
    far and what it still has to issue make up its trace. *)
Record Node := {
  issued : list Event;
  pending : list Event
}.

Definition is_barrier (ev : Event) : bool :=
  match ev with EvBarrier _ => true | _ => false end.

Definition issue (n : Node) : option (Event * Node) :=
  match pending n with
  | [] => None
  | ev :: rest => Some (ev, {| issued := issued n ++ [ev]; pending := rest |})
  end.

(** Node [p] issues its next event, which is not a barrier. *)
Definition local_step (p : nat) (ns : list Node) : option (list Node) :=
  n ← ns !! p;
  '(ev, n') ← issue n;
  if is_barrier ev then None else Some (<[p := n']> ns).

(** [MPI_Barrier(MPI_COMM_WORLD)] returns on a node only once every node
    has called it: the barrier is one step of all the nodes. *)
Definition barrier_step (ns : list Node) : option (list Node) :=
  mapM (fun n => '(ev, n') ← issue n; if is_barrier ev then Some n' else None) ns.

Definition mpi_step (ns ns' : list Node) : Prop :=
  (exists p, local_step p ns = Some ns') \/ barrier_step ns = Some ns'.

Definition start (tr : list Event) : Node := {| issued := []; pending := tr |}.

(** The number of barriers in a trace, and the traces in which the
    barriers are numbered from zero and every other event belongs to a
    repetition whose barrier is behind it. *)
Fixpoint barrier_count (tr : list Event) : nat :=
  match tr with
  | [] => 0
  | ev :: tr' => (if is_barrier ev then 1 else 0) + barrier_count tr'
  end.

Definition admissible (tr : list Event) (ev : Event) : Prop :=
  match ev with
  | EvBarrier k => k = barrier_count tr
  | _ => repetition_of ev < barrier_count tr
  end.

Inductive valid : list Event -> Prop :=
| valid_nil : valid []
| valid_snoc tr ev : valid tr -> admissible tr ev -> valid (tr ++ [ev]).

Lemma barrier_count_app (tr1 tr2 : list Event) :
  barrier_count (tr1 ++ tr2) = barrier_count tr1 + barrier_count tr2.
Proof. induction tr1 as [|ev tr1 IH]; simpl; [done | rewrite IH; lia]. Qed.

Lemma valid_prefix (tr1 tr2 : list Event) : valid (tr1 ++ tr2) -> valid tr1.
Proof.
  induction tr2 as [|ev tr2 IH] using rev_ind.
  - by rewrite app_nil_r.
  - rewrite app_assoc. intros Hv. apply IH.
    inversion Hv as [Hnil | tr ev' Htr _ Heq].
    + by destruct (tr1 ++ tr2).
    + by apply app_inj_tail in Heq as [-> _].
Qed.

Lemma valid_repetition_lt (tr : list Event) (ev : Event) :
  valid tr -> ev ∈ tr -> is_barrier ev = false ->
  repetition_of ev < barrier_count tr.
Proof.
  induction 1 as [|tr ev' Hv IH Hadm]; intros Hin Hev.
  - by apply elem_of_nil in Hin.
  - rewrite barrier_count_app.
    apply elem_of_app in Hin as [Hin | Hin%list_elem_of_singleton].
    + specialize (IH Hin Hev). lia.
    + subst ev'. destruct ev; simpl in *; try done; lia.
Qed.

Lemma valid_barrier_issued (tr : list Event) (k : nat) :
  valid tr -> k < barrier_count tr -> EvBarrier k ∈ tr.
Proof.
  induction 1 as [|tr ev Hv IH Hadm]; simpl; [lia |].
  rewrite barrier_count_app. intros Hk. apply elem_of_app.
  destruct ev as [k' | k' back | k']; simpl in *.
  - destruct (decide (k = k')) as [-> | Hne].
    + right. by left.
    + left. apply IH. lia.
  - left. apply IH. lia.
  - left. apply IH. lia.
Qed.

Lemma valid_barrier_before (tr : list Event) (j : nat) (ev : Event) :
  valid tr -> tr !! j = Some ev -> is_barrier ev = false ->
  exists i, i < j /\ tr !! i = Some (EvBarrier (repetition_of ev)).
Proof.
  induction 1 as [|tr ev' Hv IH Hadm]; intros Hj Hev; [by rewrite lookup_nil in Hj |].
  apply lookup_app_Some in Hj as [Hj | [Hlen Hj]].
  - destruct (IH Hj Hev) as (i & Hi & Hb). exists i. split; [done |].
    by apply lookup_app_l_Some.
  - apply list_lookup_singleton_Some in Hj as [Hj0 ->].
    assert (repetition_of ev < barrier_count tr) as Hlt
      by (destruct ev; simpl in *; done).
    apply (valid_barrier_issued tr _ Hv) in Hlt.
    apply list_elem_of_lookup in Hlt as [i Hi]. exists i. split.
    + apply lookup_lt_Some in Hi. lia.
    + by apply lookup_app_l_Some.
Qed.

Lemma valid_repetitions (r : nat) :
  valid (mjoin (repetition_events <$> seq 0 r))
  /\ barrier_count (mjoin (repetition_events <$> seq 0 r)) = r.
Proof.
  induction r as [|r [Hv Hc]]; [split; [constructor | done] |].
  rewrite seq_S, fmap_app, join_app. simpl.
  split; [| rewrite barrier_count_app, Hc; simpl; lia].
  change [EvBarrier r; EvExchange r false; EvCompute r; EvExchange r true]
    with ([EvBarrier r] ++ [EvExchange r false] ++ [EvCompute r]
            ++ [EvExchange r true]).
  rewrite !app_assoc.
  repeat (apply valid_snoc; [| simpl; rewrite ?barrier_count_app, ?Hc; simpl; lia]).
  exact Hv.
Qed.

(** The trace of a run of [calculate] is of that kind. *)
Lemma calculate_trace_valid (BLOCK_SIZE : nat)
    (exchangeData : TransposeData -> TransposeData)
    (handlerToString : DataHandlerType -> string)
    (ticks_per_second : positive) (cost : nat -> Z)
    (settings : TransposeProgramSettings) (w : World) :
  trace w = [] ->
  valid (trace (calculate BLOCK_SIZE exchangeData handlerToString
                  ticks_per_second cost settings w).2).
Proof.
  intros Hfresh. unfold calculate.
  destruct (decide (blockSize (data w) = BLOCK_SIZE)) as [_ | _];
    [| simpl; rewrite Hfresh; constructor].
  destruct (dataHandlerIdentifier settings) eqn:Hh.
  - destruct (repetitions_loop_supported BLOCK_SIZE exchangeData handlerToString
                ticks_per_second cost settings (numRepetitions settings)
                0 w [] []) as (w' & -> & Htrace); [left; exact Hh |].
    simpl. rewrite Htrace, Hfresh. apply valid_repetitions.
  - destruct (repetitions_loop_supported BLOCK_SIZE exchangeData handlerToString
                ticks_per_second cost settings (numRepetitions settings)
                0 w [] []) as (w' & -> & Htrace); [right; exact Hh |].
    simpl. rewrite Htrace, Hfresh. apply valid_repetitions.
  - destruct (numRepetitions settings) as [|todo].
    + simpl. rewrite Hfresh. constructor.
    + destruct (repetitions_loop_unsupported BLOCK_SIZE exchangeData
                  handlerToString ticks_per_second cost settings todo 0 w [] [] Hh)
        as (w' & -> & Htrace).
      simpl. rewrite Htrace, Hfresh.
      change [EvBarrier 0; EvExchange 0 false]
        with (([] ++ [EvBarrier 0]) ++ [EvExchange 0 false]).
      repeat (apply valid_snoc; [| simpl; lia]). constructor.
Qed.

(** What holds of the nodes at every moment: the trace of every node is
    valid, and all the nodes have passed the same number of barriers. *)
Definition in_step (ns : list Node) : Prop :=
  (forall p n, ns !! p = Some n -> valid (issued n ++ pending n))
  /\ exists c, forall p n, ns !! p = Some n -> barrier_count (issued n) = c.

Lemma issue_Some (n n' : Node) (ev : Event) :
  issue n = Some (ev, n') ->
  issued n' = issued n ++ [ev]
  /\ issued n' ++ pending n' = issued n ++ pending n.
Proof.
  unfold issue. destruct (pending n) as [|ev' rest]; [done |].
  intros [= <- <-]. simpl. by rewrite <- app_assoc.
Qed.

Lemma in_step_start (traces : list (list Event)) :
  Forall valid traces -> in_step (start <$> traces).
Proof.
  intros Hv. split.
  - intros p n Hp. apply list_lookup_fmap_Some in Hp as (tr & -> & Hp).
    simpl. eapply Forall_lookup_1; eauto.
  - exists 0. intros p n Hp.
    by apply list_lookup_fmap_Some in Hp as (tr & -> & Hp).
Qed.

Lemma in_step_local (p : nat) (ns ns' : list Node) :
  in_step ns -> local_step p ns = Some ns' -> in_step ns'.
Proof.
  intros [Hv [c Hc]]. unfold local_step.
  destruct (ns !! p) as [n|] eqn:Hp; [| done]. simpl.
  destruct (issue n) as [[ev n']|] eqn:Hissue; [| done]. simpl.
  destruct (is_barrier ev) eqn:Hev; [done |]. intros [= <-].
  destruct (issue_Some n n' ev Hissue) as [Hissued Hsame].
  split.
  - intros p' m Hp'. apply list_lookup_insert_Some in Hp' as [(<- & <- & _) | [_ Hp']].
    + rewrite Hsame. by eapply Hv.
    + by eapply Hv.
  - exists c. intros p' m Hp'.
    apply list_lookup_insert_Some in Hp' as [(<- & <- & _) | [_ Hp']].
    + rewrite Hissued, barrier_count_app. simpl. rewrite Hev.
      rewrite (Hc p n Hp). simpl. lia.
    + by eapply Hc.
Qed.

Lemma in_step_barrier (ns ns' : list Node) :
  in_step ns -> barrier_step ns = Some ns' -> in_step ns'.
Proof.
  intros [Hv [c Hc]] Hstep. unfold barrier_step in Hstep.
  apply mapM_Some_1 in Hstep.
  assert (forall p n', ns' !! p = Some n' ->
            exists n ev, ns !! p = Some n /\ issue n = Some (ev, n')
                         /\ is_barrier ev = true) as Hback.
  { intros p n' Hp'.
    destruct (Forall2_lookup_r _ _ _ _ _ Hstep Hp') as (n & Hp & Hn).
    destruct (issue n) as [[ev m]|] eqn:Hissue; [| done]. simpl in Hn.
    destruct (is_barrier ev) eqn:Hev; [| done]. injection Hn as ->.
    by exists n, ev. }
  split.
  - intros p n' Hp'. destruct (Hback p n' Hp') as (n & ev & Hp & Hissue & _).
    destruct (issue_Some n n' ev Hissue) as [_ ->]. by eapply Hv.
  - exists (S c). intros p n' Hp'.
    destruct (Hback p n' Hp') as (n & ev & Hp & Hissue & Hev).
    destruct (issue_Some n n' ev Hissue) as [-> _].
    rewrite barrier_count_app. simpl. rewrite Hev, (Hc p n Hp). lia.
Qed.

Lemma in_step_reachable (traces : list (list Event)) (ns : list Node) :
  Forall valid traces -> rtc mpi_step (start <$> traces) ns -> in_step ns.
Proof.
  intros Hv Hrun. apply in_step_start in Hv.
  induction Hrun as [ns | ns ns1 ns2 [[p Hstep] | Hstep] _ IH]; [done | |].
  - apply IH. by eapply in_step_local.
  - apply IH. by eapply in_step_barrier.
Qed.

(** A node of the run: its data handler, its clock and its data. *)
Record Rank := {
  rank_exchangeData : TransposeData -> TransposeData;
  rank_cost : nat -> Z;
  rank_world : World
}.

Section Nodes.

Variable BLOCK_SIZE : nat.
Variable handlerToString : DataHandlerType -> string.
Variable ticks_per_second : positive.
Variable settings : TransposeProgramSettings.

(** The events of [calculate] on a node, in the order of the program. *)
Definition rank_trace (r : Rank) : list Event :=
  trace (calculate BLOCK_SIZE (rank_exchangeData r) handlerToString
           ticks_per_second (rank_cost r) settings (rank_world r)).2.

(** C7.  Whenever a node has issued an exchange or the computation of a
    repetition, every node has passed the barrier of that repetition, and
    on the issuing node that barrier was issued strictly before: no node
    exchanges data of a repetition before all the nodes have synchronised
    for it. *)
Theorem barrier_before_traffic_on_all_nodes (ranks : list Rank)
    (ns : list Node) (p q j k : nat) (n_p n_q : Node) (ev : Event) :
  Forall (fun r => trace (rank_world r) = []) ranks ->
  rtc mpi_step (start <$> (rank_trace <$> ranks)) ns ->
  ns !! p = Some n_p -> ns !! q = Some n_q ->
  issued n_p !! j = Some ev ->
  (exists back, ev = EvExchange k back) \/ ev = EvCompute k ->
  EvBarrier k ∈ issued n_q
  /\ exists i, i < j /\ issued n_p !! i = Some (EvBarrier k).
Proof.
  intros Hfresh Hrun Hp Hq Hj Hev.
  assert (Forall valid (rank_trace <$> ranks)) as Hvalid.
  { apply Forall_fmap. eapply Forall_impl; [exact Hfresh |].
    intros r Hr. by apply calculate_trace_valid. }
  destruct (in_step_reachable _ ns Hvalid Hrun) as [Hv [c Hc]].
  assert (valid (issued n_p)) as Hvp by (eapply valid_prefix, Hv, Hp).
  assert (valid (issued n_q)) as Hvq by (eapply valid_prefix, Hv, Hq).
  assert (repetition_of ev = k /\ is_barrier ev = false) as [<- Hnb]
    by (by destruct Hev as [[back ->] | ->]).
  split.
  - apply valid_barrier_issued; [exact Hvq |].
    rewrite (Hc q n_q Hq), <- (Hc p n_p Hp).
    apply valid_repetition_lt; [done | | done].
    by eapply list_elem_of_lookup_2.
  - by apply valid_barrier_before.
Qed.

End Nodes.

(** Two nodes, one repetition each: after the barrier the first node has
    issued its exchange, the second nothing more. *)
Definition sample_rank : Rank :=
  {| rank_exchangeData := fun d => d;
     rank_cost := sample_cost;
     rank_world := sample_world |}.

Definition one_repetition : TransposeProgramSettings :=
  {| numRepetitions := 1; dataHandlerIdentifier := diagonal |}.

Definition sample_nodes : list Node :=
  [ {| issued := [EvBarrier 0; EvExchange 0 false];
       pending := [EvCompute 0; EvExchange 0 true] |};
    {| issued := [EvBarrier 0];
       pending := [EvExchange 0 false; EvCompute 0; EvExchange 0 true] |} ].

Lemma barrier_before_traffic_on_all_nodes_witness :
  (Forall (fun r => trace (rank_world r) = []) [sample_rank; sample_rank]
   /\ rtc mpi_step
        (start <$> (rank_trace 2 (fun _ => "other") 1000 one_repetition
                      <$> [sample_rank; sample_rank]))
        sample_nodes
   /\ [EvBarrier 0; EvExchange 0 false] !! 1 = Some (EvExchange 0 false))
  /\ EvBarrier 0 ∈ [EvBarrier 0]
  /\ exists i, i < 1
       /\ [EvBarrier 0; EvExchange 0 false] !! i = Some (EvBarrier 0).
Proof.
  assert (Forall (fun r => trace (rank_world r) = []) [sample_rank; sample_rank])
    as Hfresh by (by repeat constructor).
  assert (rtc mpi_step
            (start <$> (rank_trace 2 (fun _ => "other") 1000 one_repetition
                          <$> [sample_rank; sample_rank]))
            sample_nodes) as Hrun.
  { eapply rtc_l; [right; reflexivity |].
    eapply rtc_l; [left; exists 0; reflexivity |].
    apply rtc_refl. }
  split; [by repeat split |].
  exact (barrier_before_traffic_on_all_nodes 2 (fun _ => "other") 1000
           one_repetition [sample_rank; sample_rank] sample_nodes 0 1 1 0
           _ _ (EvExchange 0 false) Hfresh Hrun eq_refl eq_refl eq_refl
           (or_introl (ex_intro _ false eq_refl))).
Defined.

(** ** The summary of the timings *)

Module bm_execution.

(** [bm_execution::ExecutionTimings] as [printResults] reads it: the times
    are [double]s. *)
Record ExecutionTimings {D : Type} := {
  transferTimings : list D;
  calculationTimings : list D
}.

End bm_execution.


Section PrintResults.

Context {F D : Type} `{!HostArith F D}.










End PrintResults.



(** The number that a finite [double] stands for. *)
Definition value (x : spec_float) : Q :=
  match x with
  | S754_finite s m e =>
      ((if s then -1 else 1) * inject_Z (Z.pos m) * 2 ^ e)%Q
  | _ => 0%Q
  end.











End Transpose.


(* ===================================================================== *)
(** * The kernels around the FFT engine *)
(* ===================================================================== *)

Module FFT.

(** The kernels [fetch], [fft1d] and [store] of [fft1d_float_8.cl] and the
    function [bit_reversed].  A channel is the queue of the values written
    to it and not yet read; a write appends, a read takes the first value,
    and a kernel that reads from an empty channel has no result: it waits.
    The kernels run one after the other on the queues that the kernel
    before has left, so the depth of a channel does not show.  The
    engine [fft_step] is not in src and is a parameter.  Both variants of
    [fetch] are here; of [fft1d] and [store], the variants for Intel
    devices. *)

(** Arithmetic on [uint]. *)
Definition wrap32 (z : Z) : Z := z mod 2 ^ 32.

(** ** Bit reversal *)

(** The loop of [bit_reversed]: [todo] iterations remain. *)
Fixpoint bit_reversed_loop (todo : nat) (x y : Z) : Z :=
  match todo with
  | O => y
  | S todo' =>
      let y1 := wrap32 (Z.shiftl y 1) in
      let y2 := Z.lor y1 (Z.land x 1) in
      let x1 := Z.shiftr x 1 in
      bit_reversed_loop todo' x1 y2
  end.

(** [bit_reversed(x, bits)]; the shift [1 << bits] takes its count modulo
    32, and the [int] it gives becomes a [uint] in the conjunction. *)
Definition bit_reversed (x : Z) (bits : nat) : Z :=
  let y := bit_reversed_loop bits x 0 in
  Z.land y (wrap32 (Z.shiftl 1 (Z.of_nat bits mod 32) - 1)).

Lemma below_pow2_bits (r : Z) (n : nat) :
  (0 <= r)%Z -> (forall i : nat, n <= i -> Z.testbit r (Z.of_nat i) = false) ->
  (r < 2 ^ Z.of_nat n)%Z.
Proof.
  intros Hr Hbits.
  assert (r = r mod 2 ^ Z.of_nat n)%Z as ->.
  { apply Z.bits_inj'. intros i Hi.
    destruct (Z.lt_ge_cases i (Z.of_nat n)) as [Hlt | Hge].
    - by rewrite Z.mod_pow2_bits_low.
    - rewrite Z.mod_pow2_bits_high by lia.
      rewrite <- (Z2Nat.id i) by lia. apply Hbits. lia. }
  apply Z.mod_pos_bound. lia.
Qed.

Lemma bits_below_pow2 (r : Z) (n i : nat) :
  (0 <= r < 2 ^ Z.of_nat n)%Z -> n <= i -> Z.testbit r (Z.of_nat i) = false.
Proof.
  intros Hr Hi. rewrite <- (Z.mod_small r (2 ^ Z.of_nat n)) by done.
  apply Z.mod_pow2_bits_high. lia.
Qed.

Lemma bit_reversed_loop_spec (todo : nat) (x y : Z) (m : nat) :
  (0 <= x)%Z -> (0 <= y < 2 ^ Z.of_nat m)%Z -> m + todo <= 32 ->
  (0 <= bit_reversed_loop todo x y)%Z
  /\ forall i : nat,
       Z.testbit (bit_reversed_loop todo x y) (Z.of_nat i)
       = if decide (i < todo)
         then Z.testbit x (Z.of_nat (todo - 1 - i))
         else Z.testbit y (Z.of_nat (i - todo)).
Proof.
  revert x y m. induction todo as [|todo IH]; intros x y m Hx Hy Hm.
  - cbn [bit_reversed_loop]. split; [lia |].
    intros i. destruct (decide (i < 0)); [lia |]. by rewrite Nat.sub_0_r.
  - cbn [bit_reversed_loop].
    assert (wrap32 (Z.shiftl y 1) = 2 * y)%Z as ->.
    { unfold wrap32. rewrite Z.shiftl_mul_pow2 by lia.
      assert (2 ^ Z.of_nat (S m) <= 2 ^ 32)%Z by (apply Z.pow_le_mono_r; lia).
      rewrite Nat2Z.inj_succ, Z.pow_succ_r in * by lia.
      rewrite Z.mod_small; lia. }
    assert (forall i : nat,
              Z.testbit (Z.lor (2 * y) (Z.land x 1)) (Z.of_nat i)
              = match i with
                | O => Z.testbit x 0
                | S i' => Z.testbit y (Z.of_nat i')
                end) as Hbits.
    { intros i. rewrite Z.lor_spec, Z.land_spec. destruct i as [|i'].
      - change (Z.of_nat 0) with 0%Z. rewrite Z.testbit_even_0.
        by rewrite andb_true_r.
      - rewrite Nat2Z.inj_succ, Z.testbit_even_succ by lia.
        replace (Z.testbit 1 (Z.succ (Z.of_nat i'))) with false.
        + by rewrite andb_false_r, orb_false_r.
        + symmetry. apply (Z.bits_above_log2 1); simpl; lia. }
    destruct (IH (Z.shiftr x 1) (Z.lor (2 * y) (Z.land x 1)) (S m))
      as (Hnonneg & Hspec).
    + by apply Z.shiftr_nonneg.
    + split.
      * apply Z.lor_nonneg. split; [lia |]. apply Z.land_nonneg. by left.
      * apply below_pow2_bits.
        -- apply Z.lor_nonneg. split; [lia |]. apply Z.land_nonneg. by left.
        -- intros i Hi. rewrite Hbits. destruct i as [|i']; [lia |].
           apply (bits_below_pow2 y m); [done | lia].
    + lia.
    + split; [done |]. intros i. rewrite Hspec.
      destruct (decide (i < todo)) as [Hlt | Hge].
      * destruct (decide (i < S todo)); [| lia].
        rewrite Z.shiftr_spec by lia. f_equal. lia.
      * rewrite Hbits. destruct (decide (i < S todo)) as [Hlt' | Hge'].
        -- replace (i - todo) with 0 by lia.
           f_equal. lia.
        -- replace (i - todo) with (S (i - S todo)) by lia. done.
Qed.

Lemma bit_reversed_mask (bits : nat) :
  bits < 32 ->
  wrap32 (Z.shiftl 1 (Z.of_nat bits mod 32) - 1) = Z.ones (Z.of_nat bits).
Proof.
  intros Hbits. rewrite Z.mod_small by lia.
  rewrite Z.ones_equiv, Z.shiftl_1_l. unfold wrap32.
  assert (0 < 2 ^ Z.of_nat bits < 2 ^ 32)%Z.
  { split; [apply Z.pow_pos_nonneg; lia | apply Z.pow_lt_mono_r; lia]. }
  rewrite Z.mod_small; lia.
Qed.

Lemma bit_reversed_spec (x : Z) (bits : nat) :
  (0 <= x)%Z -> bits < 32 ->
  (0 <= bit_reversed x bits < 2 ^ Z.of_nat bits)%Z
  /\ forall i : nat,
       Z.testbit (bit_reversed x bits) (Z.of_nat i)
       = if decide (i < bits) then Z.testbit x (Z.of_nat (bits - 1 - i))
         else false.
Proof.
  intros Hx Hbits.
  destruct (bit_reversed_loop_spec bits x 0 0 Hx) as (Hnonneg & Hspec);
    [simpl; lia | lia |].
  assert (forall i : nat,
            Z.testbit (bit_reversed x bits) (Z.of_nat i)
            = if decide (i < bits) then Z.testbit x (Z.of_nat (bits - 1 - i))
              else false) as Hrev.
  { intros i. unfold bit_reversed. cbn zeta.
    rewrite bit_reversed_mask, Z.land_spec, Hspec by done.
    destruct (decide (i < bits)) as [Hlt | Hge].
    - rewrite Z.ones_spec_low by lia. by rewrite andb_true_r.
    - rewrite Z.ones_spec_high by lia. by rewrite andb_false_r. }
  split; [| exact Hrev].
  assert (0 <= bit_reversed x bits)%Z as Hpos.
  { unfold bit_reversed. cbn zeta. apply Z.land_nonneg. by left. }
  split; [done |]. apply below_pow2_bits; [done |].
  intros i Hi. rewrite Hrev. destruct (decide (i < bits)); [lia | done].
Qed.

(** X20.  For a count of bits below 32, bit [i] of [bit_reversed(x, bits)]
    is bit [bits - 1 - i] of [x] when [i < bits] and is clear otherwise:
    the lowest [bits] bits of [x] come out in reverse order, and the
    result is below [2 ^ bits].  Reversing twice gives a value below
    [2 ^ bits] back. *)
Theorem bit_reversed_bits (x : Z) (bits : nat) :
  (0 <= x)%Z -> bits < 32 ->
  (0 <= bit_reversed x bits < 2 ^ Z.of_nat bits)%Z
  /\ (forall i : nat,
        Z.testbit (bit_reversed x bits) (Z.of_nat i)
        = if decide (i < bits) then Z.testbit x (Z.of_nat (bits - 1 - i))
          else false)
  /\ ((x < 2 ^ Z.of_nat bits)%Z ->
      bit_reversed (bit_reversed x bits) bits = x).
Proof.
  intros Hx Hbits.
  destruct (bit_reversed_spec x bits Hx Hbits) as (Hrange & Hrev).
  split; [done |]. split; [done |]. intros Hsmall.
  destruct (bit_reversed_spec (bit_reversed x bits) bits) as (_ & Hrev2);
    [lia | done |].
  apply Z.bits_inj'. intros i Hi.
  rewrite <- (Z2Nat.id i) by done. rewrite Hrev2.
  destruct (decide (Z.to_nat i < bits)) as [Hlt | Hge].
  - rewrite Hrev. destruct (decide (bits - 1 - Z.to_nat i < bits)); [| lia].
    f_equal. lia.
  - symmetry. apply (bits_below_pow2 x bits); [lia | lia].
Qed.


(** ** The kernels *)

(** The eight values that go through the channels in one step. *)
Record float2x8 {V : Type} := {
  i0 : V; i1 : V; i2 : V; i3 : V; i4 : V; i5 : V; i6 : V; i7 : V
}.
Arguments float2x8 : clear implicits.

Section Kernels.

(** [float2]: the kernels of this file only move the values around. *)
Context {V : Type} `{!Inhabited V}.

(** [LOG_FFT_SIZE], a constant of the build. *)
Variable LOGN : nat.

Definition LOGPOINTS : nat := 3.
Definition POINTS : nat := 2 ^ LOGPOINTS.

(** [const int N = (1 << LOGN)] *)
Definition N : nat := 2 ^ LOGN.

(** [channel float2 chanin[POINTS]], [chanout[POINTS]]: each channel is
    the queue of the values written to it and not yet read. *)
Definition write_channel_intel (c : nat) (v : V) (chans : list (list V))
    : list (list V) :=
  alter (fun queue => queue ++ [v]) c chans.

(** A read from an empty channel blocks: there is no result. *)
Definition read_channel_intel (c : nat) (chans : list (list V))
    : option (V * list (list V)) :=
  match chans !! c with
  | Some (v :: queue) => Some (v, <[c := queue]> chans)
  | _ => None
  end.

(** [(k << LOGN) + i] on [unsigned]. *)
Definition global_index (k i : nat) : nat :=
  Z.to_nat (wrap32 (Z.shiftl (Z.of_nat k) (Z.of_nat LOGN) + Z.of_nat i)).

(** *** [fetch], the variant for Intel devices *)

(** The first loop of an iteration: [buf[i & ((1<<LOGN)-1)] = src[(k << LOGN) + i]]
    on a buffer that is declared without a value. *)
Definition fill_buf (src : list V) (k : nat) : list V :=
  fold_left
    (fun buf i => <[Nat.land i (2 ^ LOGN - 1) := src !!! global_index k i]> buf)
    (seq 0 N) (replicate N inhabitant).

(** The body of the second loop: one value for each channel. *)
Definition forward (buf : list V) (j : nat) (chanin : list (list V))
    : list (list V) :=
  let chanin := write_channel_intel 0 (buf !!! j) chanin in
  let chanin := write_channel_intel 1 (buf !!! (4 * N / 8 + j)) chanin in
  let chanin := write_channel_intel 2 (buf !!! (2 * N / 8 + j)) chanin in
  let chanin := write_channel_intel 3 (buf !!! (6 * N / 8 + j)) chanin in
  let chanin := write_channel_intel 4 (buf !!! (N / 8 + j)) chanin in
  let chanin := write_channel_intel 5 (buf !!! (5 * N / 8 + j)) chanin in
  let chanin := write_channel_intel 6 (buf !!! (3 * N / 8 + j)) chanin in
  write_channel_intel 7 (buf !!! (7 * N / 8 + j)) chanin.

Definition fetch (src : list V) (iter : nat) (chanin : list (list V))
    : list (list V) :=
  fold_left
    (fun chanin k =>
       let buf := fill_buf src k in
       fold_left (fun chanin j => forward buf j chanin)
                 (seq 0 (N / POINTS)) chanin)
    (seq 0 iter) chanin.

(** *** The sizes *)

Lemma N_points : 3 <= LOGN -> N = 8 * (N / 8).
Proof.
  intros Hlog.
  assert (N = 2 ^ (LOGN - 3) * 8) as ->.
  { unfold N. change 8 with (2 ^ 3). rewrite <- Nat.pow_add_r. f_equal. lia. }
  rewrite Nat.div_mul by done. lia.
Qed.

Lemma N_pos : 0 < N.
Proof. unfold N. pose proof (Nat.pow_nonzero 2 LOGN). lia. Qed.

Lemma multiple_of_eighth (m : nat) : 3 <= LOGN -> m * N / 8 = m * (N / 8).
Proof.
  intros Hlog. rewrite (N_points Hlog) at 1.
  replace (m * (8 * (N / 8))) with (m * (N / 8) * 8) by lia.
  by rewrite Nat.div_mul.
Qed.

Lemma land_below (i : nat) : i < N -> Nat.land i (2 ^ LOGN - 1) = i.
Proof.
  intros Hi. replace (2 ^ LOGN - 1) with (Nat.ones LOGN)
    by (rewrite Nat.ones_equiv; lia).
  rewrite Nat.land_ones. by apply Nat.mod_small.
Qed.

Lemma global_index_exact (k i : nat) :
  (Z.of_nat (k * N + i) < 2 ^ 32)%Z -> global_index k i = k * N + i.
Proof.
  intros Hsmall. unfold global_index, wrap32.
  rewrite Z.shiftl_mul_pow2 by lia.
  assert (Z.of_nat N = 2 ^ Z.of_nat LOGN)%Z as HN.
  { unfold N. rewrite Nat2Z.inj_pow. done. }
  rewrite <- HN, Z.mod_small by lia. lia.
Qed.

(** *** What [fetch] sends *)

(** The place in [buf] that channel [c] takes its values from, in eighths
    of the buffer. *)
Definition segment (c : nat) : nat := [0; 4; 2; 6; 1; 5; 3; 7] !!! c.

Lemma segment_bit_reversed (c : nat) :
  c < 8 -> segment c = Z.to_nat (bit_reversed (Z.of_nat c) 3).
Proof. intros Hc. do 8 (destruct c as [|c]; [reflexivity |]). lia. Qed.

Lemma fill_loop (f : nat -> V) (n : nat) (buf : list V) :
  n <= length buf -> (forall i, i < n -> Nat.land i (2 ^ LOGN - 1) = i) ->
  let out := fold_left
               (fun buf i => <[Nat.land i (2 ^ LOGN - 1) := f i]> buf)
               (seq 0 n) buf in
  length out = length buf /\ forall i, i < n -> out !!! i = f i.
Proof.
  cbn zeta. induction n as [|n IH]; intros Hlen Hland.
  - split; [done |]. lia.
  - rewrite seq_S, fold_left_app. cbn [fold_left Nat.add].
    destruct IH as (Hlength & Hvalues); [lia | intros i Hi; apply Hland; lia |].
    rewrite length_insert. split; [done |].
    intros i Hi. rewrite (Hland n) by lia.
    destruct (decide (i = n)) as [-> | Hne].
    + apply list_lookup_total_insert_eq. lia.
    + rewrite list_lookup_total_insert_ne by done. apply Hvalues. lia.
Qed.

Lemma fill_buf_values (src : list V) (k i : nat) :
  i < N -> fill_buf src k !!! i = src !!! global_index k i.
Proof.
  intros Hi. unfold fill_buf.
  destruct (fill_loop (fun i => src !!! global_index k i) N
              (replicate N inhabitant)) as (_ & Hvalues).
  - by rewrite length_replicate.
  - intros i' Hi'. by apply land_below.
  - by apply Hvalues.
Qed.

Lemma eight_channels (chans : list (list V)) :
  length chans = 8 ->
  exists q0 q1 q2 q3 q4 q5 q6 q7, chans = [q0; q1; q2; q3; q4; q5; q6; q7].
Proof.
  intros Hlen. do 8 (destruct chans as [|? chans]; [done |]).
  destruct chans; [| done]. by repeat eexists.
Qed.

Lemma forward_channels (buf : list V) (j : nat) (chanin : list (list V)) :
  3 <= LOGN -> length chanin = 8 ->
  length (forward buf j chanin) = 8
  /\ forall c, c < 8 ->
       forward buf j chanin !!! c
       = chanin !!! c ++ [buf !!! (segment c * (N / 8) + j)].
Proof.
  intros Hlog Hlen.
  destruct (eight_channels chanin Hlen)
    as (q0 & q1 & q2 & q3 & q4 & q5 & q6 & q7 & ->).
  unfold forward. rewrite !multiple_of_eighth by done.
  split; [reflexivity |].
  intros c Hc. do 8 (destruct c as [|c]; [unfold segment; cbn; repeat f_equal; lia |]).
  lia.
Qed.

Lemma forward_loop (buf : list V) (n : nat) (chanin : list (list V)) :
  3 <= LOGN -> length chanin = 8 ->
  let out := fold_left (fun chanin j => forward buf j chanin) (seq 0 n) chanin in
  length out = 8
  /\ forall c, c < 8 ->
       out !!! c
       = chanin !!! c ++ ((fun j => buf !!! (segment c * (N / 8) + j)) <$> seq 0 n).
Proof.
  intros Hlog Hlen. cbn zeta. induction n as [|n IH].
  - split; [done |]. intros c Hc. by rewrite app_nil_r.
  - rewrite seq_S, fold_left_app. cbn [fold_left Nat.add].
    destruct IH as (Hlength & Hvalues).
    destruct (forward_channels buf n _ Hlog Hlength) as (Hlength' & Hvalues').
    split; [done |]. intros c Hc.
    rewrite Hvalues', Hvalues, fmap_app by done. by rewrite <- app_assoc.
Qed.

(** The values that channel [c] receives: for every iteration in turn, the
    eighth of the input that the channel takes. *)
Definition stream (src : list V) (iter c : nat) : list V :=
  k ← seq 0 iter;
  (fun j => src !!! (k * N + Z.to_nat (bit_reversed (Z.of_nat c) 3) * (N / 8) + j))
    <$> seq 0 (N / 8).

Lemma fetch_channels (src : list V) (iter : nat) (chanin : list (list V)) :
  3 <= LOGN -> (Z.of_nat (iter * N) <= 2 ^ 32)%Z -> length chanin = 8 ->
  length (fetch src iter chanin) = 8
  /\ forall c, c < 8 ->
       fetch src iter chanin !!! c = chanin !!! c ++ stream src iter c.
Proof.
  intros Hlog Hsmall Hlen. unfold fetch, stream.
  induction iter as [|iter IH].
  - split; [done |]. intros c Hc. by rewrite app_nil_r.
  - rewrite seq_S, fold_left_app. cbn [fold_left Nat.add].
    destruct IH as (Hlength & Hvalues); [lia |].
    destruct (forward_loop (fill_buf src iter) (N / POINTS) _ Hlog Hlength)
      as (Hlength' & Hvalues').
    split; [done |]. intros c Hc.
    rewrite Hvalues', Hvalues by done.
    rewrite bind_app, <- app_assoc. do 2 f_equal.
    rewrite bind_singleton. change (N / POINTS) with (N / 8).
    apply list_fmap_ext. intros i j Hj.
    apply lookup_seq in Hj as [-> Hj]. cbn [Nat.add].
    pose proof (N_points Hlog) as HN.
    assert (segment c < 8) as Hseg.
    { do 8 (destruct c as [|c]; [unfold segment; cbn; lia |]). lia. }
    rewrite fill_buf_values by nia.
    rewrite global_index_exact by nia.
    rewrite <- segment_bit_reversed by done. f_equal. lia.
Qed.

(** *** [fetch], the variant for Xilinx devices *)

Definition BUFFER_REPLICATION : nat := 4.

(** [(k << LOGPOINTS) + j] on [unsigned]. *)
Definition burst_index (k j : nat) : nat :=
  Z.to_nat (wrap32 (Z.shiftl (Z.of_nat k) (Z.of_nat LOGPOINTS) + Z.of_nat j)).

(** [a - b] on [unsigned]. *)
Definition unsigned_sub (a b : nat) : nat :=
  Z.to_nat (wrap32 (Z.of_nat a - Z.of_nat b)).

(** [buf[r][m][q] = v] and [buf[r][m][q]] on
    [float2 buf[BUFFER_REPLICATION][POINTS][N / POINTS]]. *)
Definition buf_write (r m q : nat) (v : V) (buf : list (list (list V)))
    : list (list (list V)) :=
  alter (alter (fun row => <[q := v]> row) m) r buf.

Definition buf_read (r m q : nat) (buf : list (list (list V))) : V :=
  ((buf !!! r) !!! m) !!! q.

(** The first part of an iteration: eight values from global memory. *)
Definition burst (src : list V) (k : nat) (buf : list (list (list V)))
    : list (list (list V)) :=
  fold_left
    (fun buf j =>
       let local_i := Nat.land (burst_index k j) (N - 1) in
       buf_write
         (Nat.land (Nat.shiftr k (LOGN - LOGPOINTS)) (BUFFER_REPLICATION - 1))
         (Nat.shiftr local_i (LOGN - LOGPOINTS))
         (Nat.land local_i (2 ^ (LOGN - LOGPOINTS) - 1))
         (src !!! burst_index k j) buf)
    (seq 0 POINTS) buf.

(** The second part: the tuple that goes over the pipe. *)
Definition buffered (k : nat) (buf : list (list (list V))) : float2x8 V :=
  let r := Nat.land (unsigned_sub (Nat.shiftr k (LOGN - LOGPOINTS)) 1)
                    (BUFFER_REPLICATION - 1) in
  let q := Nat.land k (2 ^ (LOGN - LOGPOINTS) - 1) in
  {| i0 := buf_read r 0 q buf; i1 := buf_read r 4 q buf;
     i2 := buf_read r 2 q buf; i3 := buf_read r 6 q buf;
     i4 := buf_read r 1 q buf; i5 := buf_read r 5 q buf;
     i6 := buf_read r 3 q buf; i7 := buf_read r 7 q buf |}.

Definition fetch_xilinx_step (src : list V)
    (st : list (list (list V)) * list (float2x8 V)) (k : nat)
    : list (list (list V)) * list (float2x8 V) :=
  let '(buf, chanin) := st in
  let buf := burst src k buf in
  if decide (N / POINTS <= k)
  then (buf, chanin ++ [buffered k buf])
  else (buf, chanin).

(** The buffer is declared without a value. *)
Definition fresh_buf : list (list (list V)) :=
  replicate BUFFER_REPLICATION (replicate POINTS (replicate (N / POINTS) inhabitant)).

Definition fetch_xilinx (src : list V) (iter : nat) (chanin : list (float2x8 V))
    : list (float2x8 V) :=
  (fold_left (fetch_xilinx_step src) (seq 0 ((iter + 1) * (N / POINTS)))
             (fresh_buf, chanin)).2.

(** The value of a tuple for channel [c]. *)
Definition component (c : nat) (t : float2x8 V) : V :=
  [i0 t; i1 t; i2 t; i3 t; i4 t; i5 t; i6 t; i7 t] !!! c.

(** *** The buffers of the Xilinx variant *)

(** The buffer has its declared sizes. *)
Definition shaped (buf : list (list (list V))) : Prop :=
  length buf = 4
  /\ forall r, r < 4 ->
       length (buf !!! r) = 8
       /\ forall m, m < 8 -> length ((buf !!! r) !!! m) = N / 8.

(** Entry [p] of replica [r], the replica taken as one array of [N]
    entries. *)
Definition cell (r p : nat) (buf : list (list (list V))) : V :=
  buf_read r (p / (N / 8)) (p mod (N / 8)) buf.

Lemma eighth_pos : 3 <= LOGN -> 0 < N / 8.
Proof. intros Hlog. pose proof (N_points Hlog). pose proof N_pos. lia. Qed.

Lemma eighth_pow : 3 <= LOGN -> 2 ^ (LOGN - LOGPOINTS) = N / 8.
Proof.
  intros Hlog. unfold N, LOGPOINTS.
  assert (2 ^ LOGN = 2 ^ (LOGN - 3) * 8) as ->.
  { change 8 with (2 ^ 3). rewrite <- Nat.pow_add_r. f_equal. lia. }
  by rewrite Nat.div_mul.
Qed.

Lemma shiftr_eighth (x : nat) :
  3 <= LOGN -> Nat.shiftr x (LOGN - LOGPOINTS) = x / (N / 8).
Proof. intros Hlog. by rewrite Nat.shiftr_div_pow2, eighth_pow. Qed.

Lemma land_eighth (x : nat) :
  3 <= LOGN -> Nat.land x (2 ^ (LOGN - LOGPOINTS) - 1) = x mod (N / 8).
Proof.
  intros Hlog.
  replace (2 ^ (LOGN - LOGPOINTS) - 1) with (Nat.ones (LOGN - LOGPOINTS))
    by (rewrite Nat.ones_equiv; lia).
  by rewrite Nat.land_ones, eighth_pow.
Qed.

Lemma land_N (x : nat) : Nat.land x (N - 1) = x mod N.
Proof.
  unfold N. replace (2 ^ LOGN - 1) with (Nat.ones LOGN)
    by (rewrite Nat.ones_equiv; lia).
  by rewrite Nat.land_ones.
Qed.

Lemma land_replication (x : nat) :
  Nat.land x (BUFFER_REPLICATION - 1) = x mod 4.
Proof. change (BUFFER_REPLICATION - 1) with (Nat.ones 2). by rewrite Nat.land_ones. Qed.

Lemma burst_index_exact (k j : nat) :
  (Z.of_nat (8 * k + j) < 2 ^ 32)%Z -> burst_index k j = 8 * k + j.
Proof.
  intros Hsmall. unfold burst_index, wrap32, LOGPOINTS.
  rewrite Z.shiftl_mul_pow2 by lia. change (2 ^ Z.of_nat 3)%Z with 8%Z.
  rewrite Z.mod_small by lia. lia.
Qed.

Lemma unsigned_sub_exact (a b : nat) :
  b <= a -> (Z.of_nat a < 2 ^ 32)%Z -> unsigned_sub a b = a - b.
Proof.
  intros Hle Hsmall. unfold unsigned_sub, wrap32.
  rewrite Z.mod_small by lia. lia.
Qed.

Lemma fresh_buf_shaped : shaped fresh_buf.
Proof.
  unfold shaped, fresh_buf, BUFFER_REPLICATION, POINTS, LOGPOINTS.
  change (2 ^ 3) with 8.
  split; [by rewrite length_replicate |]. intros r Hr.
  rewrite lookup_total_replicate_2 by done.
  split; [by rewrite length_replicate |]. intros m Hm.
  rewrite lookup_total_replicate_2 by done. by rewrite length_replicate.
Qed.

Lemma buf_write_shaped (r m q : nat) (v : V) (buf : list (list (list V))) :
  shaped buf -> shaped (buf_write r m q v buf).
Proof.
  intros (Hlen & Hrows). unfold buf_write. split; [by rewrite length_alter |].
  intros r' Hr'. destruct (decide (r' = r)) as [-> | Hne].
  - rewrite list_lookup_total_alter_eq by lia.
    destruct (Hrows r Hr') as (Hlen' & Hcols).
    split; [by rewrite length_alter |]. intros m' Hm'.
    destruct (decide (m' = m)) as [-> | Hne].
    + rewrite list_lookup_total_alter_eq by lia.
      rewrite length_insert. by apply Hcols.
    + rewrite list_lookup_total_alter_ne by done. by apply Hcols.
  - rewrite list_lookup_total_alter_ne by done. by apply Hrows.
Qed.

Lemma buf_read_write (r m q r' m' q' : nat) (v : V)
    (buf : list (list (list V))) :
  shaped buf -> r < 4 -> m < 8 -> q < N / 8 ->
  buf_read r' m' q' (buf_write r m q v buf)
  = if decide (r' = r /\ m' = m /\ q' = q) then v else buf_read r' m' q' buf.
Proof.
  intros (Hlen & Hrows) Hr Hm Hq. unfold buf_read, buf_write.
  destruct (Hrows r Hr) as (Hlen' & Hcols).
  destruct (decide (r' = r)) as [-> | Hner].
  - rewrite list_lookup_total_alter_eq by lia.
    destruct (decide (m' = m)) as [-> | Hnem].
    + rewrite list_lookup_total_alter_eq by lia.
      destruct (decide (q' = q)) as [-> | Hneq].
      * rewrite list_lookup_total_insert_eq by (rewrite Hcols; lia).
        by destruct (decide _) as [_ | []].
      * rewrite list_lookup_total_insert_ne by done.
        destruct (decide _) as [(_ & _ & ?) | _]; done.
    + rewrite list_lookup_total_alter_ne by done.
      destruct (decide _) as [(_ & ? & _) | _]; done.
  - rewrite list_lookup_total_alter_ne by done.
    destruct (decide _) as [(? & _) | _]; done.
Qed.

Lemma cell_write (r p r' p' : nat) (v : V) (buf : list (list (list V))) :
  3 <= LOGN -> shaped buf -> r < 4 -> p < N -> 
  cell r' p' (buf_write r (p / (N / 8)) (p mod (N / 8)) v buf)
  = if decide (r' = r /\ p' = p) then v else cell r' p' buf.
Proof.
  intros Hlog Hshape Hr Hp. unfold cell.
  pose proof (eighth_pos Hlog) as Hpos. pose proof (N_points Hlog) as HN.
  rewrite buf_read_write; [| done | done | |].
  - destruct (decide (r' = r /\ p' = p)) as [[-> ->] | Hne].
    + by destruct (decide _) as [_ | []].
    + destruct (decide _) as [(-> & Hdiv & Hmod) | _]; [| done].
      exfalso. apply Hne. split; [done |].
      rewrite (Nat.div_mod p' (N / 8)), (Nat.div_mod p (N / 8)) by lia.
      by rewrite Hdiv, Hmod.
  - apply Nat.Div0.div_lt_upper_bound. lia.
  - apply Nat.mod_upper_bound. lia.
Qed.

(** The eight stores of iteration [k = block * (N / 8) + q], in terms of
    the entries of the replica. *)
Lemma burst_cells (src : list V) (block q : nat) (buf : list (list (list V))) :
  3 <= LOGN -> q < N / 8 ->
  (Z.of_nat (S (block * (N / 8) + q)) * 8 <= 2 ^ 32)%Z ->
  shaped buf ->
  let out := burst src (block * (N / 8) + q) buf in
  shaped out
  /\ forall r p, p < N ->
       cell r p out
       = if decide (r = block mod 4 /\ 8 * q <= p < 8 * q + 8)
         then src !!! (block * N + p)
         else cell r p buf.
Proof.
  intros Hlog Hq Hsmall Hshape. cbn zeta. unfold burst.
  pose proof (eighth_pos Hlog) as Hpos. pose proof (N_points Hlog) as HN.
  assert (forall n, n <= 8 ->
            let out := fold_left
              (fun buf j =>
                 let local_i :=
                   Nat.land (burst_index (block * (N / 8) + q) j) (N - 1) in
                 buf_write
                   (Nat.land (Nat.shiftr (block * (N / 8) + q) (LOGN - LOGPOINTS))
                             (BUFFER_REPLICATION - 1))
                   (Nat.shiftr local_i (LOGN - LOGPOINTS))
                   (Nat.land local_i (2 ^ (LOGN - LOGPOINTS) - 1))
                   (src !!! burst_index (block * (N / 8) + q) j) buf)
              (seq 0 n) buf in
            shaped out
            /\ forall r p, p < N ->
                 cell r p out
                 = if decide (r = block mod 4 /\ 8 * q <= p < 8 * q + n)
                   then src !!! (block * N + p)
                   else cell r p buf) as Hloop.
  { induction n as [|n IH]; intros Hn; cbn zeta.
    - split; [done |]. intros r p Hp.
      destruct (decide _) as [[_ ?] | _]; [lia | done].
    - rewrite seq_S, fold_left_app. cbn [fold_left Nat.add].
      destruct IH as (Hshape' & Hcells); [lia |].
      match goal with
      | |- context [fold_left ?f (seq 0 n) buf] =>
          remember (fold_left f (seq 0 n) buf) as prev eqn:Hprev; clear Hprev
      end.
      rewrite burst_index_exact by nia.
      rewrite land_N, !shiftr_eighth, land_eighth, land_replication by done.
      assert ((8 * (block * (N / 8) + q) + n) mod N = 8 * q + n) as ->.
      { replace (8 * (block * (N / 8) + q) + n) with ((8 * q + n) + block * N)
          by nia.
        rewrite Nat.Div0.mod_add. apply Nat.mod_small. lia. }
      assert ((block * (N / 8) + q) / (N / 8) = block) as ->.
      { rewrite Nat.add_comm, Nat.div_add by lia.
        rewrite Nat.div_small by done. done. }
      split; [by apply buf_write_shaped |].
      intros r p Hp. rewrite cell_write; [| done | done | | lia].
      + rewrite Hcells by done.
        destruct (decide (r = block mod 4 /\ p = 8 * q + n)) as [[-> ->] | Hne].
        * destruct (decide _) as [_ | Hno]; [f_equal; nia | lia].
        * destruct (decide (r = block mod 4 /\ 8 * q <= p < 8 * q + n))
            as [[-> ?] | Hno];
            destruct (decide _) as [[? ?] | Hno']; try done; try lia.
      + apply Nat.mod_upper_bound. lia. }
  apply (Hloop 8). lia.
Qed.

(** The tuple that iteration [k = block * (N / 8) + q], [block >= 1],
    sends: the entries of the replica of the block before. *)
Definition tuple_at (src : list V) (t : nat) : float2x8 V :=
  let place m := (t / (N / 8)) * N + m * (N / 8) + t mod (N / 8) in
  {| i0 := src !!! place 0; i1 := src !!! place 4;
     i2 := src !!! place 2; i3 := src !!! place 6;
     i4 := src !!! place 1; i5 := src !!! place 5;
     i6 := src !!! place 3; i7 := src !!! place 7 |}.

(** The invariant of the loop before iteration [k]. *)
Definition fetch_invariant (src : list V) (chanin : list (float2x8 V))
    (k : nat) (st : list (list (list V)) * list (float2x8 V)) : Prop :=
  shaped st.1
  /\ (forall p, p < 8 * (k mod (N / 8)) ->
        cell ((k / (N / 8)) mod 4) p st.1 = src !!! (k / (N / 8) * N + p))
  /\ (1 <= k / (N / 8) -> forall p, p < N ->
        cell ((k / (N / 8) - 1) mod 4) p st.1
        = src !!! ((k / (N / 8) - 1) * N + p))
  /\ st.2 = chanin ++ (tuple_at src <$> seq 0 (k - N / 8)).

Lemma fetch_invariant_step (src : list V) (chanin : list (float2x8 V))
    (k : nat) (st : list (list (list V)) * list (float2x8 V)) :
  3 <= LOGN -> (Z.of_nat (S k) * 8 <= 2 ^ 32)%Z ->
  fetch_invariant src chanin k st ->
  fetch_invariant src chanin (S k) (fetch_xilinx_step src st k).
Proof.
  intros Hlog Hsmall (Hshape & Hcur & Hprev & Hpipe).
  pose proof (eighth_pos Hlog) as Hpos. pose proof (N_points Hlog) as HN.
  destruct st as [buf pipe]. cbn [fst snd] in *.
  set (block := k / (N / 8)) in *. set (q := k mod (N / 8)) in *.
  assert (q < N / 8) as Hq by (apply Nat.mod_upper_bound; lia).
  assert (k = block * (N / 8) + q) as Hk.
  { unfold block, q. rewrite (Nat.mul_comm (k / _)). apply Nat.div_mod. lia. }
  destruct (burst_cells src block q buf Hlog Hq) as (Hshape' & Hcells);
    [by rewrite <- Hk | done |].
  rewrite <- Hk in Hshape', Hcells.
  assert (S k / (N / 8) = if decide (S q = N / 8) then S block else block)
    as Hblock'.
  { destruct (decide (S q = N / 8)) as [Hlast | Hmore].
    - symmetry. apply (Nat.div_unique _ _ _ 0); lia.
    - symmetry. apply (Nat.div_unique _ _ _ (S q)); lia. }
  assert (S k mod (N / 8) = if decide (S q = N / 8) then 0 else S q) as Hq'.
  { destruct (decide (S q = N / 8)) as [Hlast | Hmore].
    - symmetry. apply (Nat.mod_unique _ _ (S block)); lia.
    - symmetry. apply (Nat.mod_unique _ _ block); lia. }
  assert (block mod 4 <> (block - 1) mod 4 \/ block = 0) as Hreplica.
  { destruct (decide (block = 0)) as [-> | Hne]; [by right | left].
    intros Heq.
    pose proof (Nat.div_mod block 4). pose proof (Nat.div_mod (block - 1) 4).
    pose proof (Nat.mod_upper_bound block 4).
    pose proof (Nat.mod_upper_bound (block - 1) 4). lia. }
  assert (fetch_invariant src chanin (S k)
            (burst src k buf,
             if decide (N / POINTS <= k)
             then pipe ++ [buffered k (burst src k buf)] else pipe)) as Hgoal.
  2: { unfold fetch_xilinx_step. by destruct (decide (N / POINTS <= k)). }
  unfold fetch_invariant. cbn [fst snd]. rewrite Hblock', Hq'.
  split; [done |]. split; [| split].
  - intros p Hp. destruct (decide (S q = N / 8)) as [Hlast | Hmore]; [lia |].
    rewrite Hcells by lia.
    destruct (decide (block mod 4 = block mod 4 /\ 8 * q <= p < 8 * q + 8))
      as [_ | Hout]; [done |].
    apply Hcur. lia.
  - intros Hone p Hp. destruct (decide (S q = N / 8)) as [Hlast | Hmore].
    + replace (S block - 1) with block by lia. rewrite Hcells by done.
      destruct (decide (block mod 4 = block mod 4 /\ 8 * q <= p < 8 * q + 8))
        as [_ | Hout]; [done |].
      apply Hcur. lia.
    + rewrite Hcells by done.
      destruct (decide ((block - 1) mod 4 = block mod 4
                        /\ 8 * q <= p < 8 * q + 8)) as [[Heq _] | _].
      * destruct Hreplica as [Hne | ->]; [by rewrite Heq in Hne | lia].
      * by apply Hprev.
  - change (N / POINTS) with (N / 8).
    destruct (decide (N / 8 <= k)) as [Hsend | Hwait].
    + replace (S k - N / 8) with (S (k - N / 8)) by lia.
      rewrite seq_S, fmap_app, app_assoc, <- Hpipe. f_equal.
      cbn [fmap list_fmap Nat.add]. f_equal.
      assert (1 <= block) as Hone.
      { unfold block. apply Nat.div_le_lower_bound; lia. }
      assert ((k - N / 8) / (N / 8) = block - 1) as Htb.
      { symmetry. apply (Nat.div_unique _ _ _ q); nia. }
      assert ((k - N / 8) mod (N / 8) = q) as Htq.
      { symmetry. apply (Nat.mod_unique _ _ (block - 1)); nia. }
      unfold buffered, tuple_at. cbn zeta.
      rewrite shiftr_eighth, land_eighth, land_replication by done.
      fold block q. rewrite Htb, Htq.
      rewrite unsigned_sub_exact by nia.
      assert (forall m, m < 8 ->
                buf_read ((block - 1) mod 4) m q (burst src k buf)
                = src !!! ((block - 1) * N + m * (N / 8) + q)) as Hread.
      { intros m Hm.
        assert (buf_read ((block - 1) mod 4) m q (burst src k buf)
                = cell ((block - 1) mod 4) (m * (N / 8) + q) (burst src k buf))
          as ->.
        { unfold cell. f_equal.
          - apply (Nat.div_unique _ _ _ q); lia.
          - apply (Nat.mod_unique _ _ m); lia. }
        rewrite Hcells by nia.
        destruct (decide ((block - 1) mod 4 = block mod 4
                          /\ 8 * q <= m * (N / 8) + q < 8 * q + 8))
          as [[Heq _] | _].
        - destruct Hreplica as [Hne | ->]; [by rewrite Heq in Hne | lia].
        - rewrite Hprev by nia. f_equal. lia. }
      by rewrite !Hread by lia.
    + replace (S k - N / 8) with 0 by lia.
      replace (k - N / 8) with 0 in Hpipe by lia. done.
Qed.

Lemma fetch_invariant_loop (src : list V) (chanin : list (float2x8 V))
    (n : nat) :
  3 <= LOGN -> (Z.of_nat n * 8 <= 2 ^ 32)%Z ->
  fetch_invariant src chanin n
    (fold_left (fetch_xilinx_step src) (seq 0 n) (fresh_buf, chanin)).
Proof.
  intros Hlog Hsmall.
  pose proof (eighth_pos Hlog) as Hpos. pose proof (N_points Hlog) as HN.
  induction n as [|n IH].
  - cbn [seq fold_left]. unfold fetch_invariant. cbn [fst snd].
    rewrite Nat.Div0.div_0_l, Nat.Div0.mod_0_l.
    split; [apply fresh_buf_shaped |]. split; [lia |]. split; [lia |].
    cbn. by rewrite app_nil_r.
  - rewrite seq_S, fold_left_app. cbn [fold_left Nat.add].
    apply fetch_invariant_step; [done | done | apply IH; lia].
Qed.

Lemma fmap_seq_blocks {X : Type} (f : nat -> X) (a b : nat) :
  f <$> seq 0 (a * b)
  = k ← seq 0 a; (fun j => f (k * b + j)) <$> seq 0 b.
Proof.
  induction a as [|a IH]; [done |].
  rewrite seq_S, bind_app, bind_singleton, <- IH. cbn [Nat.add].
  replace (S a * b) with (a * b + b) by lia.
  rewrite seq_app, fmap_app. f_equal. cbn [Nat.add].
  replace (seq (a * b) b) with (Nat.add (a * b) <$> seq 0 b)
    by (rewrite fmap_add_seq; f_equal; lia).
  by rewrite <- list_fmap_compose.
Qed.

Lemma component_tuple_at (src : list V) (t c : nat) :
  c < 8 ->
  component c (tuple_at src t)
  = src !!! (t / (N / 8) * N + segment c * (N / 8) + t mod (N / 8)).
Proof. intros Hc. do 8 (destruct c as [|c]; [reflexivity |]). lia. Qed.

Lemma tuples_stream (src : list V) (iter c : nat) :
  3 <= LOGN -> c < 8 ->
  component c <$> (tuple_at src <$> seq 0 (iter * (N / 8))) = stream src iter c.
Proof.
  intros Hlog Hc. pose proof (eighth_pos Hlog) as Hpos.
  rewrite <- list_fmap_compose, fmap_seq_blocks. unfold stream.
  apply list_bind_ext; [| done]. intros k.
  apply list_fmap_ext. intros i j Hj. apply lookup_seq in Hj as [-> Hj].
  cbn [compose Nat.add]. rewrite component_tuple_at by done.
  rewrite <- segment_bit_reversed by done. f_equal.
  assert ((k * (N / 8) + i) / (N / 8) = k) as ->.
  { symmetry. apply (Nat.div_unique _ _ _ i); lia. }
  assert ((k * (N / 8) + i) mod (N / 8) = i) as ->.
  { symmetry. apply (Nat.mod_unique _ _ k); lia. }
  done.
Qed.

Lemma fetch_xilinx_tuples (src : list V) (iter : nat)
    (chanin : list (float2x8 V)) :
  3 <= LOGN -> (Z.of_nat ((iter + 1) * N) <= 2 ^ 32)%Z ->
  fetch_xilinx src iter chanin
  = chanin ++ (tuple_at src <$> seq 0 (iter * (N / 8))).
Proof.
  intros Hlog Hsmall. pose proof (N_points Hlog) as HN.
  unfold fetch_xilinx. change (N / POINTS) with (N / 8).
  destruct (fetch_invariant_loop src chanin ((iter + 1) * (N / 8)) Hlog)
    as (_ & _ & _ & ->); [nia |].
  by replace ((iter + 1) * (N / 8) - N / 8) with (iter * (N / 8)) by lia.
Qed.

(** *** [fft1d] *)

(** [fft_step] and the array of its delay elements are not in src; [zero]
    is the [float2] of two zeros. *)
Variable fft_step :
  float2x8 V -> nat -> list V -> Z -> nat -> float2x8 V * list V.
Variable zero : V.

(** A loop whose body can block. *)
Definition loop {St : Type} (body : nat -> St -> option St) (n : nat)
    (st : St) : option St :=
  fold_left (fun st i => st ≫= body i) (seq 0 n) (Some st).

(** The eight reads and the eight writes of one iteration. *)
Definition read_tuple (chans : list (list V))
    : option (float2x8 V * list (list V)) :=
  '(v0, chans) ← read_channel_intel 0 chans;
  '(v1, chans) ← read_channel_intel 1 chans;
  '(v2, chans) ← read_channel_intel 2 chans;
  '(v3, chans) ← read_channel_intel 3 chans;
  '(v4, chans) ← read_channel_intel 4 chans;
  '(v5, chans) ← read_channel_intel 5 chans;
  '(v6, chans) ← read_channel_intel 6 chans;
  '(v7, chans) ← read_channel_intel 7 chans;
  Some ({| i0 := v0; i1 := v1; i2 := v2; i3 := v3;
           i4 := v4; i5 := v5; i6 := v6; i7 := v7 |}, chans).

Definition write_tuple (data : float2x8 V) (chans : list (list V))
    : list (list V) :=
  let chans := write_channel_intel 0 (i0 data) chans in
  let chans := write_channel_intel 1 (i1 data) chans in
  let chans := write_channel_intel 2 (i2 data) chans in
  let chans := write_channel_intel 3 (i3 data) chans in
  let chans := write_channel_intel 4 (i4 data) chans in
  let chans := write_channel_intel 5 (i5 data) chans in
  let chans := write_channel_intel 6 (i6 data) chans in
  write_channel_intel 7 (i7 data) chans.

Definition zeros : float2x8 V :=
  {| i0 := zero; i1 := zero; i2 := zero; i3 := zero;
     i4 := zero; i5 := zero; i6 := zero; i7 := zero |}.

(** The body of the loop of [fft1d] on its state: the two arrays of
    channels and the delay elements.  [base] and [offset] are computed in
    the source and not used. *)
Definition fft1d_step (count : nat) (inverse : Z) (i : nat)
    (st : list (list V) * list (list V) * list V)
    : option (list (list V) * list (list V) * list V) :=
  let '(chanin, chanout, fft_delay_elements) := st in
  '(data, chanin) ←
    (if decide (i < count * (N / POINTS))
     then read_tuple chanin
     else Some (zeros, chanin));
  let '(data, fft_delay_elements) :=
    fft_step data (i mod (N / POINTS)) fft_delay_elements inverse LOGN in
  let chanout :=
    if decide (wrap32 (Z.of_nat (N / POINTS) - 1) <= Z.of_nat i)%Z
    then write_tuple data chanout
    else chanout in
  Some (chanin, chanout, fft_delay_elements).

(** [fft1d]: the loop runs while
    [i < count * (N / POINTS) + N / POINTS - 1], on [unsigned]. *)
Definition fft1d (count : nat) (inverse : Z)
    (st : list (list V) * list (list V) * list V)
    : option (list (list V) * list (list V) * list V) :=
  loop (fft1d_step count inverse)
       (Z.to_nat (wrap32 (Z.of_nat (count * (N / POINTS) + N / POINTS) - 1)))
       st.

(** *** [store], the variant for Intel devices *)

Definition store_step (k j : nat) (st : list V * list (list V))
    : option (list V * list (list V)) :=
  let '(dest, chanout) := st in
  '(v, chanout) ← read_channel_intel 0 chanout;
  let dest := <[global_index k (j * POINTS) := v]> dest in
  '(v, chanout) ← read_channel_intel 1 chanout;
  let dest := <[global_index k (j * POINTS + 1) := v]> dest in
  '(v, chanout) ← read_channel_intel 2 chanout;
  let dest := <[global_index k (j * POINTS + 2) := v]> dest in
  '(v, chanout) ← read_channel_intel 3 chanout;
  let dest := <[global_index k (j * POINTS + 3) := v]> dest in
  '(v, chanout) ← read_channel_intel 4 chanout;
  let dest := <[global_index k (j * POINTS + 4) := v]> dest in
  '(v, chanout) ← read_channel_intel 5 chanout;
  let dest := <[global_index k (j * POINTS + 5) := v]> dest in
  '(v, chanout) ← read_channel_intel 6 chanout;
  let dest := <[global_index k (j * POINTS + 6) := v]> dest in
  '(v, chanout) ← read_channel_intel 7 chanout;
  let dest := <[global_index k (j * POINTS + 7) := v]> dest in
  Some (dest, chanout).

Definition store (dest : list V) (iter : nat) (chanout : list (list V))
    : option (list V * list (list V)) :=
  loop (fun k => loop (store_step k) (N / POINTS)) iter (dest, chanout).

(** *** [store], the variant for Xilinx devices *)

(** [buf] and the tuple [buf2x8] are declared without a value: [buf]
    holds what its memory holds, and [garbage k] is the tuple of round
    [k].  The tuple goes to the pipe; the assignments to its fields after
    that have no effect. *)
Definition store_xilinx_step (garbage : nat -> float2x8 V)
    (buf : list (list (list V))) (iter : nat)
    (st : list V * list (float2x8 V)) (k : nat)
    : list V * list (float2x8 V) :=
  let '(dest, chanout) := st in
  let chanout :=
    if decide (k < iter * (N / POINTS))
    then chanout ++ [garbage k]
    else chanout in
  let dest :=
    fold_left
      (fun dest j =>
         let local_i := Nat.land (burst_index k j) (N - 1) in
         <[burst_index k j :=
             buf_read
               (Nat.land (Nat.shiftr k (LOGN - LOGPOINTS))
                         (BUFFER_REPLICATION - 1))
               (Nat.shiftr local_i (LOGN - LOGPOINTS))
               (Nat.land local_i (2 ^ (LOGN - LOGPOINTS) - 1)) buf]> dest)
      (seq 0 POINTS) dest in
  (dest, chanout).

Definition store_xilinx (garbage : nat -> float2x8 V)
    (buf : list (list (list V))) (dest : list V) (iter : nat)
    (chanout : list (float2x8 V)) : list V * list (float2x8 V) :=
  fold_left (store_xilinx_step garbage buf iter)
            (seq 0 ((iter + 1) * (N / POINTS))) (dest, chanout).

(** *** Loops and channels *)

Lemma loop_S {St : Type} (body : nat -> St -> option St) (n : nat) (st : St) :
  loop body (S n) st = loop body n st ≫= body n.
Proof. unfold loop. by rewrite seq_S, fold_left_app. Qed.

Lemma read_tuple_heads (chans : list (list V)) :
  length chans = 8 ->
  (forall c, c < 8 -> chans !!! c <> []) ->
  exists data chans',
    read_tuple chans = Some (data, chans')
    /\ length chans' = 8
    /\ forall c, c < 8 -> chans !!! c = component c data :: chans' !!! c.
Proof.
  intros Hlen Hheads.
  destruct (eight_channels chans Hlen)
    as (q0 & q1 & q2 & q3 & q4 & q5 & q6 & q7 & ->).
  pose proof (Hheads 0 ltac:(lia)) as H0. pose proof (Hheads 1 ltac:(lia)) as H1.
  pose proof (Hheads 2 ltac:(lia)) as H2. pose proof (Hheads 3 ltac:(lia)) as H3.
  pose proof (Hheads 4 ltac:(lia)) as H4. pose proof (Hheads 5 ltac:(lia)) as H5.
  pose proof (Hheads 6 ltac:(lia)) as H6. pose proof (Hheads 7 ltac:(lia)) as H7.
  cbn in H0, H1, H2, H3, H4, H5, H6, H7.
  destruct q0 as [|v0 q0]; [done |]. destruct q1 as [|v1 q1]; [done |].
  destruct q2 as [|v2 q2]; [done |]. destruct q3 as [|v3 q3]; [done |].
  destruct q4 as [|v4 q4]; [done |]. destruct q5 as [|v5 q5]; [done |].
  destruct q6 as [|v6 q6]; [done |]. destruct q7 as [|v7 q7]; [done |].
  eexists _, _. split; [reflexivity |]. split; [reflexivity |].
  intros c Hc. do 8 (destruct c as [|c]; [reflexivity |]). lia.
Qed.

Lemma read_tuple_blocks (chans : list (list V)) (c : nat) :
  length chans = 8 -> c < 8 -> chans !!! c = [] -> read_tuple chans = None.
Proof.
  intros Hlen Hc Hempty.
  destruct (eight_channels chans Hlen)
    as (q0 & q1 & q2 & q3 & q4 & q5 & q6 & q7 & ->).
  destruct q0, q1, q2, q3, q4, q5, q6, q7;
    try reflexivity;
    do 8 (destruct c as [|c]; [done |]); lia.
Qed.

Lemma write_tuple_channels (data : float2x8 V) (chans : list (list V)) :
  length chans = 8 ->
  length (write_tuple data chans) = 8
  /\ forall c, c < 8 ->
       write_tuple data chans !!! c = chans !!! c ++ [component c data].
Proof.
  intros Hlen.
  destruct (eight_channels chans Hlen)
    as (q0 & q1 & q2 & q3 & q4 & q5 & q6 & q7 & ->).
  split; [reflexivity |].
  intros c Hc. do 8 (destruct c as [|c]; [reflexivity |]). lia.
Qed.

#[global] Instance float2x8_inhabited : Inhabited (float2x8 V) :=
  populate {| i0 := inhabitant; i1 := inhabitant; i2 := inhabitant;
              i3 := inhabitant; i4 := inhabitant; i5 := inhabitant;
              i6 := inhabitant; i7 := inhabitant |}.

Lemma float2x8_components (a b : float2x8 V) :
  (forall c, c < 8 -> component c a = component c b) -> a = b.
Proof.
  intros Hsame. destruct a, b.
  pose proof (Hsame 0 ltac:(lia)). pose proof (Hsame 1 ltac:(lia)).
  pose proof (Hsame 2 ltac:(lia)). pose proof (Hsame 3 ltac:(lia)).
  pose proof (Hsame 4 ltac:(lia)). pose proof (Hsame 5 ltac:(lia)).
  pose proof (Hsame 6 ltac:(lia)). pose proof (Hsame 7 ltac:(lia)).
  cbn in *. by subst.
Qed.

(** *** What [fft1d] does with the engine *)

(** The tuple at place [t] of eight channels. *)
Definition tuple_of (chans : list (list V)) (t : nat) : float2x8 V :=
  {| i0 := (chans !!! 0) !!! t; i1 := (chans !!! 1) !!! t;
     i2 := (chans !!! 2) !!! t; i3 := (chans !!! 3) !!! t;
     i4 := (chans !!! 4) !!! t; i5 := (chans !!! 5) !!! t;
     i6 := (chans !!! 6) !!! t; i7 := (chans !!! 7) !!! t |}.

Lemma component_tuple_of (chans : list (list V)) (t c : nat) :
  c < 8 -> component c (tuple_of chans t) = (chans !!! c) !!! t.
Proof. intros Hc. do 8 (destruct c as [|c]; [reflexivity |]). lia. Qed.

(** The engine on a sequence of tuples: the first [n] steps, from the
    delay elements [delay]; the results and the delay elements after. *)
Definition engine_steps (inverse : Z) (inputs : list (float2x8 V)) (n : nat)
    (delay : list V) : list (float2x8 V) * list V :=
  fold_left
    (fun st i =>
       let '(data, delay) :=
         fft_step (inputs !!! i) (i mod (N / 8)) st.2 inverse LOGN in
       (st.1 ++ [data], delay))
    (seq 0 n) ([], delay).

Definition engine (inverse : Z) (inputs : list (float2x8 V))
    (delay : list V) : list (float2x8 V) * list V :=
  engine_steps inverse inputs (length inputs) delay.

Lemma engine_steps_S (inverse : Z) (inputs : list (float2x8 V)) (n : nat)
    (delay : list V) :
  engine_steps inverse inputs (S n) delay
  = let st := engine_steps inverse inputs n delay in
    let '(data, delay) :=
      fft_step (inputs !!! n) (n mod (N / 8)) st.2 inverse LOGN in
    (st.1 ++ [data], delay).
Proof. unfold engine_steps. by rewrite seq_S, fold_left_app. Qed.

Lemma engine_steps_length (inverse : Z) (inputs : list (float2x8 V))
    (n : nat) (delay : list V) :
  length (engine_steps inverse inputs n delay).1 = n.
Proof.
  induction n as [|n IH]; [done |].
  rewrite engine_steps_S. cbn zeta.
  destruct (fft_step _ _ _ _ _) as [data delay']. cbn [fst].
  rewrite length_app, IH. simpl. lia.
Qed.

(** The tuples that [fft1d] gives the engine: the [count * (N / 8)] tuples
    of the channels, then [N / 8 - 1] tuples of zeros. *)
Definition engine_inputs (chanin : list (list V)) (count : nat)
    : list (float2x8 V) :=
  (tuple_of chanin <$> seq 0 (count * (N / 8))) ++ replicate (N / 8 - 1) zeros.

Lemma engine_inputs_lookup (chanin : list (list V)) (count i : nat) :
  i < count * (N / 8) + N / 8 - 1 ->
  engine_inputs chanin count !!! i
  = if decide (i < count * (N / 8)) then tuple_of chanin i else zeros.
Proof.
  intros Hi. unfold engine_inputs.
  destruct (decide (i < count * (N / 8))) as [Hlt | Hge].
  - rewrite lookup_total_app_l by (by rewrite length_fmap, length_seq).
    rewrite (list_lookup_total_fmap (tuple_of chanin))
      by (by rewrite length_seq).
    by rewrite lookup_total_seq_lt.
  - rewrite lookup_total_app_r by (rewrite length_fmap, length_seq; lia).
    rewrite length_fmap, length_seq.
    apply lookup_total_replicate_2. lia.
Qed.

(** The invariant of the loop of [fft1d] before iteration [n]. *)
Definition fft1d_invariant (count : nat) (inverse : Z)
    (chanin chanout : list (list V)) (delay : list V) (n : nat)
    (st : list (list V) * list (list V) * list V) : Prop :=
  let run := engine_steps inverse (engine_inputs chanin count) n delay in
  length st.1.1 = 8 /\ length st.1.2 = 8 /\ st.2 = run.2
  /\ forall c, c < 8 ->
       st.1.1 !!! c = drop (n `min` (count * (N / 8))) (chanin !!! c)
       /\ st.1.2 !!! c
          = chanout !!! c ++ (component c <$> drop (N / 8 - 1) run.1).

Lemma fft1d_invariant_loop (count : nat) (inverse : Z)
    (chanin chanout : list (list V)) (delay : list V) (n : nat) :
  3 <= LOGN -> (Z.of_nat (N / 8) <= 2 ^ 32)%Z ->
  length chanin = 8 -> length chanout = 8 ->
  (forall c, c < 8 -> count * (N / 8) <= length (chanin !!! c)) ->
  n <= count * (N / 8) + N / 8 - 1 ->
  exists st,
    loop (fft1d_step count inverse) n (chanin, chanout, delay) = Some st
    /\ fft1d_invariant count inverse chanin chanout delay n st.
Proof.
  intros Hlog Hsmall Hin Hout Henough.
  pose proof (eighth_pos Hlog) as Hpos.
  induction n as [|n IH]; intros Hn.
  - exists (chanin, chanout, delay). split; [done |].
    unfold fft1d_invariant. cbn [fst snd engine_steps seq fold_left].
    split; [done |]. split; [done |]. split; [done |].
    intros c Hc. rewrite drop_nil, app_nil_r. done.
  - destruct IH as ([[chanin_n chanout_n] delay_n] & Hloop & Hinv); [lia |].
    rewrite loop_S, Hloop. cbn [mbind option_bind].
    destruct Hinv as (Hlen_in & Hlen_out & Hdelay & Hchans).
    cbn [fst snd] in Hlen_in, Hlen_out, Hdelay, Hchans.
    unfold fft1d_step. change (N / POINTS) with (N / 8).
    assert (exists chanin',
              (if decide (n < count * (N / 8))
               then read_tuple chanin_n
               else Some (zeros, chanin_n))
              = Some (engine_inputs chanin count !!! n, chanin')
              /\ length chanin' = 8
              /\ forall c, c < 8 ->
                   chanin' !!! c
                   = drop (S n `min` (count * (N / 8))) (chanin !!! c))
      as (chanin' & -> & Hlen_in' & Hchanin').
    { rewrite engine_inputs_lookup by lia.
      destruct (decide (n < count * (N / 8))) as [Hlt | Hge].
      - assert (forall c, c < 8 ->
                  chanin_n !!! c
                  = (chanin !!! c) !!! n :: drop (S n) (chanin !!! c)) as Hheads.
        { intros c Hc. destruct (Hchans c Hc) as [-> _].
          rewrite Nat.min_l by lia. apply drop_S.
          apply list_lookup_lookup_total_lt. pose proof (Henough c Hc). lia. }
        destruct (read_tuple_heads chanin_n Hlen_in)
          as (data & chanin' & -> & Hlen' & Htails).
        { intros c Hc. by rewrite Hheads. }
        exists chanin'. split; [| split; [done |]].
        + do 2 f_equal. apply float2x8_components. intros c Hc.
          rewrite component_tuple_of by done.
          pose proof (Htails c Hc) as Ht. rewrite Hheads in Ht by done.
          by injection Ht as <- _.
        + intros c Hc. pose proof (Htails c Hc) as Ht.
          rewrite Hheads in Ht by done. injection Ht as _ <-.
          by rewrite Nat.min_l by lia.
      - exists chanin_n. split; [done |]. split; [done |].
        intros c Hc. destruct (Hchans c Hc) as [-> _].
        by rewrite !Nat.min_r by lia. }
    cbn [mbind option_bind].
    pose proof (engine_steps_S inverse (engine_inputs chanin count) n delay)
      as Hstep.
    cbn zeta in Hstep. rewrite <- Hdelay in Hstep.
    destruct (fft_step _ _ delay_n _ _) as [data delay'].
    eexists. split; [reflexivity |].
    unfold fft1d_invariant. cbn [fst snd]. rewrite Hstep. cbn [fst snd].
    pose proof (engine_steps_length inverse (engine_inputs chanin count) n delay)
      as Hruns.
    assert (wrap32 (Z.of_nat (N / 8) - 1) = Z.of_nat (N / 8 - 1)) as ->.
    { unfold wrap32. rewrite Z.mod_small; lia. }
    destruct (decide (Z.of_nat (N / 8 - 1) <= Z.of_nat n)%Z) as [Hgate | Hwait].
    + destruct (write_tuple_channels data chanout_n Hlen_out)
        as (Hlen_out' & Hchanout').
      split; [done |]. split; [done |]. split; [done |].
      intros c Hc. split; [by apply Hchanin' |].
      rewrite Hchanout' by done. destruct (Hchans c Hc) as [_ ->].
      rewrite drop_app_le by lia. by rewrite fmap_app, app_assoc.
    + split; [done |]. split; [done |]. split; [done |].
      intros c Hc. split; [by apply Hchanin' |].
      destruct (Hchans c Hc) as [_ ->].
      by rewrite !drop_ge by (rewrite ?length_app, Hruns; cbn [length]; lia).
Qed.

Lemma engine_inputs_length (chanin : list (list V)) (count : nat) :
  length (engine_inputs chanin count) = count * (N / 8) + (N / 8 - 1).
Proof.
  unfold engine_inputs.
  by rewrite length_app, length_fmap, length_seq, length_replicate.
Qed.

Lemma fft1d_run (count : nat) (inverse : Z)
    (chanin chanout : list (list V)) (delay : list V) :
  3 <= LOGN -> (Z.of_nat (count * (N / 8) + N / 8) <= 2 ^ 32)%Z ->
  length chanin = 8 -> length chanout = 8 ->
  (forall c, c < 8 -> count * (N / 8) <= length (chanin !!! c)) ->
  let run := engine inverse (engine_inputs chanin count) delay in
  exists chanin' chanout',
    fft1d count inverse (chanin, chanout, delay)
    = Some (chanin', chanout', run.2)
    /\ length chanin' = 8 /\ length chanout' = 8
    /\ length (drop (N / 8 - 1) run.1) = count * (N / 8)
    /\ forall c, c < 8 ->
         chanin' !!! c = drop (count * (N / 8)) (chanin !!! c)
         /\ chanout' !!! c
            = chanout !!! c ++ (component c <$> drop (N / 8 - 1) run.1).
Proof.
  intros Hlog Hsmall Hin Hout Henough. cbn zeta.
  pose proof (eighth_pos Hlog) as Hpos.
  unfold fft1d, engine. change (N / POINTS) with (N / 8).
  assert (Z.to_nat (wrap32 (Z.of_nat (count * (N / 8) + N / 8) - 1))
          = count * (N / 8) + N / 8 - 1) as ->.
  { unfold wrap32. rewrite Z.mod_small; lia. }
  rewrite engine_inputs_length.
  replace (count * (N / 8) + (N / 8 - 1)) with (count * (N / 8) + N / 8 - 1)
    by lia.
  destruct (fft1d_invariant_loop count inverse chanin chanout delay
              (count * (N / 8) + N / 8 - 1) Hlog)
    as ([[chanin' chanout'] delay'] & -> & Hlen_in & Hlen_out & Hdelay & Hchans);
    [lia | done | done | done | lia |].
  cbn [fst snd] in Hlen_in, Hlen_out, Hdelay, Hchans. subst delay'.
  exists chanin', chanout'. split; [done |]. split; [done |]. split; [done |].
  split.
  - rewrite length_drop, engine_steps_length. lia.
  - intros c Hc. destruct (Hchans c Hc) as [-> ->].
    by rewrite Nat.min_r by lia.
Qed.

(** *** Where [store] puts the values *)

Lemma store_step_tuple (k j : nat) (dest : list V) (chanout : list (list V)) :
  store_step k j (dest, chanout)
  = '(data, chanout') ← read_tuple chanout;
    Some (<[global_index k (j * POINTS + 7) := i7 data]>
            (<[global_index k (j * POINTS + 6) := i6 data]>
               (<[global_index k (j * POINTS + 5) := i5 data]>
                  (<[global_index k (j * POINTS + 4) := i4 data]>
                     (<[global_index k (j * POINTS + 3) := i3 data]>
                        (<[global_index k (j * POINTS + 2) := i2 data]>
                           (<[global_index k (j * POINTS + 1) := i1 data]>
                              (<[global_index k (j * POINTS) := i0 data]>
                                 dest))))))),
          chanout').
Proof.
  unfold store_step, read_tuple.
  destruct (read_channel_intel 0 chanout) as [[v0 ch0] |]; [| done].
  cbn [mbind option_bind].
  destruct (read_channel_intel 1 ch0) as [[v1 ch1] |]; [| done].
  cbn [mbind option_bind].
  destruct (read_channel_intel 2 ch1) as [[v2 ch2] |]; [| done].
  cbn [mbind option_bind].
  destruct (read_channel_intel 3 ch2) as [[v3 ch3] |]; [| done].
  cbn [mbind option_bind].
  destruct (read_channel_intel 4 ch3) as [[v4 ch4] |]; [| done].
  cbn [mbind option_bind].
  destruct (read_channel_intel 5 ch4) as [[v5 ch5] |]; [| done].
  cbn [mbind option_bind].
  destruct (read_channel_intel 6 ch5) as [[v6 ch6] |]; [| done].
  cbn [mbind option_bind].
  destruct (read_channel_intel 7 ch6) as [[v7 ch7] |]; [| done].
  done.
Qed.

(** The invariant of the loops of [store] after [t] tuples. *)
Definition store_invariant (dest : list V) (chanout : list (list V))
    (t : nat) (st : list V * list (list V)) : Prop :=
  length st.1 = length dest /\ length st.2 = 8
  /\ (forall c, c < 8 -> st.2 !!! c = drop t (chanout !!! c))
  /\ forall p,
       st.1 !!! p = if decide (p < 8 * t)
                    then (chanout !!! (p mod 8)) !!! (p / 8)
                    else dest !!! p.

Lemma store_invariant_step (dest : list V) (chanout : list (list V))
    (k j : nat) (st : list V * list (list V)) :
  3 <= LOGN -> j < N / 8 ->
  (Z.of_nat (S k * N) <= 2 ^ 32)%Z -> S k * N <= length dest ->
  (forall c, c < 8 -> k * (N / 8) + j < length (chanout !!! c)) ->
  store_invariant dest chanout (k * (N / 8) + j) st ->
  exists st',
    store_step k j st = Some st'
    /\ store_invariant dest chanout (S (k * (N / 8) + j)) st'.
Proof.
  intros Hlog Hj Hsmall Hdest Henough (Hlen & Hlen8 & Hchans & Hvalues).
  pose proof (N_points Hlog) as HN.
  destruct st as [dest_t chans_t]. cbn [fst snd] in *.
  set (t := k * (N / 8) + j) in *.
  assert (forall c, c < 8 ->
            chans_t !!! c = (chanout !!! c) !!! t :: drop (S t) (chanout !!! c))
    as Hheads.
  { intros c Hc. rewrite Hchans by done. apply drop_S.
    apply list_lookup_lookup_total_lt. by apply Henough. }
  destruct (read_tuple_heads chans_t Hlen8)
    as (data & chans' & Hread & Hlen' & Htails).
  { intros c Hc. by rewrite Hheads. }
  rewrite store_step_tuple, Hread. cbn [mbind option_bind].
  eexists. split; [reflexivity |].
  assert (forall c, c < 8 -> component c data = (chanout !!! c) !!! t) as Hdata.
  { intros c Hc. pose proof (Htails c Hc) as Ht.
    rewrite Hheads in Ht by done. by injection Ht as <- _. }
  assert (forall c, c < 8 -> global_index k (j * POINTS + c) = 8 * t + c)
    as Hindex.
  { intros c Hc. rewrite global_index_exact; unfold POINTS, LOGPOINTS, t.
    - change (2 ^ 3) with 8. nia.
    - change (2 ^ 3) with 8. nia. }
  assert (global_index k (j * POINTS) = 8 * t + 0) as Hindex0
    by (rewrite <- (Hindex 0) by lia; f_equal; lia).
  rewrite Hindex0, !Hindex by lia.
  unfold store_invariant. cbn [fst snd]. rewrite !length_insert.
  split; [done |]. split; [done |]. split.
  - intros c Hc. pose proof (Htails c Hc) as Ht.
    rewrite Hheads in Ht by done. by injection Ht as _ <-.
  - intros p.
    assert (8 * t + 8 <= length dest_t) as Hroom by (unfold t; nia).
    destruct (decide (p < 8 * t)) as [Hold | Hnew].
    + rewrite !list_lookup_total_insert_ne by lia.
      rewrite Hvalues. destruct (decide (p < 8 * t)); [| lia].
      by destruct (decide (p < 8 * S t)); [| lia].
    + destruct (decide (p < 8 * S t)) as [Hhit | Hmiss].
      * assert (p / 8 = t) as ->.
        { symmetry. apply (Nat.div_unique _ _ _ (p - 8 * t)); lia. }
        assert (p mod 8 = p - 8 * t) as ->.
        { symmetry. apply (Nat.mod_unique _ _ t); lia. }
        rewrite <- Hdata by lia.
        assert (p = 8 * t + (p - 8 * t)) as Hp by lia.
        revert Hp. generalize (p - 8 * t) as c. intros c ->.
        assert (c < 8) as Hc by lia. clear Hnew Hhit.
        do 8 (destruct c as [|c];
              [rewrite ?list_lookup_total_insert_ne by lia;
               rewrite list_lookup_total_insert_eq
                 by (rewrite ?length_insert; lia);
               reflexivity |]).
        lia.
      * rewrite !list_lookup_total_insert_ne by lia.
        rewrite Hvalues. by destruct (decide (p < 8 * t)); [lia |].
Qed.

Lemma store_inner_loop (dest : list V) (chanout : list (list V))
    (k n : nat) (st : list V * list (list V)) :
  3 <= LOGN -> n <= N / 8 ->
  (Z.of_nat (S k * N) <= 2 ^ 32)%Z -> S k * N <= length dest ->
  (forall c, c < 8 -> S k * (N / 8) <= length (chanout !!! c)) ->
  store_invariant dest chanout (k * (N / 8)) st ->
  exists st',
    loop (store_step k) n st = Some st'
    /\ store_invariant dest chanout (k * (N / 8) + n) st'.
Proof.
  intros Hlog Hn Hsmall Hdest Henough Hinv.
  induction n as [|n IH].
  - exists st. split; [done |]. by rewrite Nat.add_0_r.
  - destruct IH as (st_n & Hloop & Hinv_n); [lia |].
    rewrite loop_S, Hloop. cbn [mbind option_bind].
    destruct (store_invariant_step dest chanout k n st_n Hlog)
      as (st' & Hstep & Hinv'); [lia | done | done | | done |].
    { intros c Hc. pose proof (Henough c Hc). lia. }
    exists st'. split; [done |]. by rewrite Nat.add_succ_r.
Qed.

Lemma store_run (dest : list V) (iter : nat) (chanout : list (list V)) :
  3 <= LOGN -> (Z.of_nat (iter * N) <= 2 ^ 32)%Z ->
  iter * N <= length dest -> length chanout = 8 ->
  (forall c, c < 8 -> iter * (N / 8) <= length (chanout !!! c)) ->
  exists st,
    store dest iter chanout = Some st
    /\ store_invariant dest chanout (iter * (N / 8)) st.
Proof.
  intros Hlog Hsmall Hdest Hlen Henough. unfold store.
  change (N / POINTS) with (N / 8).
  induction iter as [|iter IH].
  - exists (dest, chanout). split; [done |].
    unfold store_invariant. cbn [fst snd Nat.mul].
    split; [done |]. split; [done |]. split; [done |].
    intros p. by destruct (decide (p < 8 * 0)); [lia |].
  - destruct IH as (st & Hloop & Hinv); [lia | lia | |].
    { intros c Hc. pose proof (Henough c Hc). lia. }
    rewrite loop_S, Hloop. cbn [mbind option_bind].
    destruct (store_inner_loop dest chanout iter (N / 8) st Hlog)
      as (st' & Hinner & Hinv'); [done | done | done | done | done |].
    exists st'. split; [done |].
    by replace (S iter * (N / 8)) with (iter * (N / 8) + N / 8) by lia.
Qed.

Lemma stream_length (src : list V) (iter c : nat) :
  length (stream src iter c) = iter * (N / 8).
Proof.
  unfold stream. induction iter as [|iter IH]; [done |].
  rewrite seq_S, bind_app, length_app, IH, bind_singleton.
  rewrite length_fmap, length_seq. lia.
Qed.

(** *** The kernels one by one *)

(** X21.  The Intel variant of [fetch] appends to channel [c], for every
    iteration [k] in turn, the [N / 8] values of the input that start at
    [k * N + bit_reversed(c, 3) * (N / 8)]: each channel receives
    [iter * (N / 8)] values, and the eighths of the input go to the
    channels in bit-reversed order. *)
Theorem fetch_streams (src : list V) (iter : nat) (chanin : list (list V)) :
  3 <= LOGN -> (Z.of_nat (iter * N) <= 2 ^ 32)%Z -> length chanin = 8 ->
  length (fetch src iter chanin) = 8
  /\ forall c, c < 8 ->
       fetch src iter chanin !!! c = chanin !!! c ++ stream src iter c
       /\ length (stream src iter c) = iter * (N / 8).
Proof.
  intros Hlog Hsmall Hlen.
  destruct (fetch_channels src iter chanin Hlog Hsmall Hlen) as (Hlen' & Hvalues).
  split; [done |]. intros c Hc. split; [by apply Hvalues | apply stream_length].
Qed.

(** X22.  The Xilinx variant of [fetch], with its four buffers and its
    one additional round, sends over the pipe the same values in the same
    order as the Intel variant writes to the eight channels. *)
Theorem fetch_xilinx_same (src : list V) (iter c : nat) :
  3 <= LOGN -> (Z.of_nat ((iter + 1) * N) <= 2 ^ 32)%Z -> c < 8 ->
  component c <$> fetch_xilinx src iter []
  = fetch src iter (replicate 8 []) !!! c.
Proof.
  intros Hlog Hsmall Hc.
  rewrite fetch_xilinx_tuples by done. rewrite app_nil_l.
  rewrite tuples_stream by done.
  destruct (fetch_channels src iter (replicate 8 []) Hlog) as (_ & Hvalues);
    [lia | done |].
  rewrite Hvalues by done.
  by rewrite lookup_total_replicate_2 by done.
Qed.

(** X23.  When every input channel holds [count * (N / 8)] values,
    [fft1d] ends; it has taken exactly that many values from every input
    channel and has given the engine the tuples they form, followed by
    [N / 8 - 1] tuples of zeros; it has left out the first [N / 8 - 1]
    results of the engine and has written the [count * (N / 8)] results
    after them to the output channels, component by component. *)
Theorem fft1d_engine (count : nat) (inverse : Z)
    (chanin chanout : list (list V)) (delay : list V) :
  3 <= LOGN -> (Z.of_nat (count * (N / 8) + N / 8) <= 2 ^ 32)%Z ->
  length chanin = 8 -> length chanout = 8 ->
  (forall c, c < 8 -> count * (N / 8) <= length (chanin !!! c)) ->
  let run := engine inverse (engine_inputs chanin count) delay in
  exists chanin' chanout',
    fft1d count inverse (chanin, chanout, delay)
    = Some (chanin', chanout', run.2)
    /\ length (drop (N / 8 - 1) run.1) = count * (N / 8)
    /\ forall c, c < 8 ->
         chanin' !!! c = drop (count * (N / 8)) (chanin !!! c)
         /\ chanout' !!! c
            = chanout !!! c ++ (component c <$> drop (N / 8 - 1) run.1).
Proof.
  intros Hlog Hsmall Hin Hout Henough.
  destruct (fft1d_run count inverse chanin chanout delay Hlog Hsmall Hin Hout
              Henough)
    as (chanin' & chanout' & Hrun & _ & _ & Hlength & Hchans).
  by exists chanin', chanout'.
Qed.

(** X24.  When every output channel holds [iter * (N / 8)] values and
    [dest] has room for [iter * N], the Intel variant of [store] ends; it
    has taken exactly that many values from every channel and has put
    value [t] of channel [c] at place [8 * t + c] of [dest], so that the
    eight values of a tuple lie side by side; the rest of [dest] is as it
    was. *)
Theorem store_places (dest : list V) (iter : nat) (chanout : list (list V)) :
  3 <= LOGN -> (Z.of_nat (iter * N) <= 2 ^ 32)%Z ->
  iter * N <= length dest -> length chanout = 8 ->
  (forall c, c < 8 -> iter * (N / 8) <= length (chanout !!! c)) ->
  exists dest' chanout',
    store dest iter chanout = Some (dest', chanout')
    /\ length dest' = length dest
    /\ (forall c, c < 8 ->
          chanout' !!! c = drop (iter * (N / 8)) (chanout !!! c))
    /\ (forall k j c, k < iter -> j < N / 8 -> c < 8 ->
          dest' !!! (k * N + j * 8 + c)
          = (chanout !!! c) !!! (k * (N / 8) + j))
    /\ (forall p, iter * N <= p -> dest' !!! p = dest !!! p).
Proof.
  intros Hlog Hsmall Hdest Hlen Henough.
  pose proof (N_points Hlog) as HN.
  destruct (store_run dest iter chanout Hlog Hsmall Hdest Hlen Henough)
    as ([dest' chanout'] & Hstore & Hlen' & _ & Hchans & Hvalues).
  cbn [fst snd] in Hlen', Hchans, Hvalues.
  exists dest', chanout'. split; [done |]. split; [done |]. split; [done |].
  split.
  - intros k j c Hk Hj Hc. rewrite Hvalues.
    destruct (decide (k * N + j * 8 + c < 8 * (iter * (N / 8)))) as [_ | Hno];
      [| nia].
    assert ((k * N + j * 8 + c) mod 8 = c) as ->.
    { symmetry. apply (Nat.mod_unique _ _ (k * (N / 8) + j)); nia. }
    assert ((k * N + j * 8 + c) / 8 = k * (N / 8) + j) as ->.
    { symmetry. apply (Nat.div_unique _ _ _ c); nia. }
    done.
  - intros p Hp. rewrite Hvalues.
    by destruct (decide (p < 8 * (iter * (N / 8)))); [nia |].
Qed.

(** *** A [store] that waits *)

Lemma read_tuple_Some (chans : list (list V)) (data : float2x8 V)
    (chans' : list (list V)) :
  length chans = 8 -> read_tuple chans = Some (data, chans') ->
  length chans' = 8
  /\ forall c, c < 8 -> length (chans !!! c) = S (length (chans' !!! c)).
Proof.
  intros Hlen Hread.
  destruct (read_tuple_heads chans Hlen) as (data0 & chans0 & Hread0 & Hlen0 & Htails).
  - intros c Hc Hempty.
    by rewrite (read_tuple_blocks chans c Hlen Hc Hempty) in Hread.
  - rewrite Hread in Hread0. injection Hread0 as <- <-.
    split; [done |]. intros c Hc. by rewrite (Htails c Hc).
Qed.

Lemma store_step_Some (k j : nat) (st st' : list V * list (list V)) :
  length st.2 = 8 -> store_step k j st = Some st' ->
  length st'.2 = 8
  /\ forall c, c < 8 -> length (st.2 !!! c) = S (length (st'.2 !!! c)).
Proof.
  destruct st as [dest chans]. cbn [fst snd]. intros Hlen.
  rewrite store_step_tuple.
  destruct (read_tuple chans) as [[data chans'] |] eqn:Hread; [| done].
  cbn [mbind option_bind]. intros [= <-]. cbn [fst snd].
  by apply (read_tuple_Some chans data).
Qed.

Lemma store_inner_Some (k n : nat) (st st' : list V * list (list V)) :
  length st.2 = 8 -> loop (store_step k) n st = Some st' ->
  length st'.2 = 8
  /\ forall c, c < 8 -> length (st.2 !!! c) = n + length (st'.2 !!! c).
Proof.
  intros Hlen. revert st'. induction n as [|n IH]; intros st'.
  - intros [= <-]. done.
  - rewrite loop_S.
    destruct (loop (store_step k) n st) as [st_n |]; [| done].
    cbn [mbind option_bind]. intros Hstep.
    destruct (IH st_n eq_refl) as (Hlen_n & Hcount).
    destruct (store_step_Some k n st_n st' Hlen_n Hstep) as (Hlen' & Hone).
    split; [done |]. intros c Hc. rewrite Hcount, Hone by done. lia.
Qed.

Lemma store_outer_Some (dest : list V) (chanout : list (list V)) (n : nat)
    (st' : list V * list (list V)) :
  length chanout = 8 ->
  loop (fun k => loop (store_step k) (N / 8)) n (dest, chanout) = Some st' ->
  length st'.2 = 8
  /\ forall c, c < 8 ->
       length (chanout !!! c) = n * (N / 8) + length (st'.2 !!! c).
Proof.
  intros Hlen. revert st'. induction n as [|n IH]; intros st'.
  - intros [= <-]. done.
  - rewrite loop_S.
    destruct (loop _ n (dest, chanout)) as [st_n |]; [| done].
    cbn [mbind option_bind]. intros Hinner.
    destruct (IH st_n eq_refl) as (Hlen_n & Hcount).
    destruct (store_inner_Some n (N / 8) st_n st' Hlen_n Hinner)
      as (Hlen' & Hmore).
    split; [done |]. intros c Hc. rewrite Hcount, Hmore by done. lia.
Qed.

(** X25.  The Intel variant of [store] ends only when every channel has
    delivered [iter * (N / 8)] values: on a channel that holds fewer, it
    waits for ever. *)
Theorem store_waits (dest : list V) (iter : nat) (chanout : list (list V))
    (c : nat) :
  length chanout = 8 -> c < 8 ->
  length (chanout !!! c) < iter * (N / 8) ->
  store dest iter chanout = None.
Proof.
  intros Hlen Hc Hshort.
  destruct (store dest iter chanout) as [st' |] eqn:Hstore; [| done].
  exfalso. unfold store in Hstore. change (N / POINTS) with (N / 8) in Hstore.
  destruct (store_outer_Some dest chanout iter st' Hlen Hstore) as (_ & Hcount).
  pose proof (Hcount c Hc). lia.
Qed.

Lemma fft1d_step_Some (count : nat) (inverse : Z) (i : nat)
    (st st' : list (list V) * list (list V) * list V) :
  length st.1.1 = 8 -> fft1d_step count inverse i st = Some st' ->
  length st'.1.1 = 8
  /\ forall c, c < 8 ->
       length (st.1.1 !!! c)
       = (if decide (i < count * (N / 8)) then 1 else 0)
         + length (st'.1.1 !!! c).
Proof.
  destruct st as [[chanin chanout] delay]. cbn [fst snd]. intros Hlen.
  unfold fft1d_step. change (N / POINTS) with (N / 8).
  destruct (decide (i < count * (N / 8))) as [Hread | Hzeros].
  - destruct (read_tuple chanin) as [[data chanin'] |] eqn:Htuple; [| done].
    cbn [mbind option_bind].
    destruct (fft_step _ _ _ _ _) as [data' delay'].
    intros [= <-]. cbn [fst snd].
    destruct (read_tuple_Some chanin data chanin' Hlen Htuple) as (Hlen' & Hone).
    split; [done |]. intros c Hc. rewrite (Hone c Hc). lia.
  - cbn [mbind option_bind].
    destruct (fft_step _ _ _ _ _) as [data' delay'].
    intros [= <-]. cbn [fst snd]. done.
Qed.

Lemma fft1d_loop_Some (count : nat) (inverse : Z) (n : nat)
    (st st' : list (list V) * list (list V) * list V) :
  length st.1.1 = 8 -> loop (fft1d_step count inverse) n st = Some st' ->
  length st'.1.1 = 8
  /\ forall c, c < 8 ->
       length (st.1.1 !!! c)
       = n `min` (count * (N / 8)) + length (st'.1.1 !!! c).
Proof.
  intros Hlen. revert st'. induction n as [|n IH]; intros st'.
  - intros [= <-]. done.
  - rewrite loop_S.
    destruct (loop (fft1d_step count inverse) n st) as [st_n |]; [| done].
    cbn [mbind option_bind]. intros Hstep.
    destruct (IH st_n eq_refl) as (Hlen_n & Hcount).
    destruct (fft1d_step_Some count inverse n st_n st' Hlen_n Hstep)
      as (Hlen' & Hone).
    split; [done |]. intros c Hc. rewrite Hcount, Hone by done.
    destruct (decide (n < count * (N / 8))); lia.
Qed.

(** X29.  [fft1d] ends only when every input channel has delivered
    [count * (N / 8)] values: on a channel that holds fewer, as after a
    [fetch] of fewer iterations, it waits for ever. *)
Theorem fft1d_waits (count : nat) (inverse : Z)
    (chanin chanout : list (list V)) (delay : list V) (c : nat) :
  3 <= LOGN -> (Z.of_nat (count * (N / 8) + N / 8) <= 2 ^ 32)%Z ->
  length chanin = 8 -> c < 8 ->
  length (chanin !!! c) < count * (N / 8) ->
  fft1d count inverse (chanin, chanout, delay) = None.
Proof.
  intros Hlog Hsmall Hlen Hc Hshort.
  pose proof (eighth_pos Hlog) as Hpos.
  destruct (fft1d count inverse (chanin, chanout, delay)) as [st' |] eqn:Hrun;
    [| done].
  exfalso. unfold fft1d in Hrun. change (N / POINTS) with (N / 8) in Hrun.
  assert (Z.to_nat (wrap32 (Z.of_nat (count * (N / 8) + N / 8) - 1))
          = count * (N / 8) + N / 8 - 1) as Hbound.
  { unfold wrap32. rewrite Z.mod_small; lia. }
  rewrite Hbound in Hrun.
  destruct (fft1d_loop_Some count inverse _ (chanin, chanout, delay) st' Hlen Hrun)
    as (_ & Hcount).
  pose proof (Hcount c Hc) as Hcons. cbn [fst snd] in Hcons. lia.
Qed.

(** *** The three kernels in a row *)

(** X26.  The Intel variants of [fetch], [fft1d] and [store], started with
    the same number of iterations on empty channels, all end, and every
    value that was written to a channel has been read.  The engine has
    been given the input in tuples, the tuple [t] of iteration [k] made of
    the entries [k * N + m * (N / 8) + t] with [m] in bit-reversed order,
    and [dest] holds the results of the engine after the first
    [N / 8 - 1], the eight values of a result side by side; behind
    [iter * N] entries [dest] is as it was. *)
Theorem fetch_fft1d_store (src dest : list V) (iter : nat) (inverse : Z)
    (delay : list V) :
  3 <= LOGN -> (Z.of_nat ((iter + 1) * N) <= 2 ^ 32)%Z ->
  iter * N <= length dest ->
  let inputs := (tuple_at src <$> seq 0 (iter * (N / 8)))
                ++ replicate (N / 8 - 1) zeros in
  let results := drop (N / 8 - 1) (engine inverse inputs delay).1 in
  exists chanin chanout delay' dest' chanout',
    fft1d iter inverse (fetch src iter (replicate 8 []), replicate 8 [], delay)
    = Some (chanin, chanout, delay')
    /\ store dest iter chanout = Some (dest', chanout')
    /\ (forall c, c < 8 -> chanin !!! c = [] /\ chanout' !!! c = [])
    /\ length dest' = length dest
    /\ forall p,
         dest' !!! p = if decide (p < iter * N)
                       then component (p mod 8) (results !!! (p / 8))
                       else dest !!! p.
Proof.
  intros Hlog Hsmall Hdest. cbn zeta.
  pose proof (N_points Hlog) as HN. pose proof (eighth_pos Hlog) as Hpos.
  destruct (fetch_channels src iter (replicate 8 []) Hlog)
    as (Hlen_in & Hfetched); [lia | done |].
  assert (forall c, c < 8 ->
            fetch src iter (replicate 8 []) !!! c = stream src iter c)
    as Hstreams.
  { intros c Hc. rewrite Hfetched by done.
    by rewrite lookup_total_replicate_2 by done. }
  assert (engine_inputs (fetch src iter (replicate 8 [])) iter
          = (tuple_at src <$> seq 0 (iter * (N / 8)))
            ++ replicate (N / 8 - 1) zeros) as Hinputs.
  { unfold engine_inputs. f_equal. apply list_fmap_ext.
    intros i t Ht. apply lookup_seq in Ht as [-> Ht]. cbn [Nat.add].
    apply float2x8_components. intros c Hc.
    rewrite component_tuple_of, Hstreams by done.
    rewrite <- tuples_stream by done.
    rewrite <- list_fmap_compose.
    rewrite (list_lookup_total_fmap (component c ∘ tuple_at src))
      by (by rewrite length_seq).
    by rewrite lookup_total_seq_lt. }
  destruct (fft1d_run iter inverse (fetch src iter (replicate 8 []))
              (replicate 8 []) delay Hlog)
    as (chanin & chanout & Hfft & _ & Hlen_out & Hcount & Hchans);
    [nia | done | done | |].
  { intros c Hc. rewrite Hstreams by done. by rewrite stream_length. }
  rewrite Hinputs in Hfft, Hcount, Hchans.
  assert (forall c, c < 8 ->
            chanout !!! c
            = component c <$> drop (N / 8 - 1)
                (engine inverse
                   ((tuple_at src <$> seq 0 (iter * (N / 8)))
                    ++ replicate (N / 8 - 1) zeros) delay).1) as Hout.
  { intros c Hc. destruct (Hchans c Hc) as [_ ->].
    by rewrite lookup_total_replicate_2 by done. }
  destruct (store_run dest iter chanout Hlog)
    as ([dest' chanout'] & Hstore & Hlen' & _ & Hrest & Hvalues);
    [lia | done | done | |].
  { intros c Hc. rewrite Hout by done. rewrite length_fmap. lia. }
  cbn [fst snd] in Hlen', Hrest, Hvalues.
  eexists chanin, chanout, _, dest', chanout'.
  split; [exact Hfft |]. split; [done |]. split; [| split; [done |]].
  - intros c Hc. split.
    + destruct (Hchans c Hc) as [-> _]. rewrite Hstreams by done.
      apply drop_ge. by rewrite stream_length.
    + rewrite Hrest, Hout by done. apply drop_ge. rewrite length_fmap. lia.
  - intros p. rewrite Hvalues.
    destruct (decide (p < 8 * (iter * (N / 8)))) as [Hin | Hbehind];
      destruct (decide (p < iter * N)) as [Hin' | Hbehind']; try lia; [| done].
    assert (p mod 8 < 8) as Hc by (apply Nat.mod_upper_bound; lia).
    rewrite Hout by done.
    apply list_lookup_total_fmap. rewrite Hcount.
    apply Nat.Div0.div_lt_upper_bound. lia.
Qed.

(** *** The Xilinx variant of [store] *)

Lemma store_xilinx_round (garbage : nat -> float2x8 V)
    (buf : list (list (list V))) (iter k : nat) (dest : list V)
    (chanout : list (float2x8 V)) :
  3 <= LOGN -> (Z.of_nat (S k) * 8 <= 2 ^ 32)%Z -> 8 * S k <= length dest ->
  let out := store_xilinx_step garbage buf iter (dest, chanout) k in
  length out.1 = length dest
  /\ out.2 = (if decide (k < iter * (N / 8)) then chanout ++ [garbage k]
              else chanout)
  /\ forall p,
       out.1 !!! p
       = if decide (8 * k <= p < 8 * k + 8)
         then cell ((p / N) mod 4) (p mod N) buf
         else dest !!! p.
Proof.
  intros Hlog Hsmall Hroom. cbn zeta. unfold store_xilinx_step.
  change (N / POINTS) with (N / 8). cbn [fst snd].
  pose proof (eighth_pos Hlog) as Hpos. pose proof (N_points Hlog) as HN.
  assert (forall n, n <= 8 ->
            let out := fold_left
              (fun dest j =>
                 let local_i := Nat.land (burst_index k j) (N - 1) in
                 <[burst_index k j :=
                     buf_read
                       (Nat.land (Nat.shiftr k (LOGN - LOGPOINTS))
                                 (BUFFER_REPLICATION - 1))
                       (Nat.shiftr local_i (LOGN - LOGPOINTS))
                       (Nat.land local_i (2 ^ (LOGN - LOGPOINTS) - 1)) buf]>
                   dest)
              (seq 0 n) dest in
            length out = length dest
            /\ forall p,
                 out !!! p
                 = if decide (8 * k <= p < 8 * k + n)
                   then cell ((p / N) mod 4) (p mod N) buf
                   else dest !!! p) as Hloop.
  { induction n as [|n IH]; intros Hn; cbn zeta.
    - split; [done |]. intros p.
      by destruct (decide (8 * k <= p < 8 * k + 0)); [lia |].
    - rewrite seq_S, fold_left_app. cbn [fold_left Nat.add].
      destruct IH as (Hlen & Hvalues); [lia |].
      match goal with
      | |- context [fold_left ?f (seq 0 n) dest] =>
          remember (fold_left f (seq 0 n) dest) as prev eqn:Hprev; clear Hprev
      end.
      rewrite burst_index_exact by lia.
      rewrite land_N, !shiftr_eighth, land_eighth, land_replication by done.
      rewrite length_insert. split; [done |]. intros p.
      destruct (decide (p = 8 * k + n)) as [-> | Hne].
      + rewrite list_lookup_total_insert_eq by lia.
        destruct (decide (8 * k <= 8 * k + n < 8 * k + S n)); [| lia].
        unfold cell. do 2 f_equal.
        rewrite HN at 2. rewrite <- Nat.Div0.div_div.
        f_equal. apply (Nat.div_unique _ _ _ n); lia.
      + rewrite list_lookup_total_insert_ne by done. rewrite Hvalues.
        destruct (decide (8 * k <= p < 8 * k + n));
          destruct (decide (8 * k <= p < 8 * k + S n)); try done; lia. }
  destruct (Hloop 8) as (Hlen & Hvalues); [lia |].
  split; [exact Hlen |]. split; [done |]. exact Hvalues.
Qed.

(** X28.  The Xilinx variant of [store] never reads the pipe.  In each of
    its first [iter * (N / 8)] rounds it writes to the pipe a tuple that
    has no value yet, and it fills [(iter + 1) * N] entries of [dest],
    [N] more than the results take, with what its buffer holds, replica
    after replica; the buffer is never assigned, so [dest] does not
    depend on what the engine has sent. *)
Theorem store_xilinx_writes_buffer (garbage : nat -> float2x8 V)
    (buf : list (list (list V))) (dest : list V) (iter : nat)
    (chanout : list (float2x8 V)) :
  3 <= LOGN -> (Z.of_nat ((iter + 1) * N) <= 2 ^ 32)%Z ->
  (iter + 1) * N <= length dest ->
  let out := store_xilinx garbage buf dest iter chanout in
  out.2 = chanout ++ (garbage <$> seq 0 (iter * (N / 8)))
  /\ length out.1 = length dest
  /\ forall p,
       out.1 !!! p
       = if decide (p < (iter + 1) * N)
         then cell ((p / N) mod 4) (p mod N) buf
         else dest !!! p.
Proof.
  intros Hlog Hsmall Hroom. cbn zeta. unfold store_xilinx.
  change (N / POINTS) with (N / 8).
  pose proof (eighth_pos Hlog) as Hpos. pose proof (N_points Hlog) as HN.
  assert (forall n, n <= (iter + 1) * (N / 8) ->
            let out := fold_left (store_xilinx_step garbage buf iter)
                                 (seq 0 n) (dest, chanout) in
            out.2 = chanout ++ (garbage <$> seq 0 (n `min` (iter * (N / 8))))
            /\ length out.1 = length dest
            /\ forall p,
                 out.1 !!! p
                 = if decide (p < 8 * n)
                   then cell ((p / N) mod 4) (p mod N) buf
                   else dest !!! p) as Hloop.
  { induction n as [|n IH]; intros Hn; cbn zeta.
    - cbn [seq fold_left fst snd]. rewrite Nat.min_0_l.
      split; [by rewrite app_nil_r |]. split; [done |].
      intros p. by destruct (decide (p < 8 * 0)); [lia |].
    - rewrite seq_S, fold_left_app. cbn [fold_left Nat.add].
      destruct IH as (Hpipe & Hlen & Hvalues); [lia |].
      destruct (fold_left _ (seq 0 n) (dest, chanout)) as [dest_n chanout_n].
      cbn [fst snd] in Hpipe, Hlen, Hvalues.
      destruct (store_xilinx_round garbage buf iter n dest_n chanout_n Hlog)
        as (Hlen' & Hpipe' & Hvalues'); [nia | nia |].
      split; [| split].
      + rewrite Hpipe', Hpipe.
        destruct (decide (n < iter * (N / 8))) as [Hlt | Hge].
        * rewrite !Nat.min_l by lia.
          by rewrite seq_S, fmap_app, app_assoc.
        * by rewrite !Nat.min_r by lia.
      + by rewrite Hlen'.
      + intros p. rewrite Hvalues', Hvalues.
        destruct (decide (8 * n <= p < 8 * n + 8));
          destruct (decide (p < 8 * S n));
          destruct (decide (p < 8 * n)); try done; lia. }
  destruct (Hloop ((iter + 1) * (N / 8))) as (Hpipe & Hlen & Hvalues); [lia |].
  split; [| split; [done |]].
  - rewrite Hpipe. by rewrite Nat.min_r by lia.
  - intros p. rewrite Hvalues.
    destruct (decide (p < 8 * ((iter + 1) * (N / 8))));
      destruct (decide (p < (iter + 1) * N)); try done; lia.
Qed.

End Kernels.

(** Two transforms of sixteen points, with an engine that hands its input
    through. *)
Definition sample_src : list Z := Z.of_nat <$> seq 0 32.

Definition sample_dest : list Z := replicate 40 (-1)%Z.

Definition sample_step (data : float2x8 Z) (step : nat) (delay : list Z)
    (inverse : Z) (logn : nat) : float2x8 Z * list Z :=
  (data, delay).

Definition sample_channels : list (list Z) :=
  fetch 4 sample_src 2 (replicate 8 []).

Lemma bit_reversed_bits_witness :
  ((0 <= 6)%Z /\ 3 < 32)
  /\ (0 <= bit_reversed 6 3 < 2 ^ Z.of_nat 3)%Z
  /\ (forall i : nat,
        Z.testbit (bit_reversed 6 3) (Z.of_nat i)
        = if decide (i < 3) then Z.testbit 6 (Z.of_nat (3 - 1 - i)) else false)
  /\ ((6 < 2 ^ Z.of_nat 3)%Z -> bit_reversed (bit_reversed 6 3) 3 = 6%Z).
Proof.
  assert (0 <= 6)%Z as Hx by lia.
  assert (3 < 32) as Hbits by lia.
  split; [by split |].
  exact (bit_reversed_bits 6 3 Hx Hbits).
Defined.

Lemma fetch_streams_witness :
  (3 <= 4 /\ (Z.of_nat (2 * N 4) <= 2 ^ 32)%Z
   /\ length (replicate 8 ([] : list Z)) = 8)
  /\ length (fetch 4 sample_src 2 (replicate 8 [])) = 8
  /\ forall c, c < 8 ->
       fetch 4 sample_src 2 (replicate 8 []) !!! c
       = replicate 8 [] !!! c ++ stream 4 sample_src 2 c
       /\ length (stream 4 sample_src 2 c) = 2 * (N 4 / 8).
Proof.
  assert (3 <= 4) as Hlog by lia.
  assert (Z.of_nat (2 * N 4) <= 2 ^ 32)%Z as Hsmall by (vm_compute; discriminate).
  assert (length (replicate 8 ([] : list Z)) = 8) as Hlen by reflexivity.
  split; [done |].
  exact (fetch_streams 4 sample_src 2 (replicate 8 []) Hlog Hsmall Hlen).
Defined.

Lemma fetch_xilinx_same_witness :
  (3 <= 4 /\ (Z.of_nat ((2 + 1) * N 4) <= 2 ^ 32)%Z /\ 5 < 8)
  /\ component 5 <$> fetch_xilinx 4 sample_src 2 []
     = fetch 4 sample_src 2 (replicate 8 []) !!! 5.
Proof.
  assert (3 <= 4) as Hlog by lia.
  assert (Z.of_nat ((2 + 1) * N 4) <= 2 ^ 32)%Z as Hsmall
    by (vm_compute; discriminate).
  assert (5 < 8) as Hc by lia.
  split; [done |].
  exact (fetch_xilinx_same 4 sample_src 2 5 Hlog Hsmall Hc).
Defined.

Lemma sample_channels_full (c : nat) :
  c < 8 -> 2 * (N 4 / 8) <= length (sample_channels !!! c).
Proof. intros Hc. do 8 (destruct c as [|c]; [vm_compute; lia |]). lia. Qed.

Lemma fft1d_engine_witness :
  (3 <= 4 /\ (Z.of_nat (2 * (N 4 / 8) + N 4 / 8) <= 2 ^ 32)%Z
   /\ length sample_channels = 8 /\ length (replicate 8 ([] : list Z)) = 8
   /\ (forall c, c < 8 -> 2 * (N 4 / 8) <= length (sample_channels !!! c)))
  /\ exists chanin' chanout',
       fft1d 4 sample_step 0%Z 2 0 (sample_channels, replicate 8 [], [])
       = Some (chanin', chanout',
               (engine 4 sample_step 0
                  (engine_inputs 4 0%Z sample_channels 2) []).2)
       /\ length (drop (N 4 / 8 - 1)
                    (engine 4 sample_step 0
                       (engine_inputs 4 0%Z sample_channels 2) []).1)
          = 2 * (N 4 / 8)
       /\ forall c, c < 8 ->
            chanin' !!! c = drop (2 * (N 4 / 8)) (sample_channels !!! c)
            /\ chanout' !!! c
               = replicate 8 [] !!! c
                 ++ (component c
                       <$> drop (N 4 / 8 - 1)
                             (engine 4 sample_step 0
                                (engine_inputs 4 0%Z sample_channels 2) []).1).
Proof.
  assert (3 <= 4) as Hlog by lia.
  assert (Z.of_nat (2 * (N 4 / 8) + N 4 / 8) <= 2 ^ 32)%Z as Hsmall
    by (vm_compute; discriminate).
  assert (length sample_channels = 8) as Hin by reflexivity.
  assert (length (replicate 8 ([] : list Z)) = 8) as Hout by reflexivity.
  split; [repeat split; try done; apply sample_channels_full |].
  exact (fft1d_engine 4 sample_step 0%Z 2 0 sample_channels (replicate 8 []) []
           Hlog Hsmall Hin Hout sample_channels_full).
Defined.

Lemma store_places_witness :
  (3 <= 4 /\ (Z.of_nat (2 * N 4) <= 2 ^ 32)%Z
   /\ 2 * N 4 <= length sample_dest /\ length sample_channels = 8
   /\ (forall c, c < 8 -> 2 * (N 4 / 8) <= length (sample_channels !!! c)))
  /\ exists dest' chanout',
       store 4 sample_dest 2 sample_channels = Some (dest', chanout')
       /\ length dest' = length sample_dest
       /\ (forall c, c < 8 ->
             chanout' !!! c = drop (2 * (N 4 / 8)) (sample_channels !!! c))
       /\ (forall k j c, k < 2 -> j < N 4 / 8 -> c < 8 ->
             dest' !!! (k * N 4 + j * 8 + c)
             = (sample_channels !!! c) !!! (k * (N 4 / 8) + j))
       /\ (forall p, 2 * N 4 <= p -> dest' !!! p = sample_dest !!! p).
Proof.
  assert (3 <= 4) as Hlog by lia.
  assert (Z.of_nat (2 * N 4) <= 2 ^ 32)%Z as Hsmall by (vm_compute; discriminate).
  assert (2 * N 4 <= length sample_dest) as Hdest by (vm_compute; lia).
  assert (length sample_channels = 8) as Hlen by reflexivity.
  split; [repeat split; try done; apply sample_channels_full |].
  exact (store_places 4 sample_dest 2 sample_channels Hlog Hsmall Hdest Hlen
           sample_channels_full).
Defined.

Lemma store_waits_witness :
  (length sample_channels = 8 /\ 3 < 8
   /\ length (sample_channels !!! 3) < 3 * (N 4 / 8))
  /\ store 4 sample_dest 3 sample_channels = None.
Proof.
  assert (length sample_channels = 8) as Hlen by reflexivity.
  assert (3 < 8) as Hc by lia.
  assert (length (sample_channels !!! 3) < 3 * (N 4 / 8)) as Hshort
    by (vm_compute; lia).
  split; [done |].
  exact (store_waits 4 sample_dest 3 sample_channels 3 Hlen Hc Hshort).
Defined.

Lemma fft1d_waits_witness :
  (3 <= 4 /\ (Z.of_nat (3 * (N 4 / 8) + N 4 / 8) <= 2 ^ 32)%Z
   /\ length sample_channels = 8 /\ 3 < 8
   /\ length (sample_channels !!! 3) < 3 * (N 4 / 8))
  /\ fft1d 4 sample_step 0%Z 3 0 (sample_channels, replicate 8 [], []) = None.
Proof.
  assert (3 <= 4) as Hlog by lia.
  assert (Z.of_nat (3 * (N 4 / 8) + N 4 / 8) <= 2 ^ 32)%Z as Hsmall
    by (vm_compute; discriminate).
  assert (length sample_channels = 8) as Hlen by reflexivity.
  assert (3 < 8) as Hc by lia.
  assert (length (sample_channels !!! 3) < 3 * (N 4 / 8)) as Hshort
    by (vm_compute; lia).
  split; [done |].
  exact (fft1d_waits 4 sample_step 0%Z 3 0 sample_channels (replicate 8 []) []
           3 Hlog Hsmall Hlen Hc Hshort).
Defined.

Lemma store_xilinx_writes_buffer_witness :
  (3 <= 4 /\ (Z.of_nat ((1 + 1) * N 4) <= 2 ^ 32)%Z
   /\ (1 + 1) * N 4 <= length sample_dest)
  /\ (store_xilinx 4 (fun _ => zeros 0%Z)
        (replicate 4 (replicate 8 [7; 8]%Z)) sample_dest 1 []).2
     = [] ++ ((fun _ => zeros 0%Z) <$> seq 0 (1 * (N 4 / 8)))
  /\ length (store_xilinx 4 (fun _ => zeros 0%Z)
               (replicate 4 (replicate 8 [7; 8]%Z)) sample_dest 1 []).1
     = length sample_dest
  /\ forall p,
       (store_xilinx 4 (fun _ => zeros 0%Z)
          (replicate 4 (replicate 8 [7; 8]%Z)) sample_dest 1 []).1 !!! p
       = if decide (p < (1 + 1) * N 4)
         then cell 4 ((p / N 4) mod 4) (p mod N 4)
                   (replicate 4 (replicate 8 [7; 8]%Z))
         else sample_dest !!! p.
Proof.
  assert (3 <= 4) as Hlog by lia.
  assert (Z.of_nat ((1 + 1) * N 4) <= 2 ^ 32)%Z as Hsmall
    by (vm_compute; discriminate).
  assert ((1 + 1) * N 4 <= length sample_dest) as Hdest by (vm_compute; lia).
  split; [done |].
  exact (store_xilinx_writes_buffer 4 (fun _ => zeros 0%Z)
           (replicate 4 (replicate 8 [7; 8]%Z)) sample_dest 1 []
           Hlog Hsmall Hdest).
Defined.

Lemma fetch_fft1d_store_witness :
  (3 <= 4 /\ (Z.of_nat ((2 + 1) * N 4) <= 2 ^ 32)%Z
   /\ 2 * N 4 <= length sample_dest)
  /\ exists chanin chanout delay' dest' chanout',
       fft1d 4 sample_step 0%Z 2 0
             (fetch 4 sample_src 2 (replicate 8 []), replicate 8 [], [])
       = Some (chanin, chanout, delay')
       /\ store 4 sample_dest 2 chanout = Some (dest', chanout')
       /\ (forall c, c < 8 -> chanin !!! c = [] /\ chanout' !!! c = [])
       /\ length dest' = length sample_dest
       /\ forall p,
            dest' !!! p
            = if decide (p < 2 * N 4)
              then component (p mod 8)
                     (drop (N 4 / 8 - 1)
                        (engine 4 sample_step 0
                           ((tuple_at 4 sample_src <$> seq 0 (2 * (N 4 / 8)))
                            ++ replicate (N 4 / 8 - 1) (zeros 0%Z)) []).1
                      !!! (p / 8))
              else sample_dest !!! p.
Proof.
  assert (3 <= 4) as Hlog by lia.
  assert (Z.of_nat ((2 + 1) * N 4) <= 2 ^ 32)%Z as Hsmall
    by (vm_compute; discriminate).
  assert (2 * N 4 <= length sample_dest) as Hdest by (vm_compute; lia).
  split; [done |].
  exact (fetch_fft1d_store 4 sample_step 0%Z sample_src sample_dest 2 0 []
           Hlog Hsmall Hdest).
Defined.

End FFT.
